(** * Bridge anomaly detection: the seeding split, the feed producer and
      the scoring engine

    A shallow embedding of [seed_historical_data.py],
    [bridge_realtime_engine.py] and [bridge_ml_engine.py].  Python floats
    are IEEE-754 binary64 numbers, modelled by Rocq's primitive floats;
    Python integers are [Z]; the effects of the two long-running processes
    (store calls that may raise, the shutdown flag set by the signal
    handler, printing and sleeping) are threaded through a small
    state-and-exception monad. *)

From Stdlib Require Import ZArith Uint63 PrimFloat SpecFloat FloatOps.
From stdpp Require Import gmap strings list sorting.

Local Open Scope Z_scope.

(** ** Python numerics shared by the scripts *)

Module Py.

(** [float(n)] for a row count [n]: the conversion is exact below [2^53]
    and rounds to nearest beyond; a data-frame length always fits the 63
    bits of the primitive conversion. *)
Definition float_of_len (n : nat) : float :=
  PrimFloat.of_uint63 (Uint63.of_Z (Z.of_nat n)).

(** [int(x)] truncates a finite float toward zero and raises on a NaN or
    an infinity ([None]). *)
Definition int_of_float (x : float) : option Z :=
  match Prim2SF x with
  | S754_zero _ => Some 0
  | S754_finite s m e =>
      let mag := if (0 <=? e) then Z.shiftl (Z.pos m) e
                 else Z.shiftr (Z.pos m) (- e) in
      Some (if s then - mag else mag)
  | S754_infinity _ | S754_nan => None
  end.

End Py.

(** ** The 70/30 split of [bridge_dataset.csv] *)

(** [TRAIN_RATIO = 0.70], the same literal in both scripts: the binary64
    number nearest to 7/10, written here in hexadecimal. *)
Definition TRAIN_RATIO : float := 0x1.6666666666666p-1%float.

(** [split_idx = int(total * TRAIN_RATIO)]. *)
Definition split_idx (total : nat) (train_ratio : float) : option nat :=
  Z.to_nat <$> Py.int_of_float (PrimFloat.mul (Py.float_of_len total) train_ratio).

(** The split index the specification words: [floor(0.7 * N)], over the
    rationals. *)
Definition floor_split (total : nat) : nat := Z.to_nat (7 * Z.of_nat total / 10).

(** A check, by evaluation, of the split index of every row count from
    [first] up to [first + len - 1]: the index is defined, lies within the
    row count, and is [floor(0.7 N)] or one less. *)
Fixpoint split_checked (first : Z) (len : nat) : bool :=
  match len with
  | O => true
  | S len' =>
      match Py.int_of_float
              (PrimFloat.mul (PrimFloat.of_uint63 (Uint63.of_Z first))
                 TRAIN_RATIO) with
      | Some k => (0 <=? k) && (k <=? first) &&
                  (7 * first / 10 - 1 <=? k) && (k <=? 7 * first / 10) &&
                  split_checked (first + 1) len'
      | None => false
      end
  end.

(** A check, by evaluation, that the split index of every row count from
    [first] up to [first + len - 1] is [floor(0.7 N)] itself. *)
Fixpoint split_exact (first : Z) (len : nat) : bool :=
  match len with
  | O => true
  | S len' =>
      match Py.int_of_float
              (PrimFloat.mul (PrimFloat.of_uint63 (Uint63.of_Z first))
                 TRAIN_RATIO) with
      | Some k => (k =? 7 * first / 10) && split_exact (first + 1) len'
      | None => false
      end
  end.

(** ** Processes: exceptions, the environment and the effect monad *)

(** Instances of [Exception] that a library call may raise;
    [OperationalError] is [psycopg2.OperationalError], [OtherError] any
    other subclass of [Exception]. *)
Inductive error :=
| OperationalError (msg : string)
| OtherError (msg : string).

(** What unwinds the stack: an [Exception], or the [SystemExit] raised by
    [sys.exit(code)], which [except Exception] does not catch. *)
Inductive exn :=
| Error (e : error)
| SystemExit (code : Z).

(** The environment, as a script consumed from the left.  Every call into a
    library that can fail (the database driver, numpy, scikit-learn) takes
    the next [Pass] or [Raise]; a [Sig] is a SIGINT or SIGTERM delivered
    before that call.  An exhausted script lets every call through. *)
Inductive env_event :=
| Sig
| Pass
| Raise (e : error).

Inductive result (A : Type) :=
| Ret (a : A)
| Throw (e : exn).
Arguments Ret {A} a.
Arguments Throw {A} e.

(** What a process does that can be observed: the lines on its terminal,
    the library calls it attempts and the pauses it takes. *)
Inductive line (O : Type) :=
| SignalLine            (* "[!] Shutdown signal received. ..." *)
| Called (call : string)
| Line (o : O)
| Slept (seconds : float).
Arguments SignalLine {O}.
Arguments Called {O} call.
Arguments Line {O} o.
Arguments Slept {O} seconds.

(** A running process: the module-level flag [_running], the environment's
    script, the wall clock ([wall k] is what the [k]-th reading of
    [datetime.now()] returns), the terminal, and the program's own
    variables together with the store it talks to. *)
Record proc (O V : Type) := Proc {
  running : bool;
  script : list env_event;
  wall : nat -> Z;
  ticks : nat;
  out : list (line O);
  vars : V
}.
Arguments Proc {O V}.
Arguments running {O V}.
Arguments script {O V}.
Arguments wall {O V}.
Arguments ticks {O V}.
Arguments out {O V}.
Arguments vars {O V}.

Definition M (O V A : Type) : Type := proc O V -> result A * proc O V.

Section Monad.
Context {O V : Type}.

Definition ret {A} (a : A) : M O V A := fun w => (Ret a, w).

Definition bind {A B} (m : M O V A) (k : A -> M O V B) : M O V B :=
  fun w => match m w with
           | (Ret a, w') => k a w'
           | (Throw e, w') => (Throw e, w')
           end.

Definition throw {A} (e : exn) : M O V A := fun w => (Throw e, w).

(** [try: body except Exception as e: handler(e)]. *)
Definition try_except {A} (body : M O V A) (handler : error -> M O V A)
  : M O V A :=
  fun w => match body w with
           | (Throw (Error e), w') => handler e w'
           | r => r
           end.

(** [sys.exit(code)]. *)
Definition sys_exit {A} (code : Z) : M O V A := throw (SystemExit code).

Definition get_vars : M O V V := fun w => (Ret (vars w), w).

Definition modify (f : V -> V) : M O V unit :=
  fun w => (Ret tt, Proc (running w) (script w) (wall w) (ticks w) (out w)
                         (f (vars w))).

(** The signals at the head of the script. *)
Fixpoint signals (scr : list env_event) : nat * list env_event :=
  match scr with
  | Sig :: rest => let '(n, r) := signals rest in (S n, r)
  | _ => (0%nat, scr)
  end.

(** [signal_handler], run once for each signal that has arrived:
    it prints its line and clears [_running]. *)
Definition deliver (w : proc O V) : proc O V :=
  match signals (script w) with
  | (0%nat, _) => w
  | (S n, r) => Proc false r (wall w) (ticks w)
                     (out w ++ replicate (S n) SignalLine) (vars w)
  end.

(** A library call that may fail: it is attempted, and the environment
    decides whether it raises. *)
Definition slot (call : string) : M O V unit :=
  fun w =>
    let w := deliver w in
    let w := Proc (running w) (script w) (wall w) (ticks w)
                  (out w ++ [Called call]) (vars w) in
    match script w with
    | Raise e :: r =>
        (Throw (Error e),
         Proc (running w) r (wall w) (ticks w) (out w) (vars w))
    | Pass :: r =>
        (Ret tt, Proc (running w) r (wall w) (ticks w) (out w) (vars w))
    | _ => (Ret tt, w)
    end.

(** Reading the global [_running]. *)
Definition get_running : M O V bool :=
  fun w => let w := deliver w in (Ret (running w), w).

Definition print (o : O) : M O V unit :=
  fun w => (Ret tt, Proc (running w) (script w) (wall w) (ticks w)
                         (out w ++ [Line o]) (vars w)).

(** [time.sleep(seconds)]; a handler that returns normally lets the
    sleep run to its end. *)
Definition sleep (seconds : float) : M O V unit :=
  fun w => (Ret tt, Proc (running w) (script w) (wall w) (ticks w)
                         (out w ++ [Slept seconds]) (vars w)).

(** [datetime.now()]. *)
Definition datetime_now : M O V Z :=
  fun w => (Ret (wall w (ticks w)),
            Proc (running w) (script w) (wall w) (S (ticks w)) (out w)
                 (vars w)).

(** A script in which no call raises (signals may still arrive). *)
Definition calm (scr : list env_event) : bool :=
  forallb (fun ev => match ev with Raise _ => false | _ => true end) scr.

(** The script with its signals taken out, and a process facing it. *)
Definition is_sig (ev : env_event) : bool :=
  match ev with Sig => true | _ => false end.

Definition no_signals (scr : list env_event) : list env_event :=
  List.filter (fun ev => negb (is_sig ev)) scr.

Definition without_signals (w : proc O V) : proc O V :=
  Proc (running w) (no_signals (script w)) (wall w) (ticks w) (out w) (vars w).

(** The lines the program itself printed. *)
Definition printed (w : proc O V) : list O :=
  omap (fun l => match l with Line o => Some o | _ => None end) (out w).

Definition is_signal_line (l : line O) : bool :=
  match l with SignalLine => true | _ => false end.

(** What the program did, the signal handler's lines left out. *)
Definition effects (w : proc O V) : list (line O) :=
  List.filter (fun l => negb (is_signal_line l)) (out w).

End Monad.

Declare Scope proc_scope.
Delimit Scope proc_scope with proc.
Notation "x <- m ; k" := (bind m (fun x => k))
  (at level 100, m at next level, right associativity) : proc_scope.
Notation "m ;; k" := (bind m (fun _ => k))
  (at level 100, right associativity) : proc_scope.

Local Open Scope proc_scope.

(** ** Statements about commands *)

Section Logic.
Context {O V : Type}.

(** Every run of the command relates the state it starts in to the state
    it ends in by [R]. *)
Definition preserves (R : relation (proc O V)) {A} (m : M O V A) : Prop :=
  forall w r w', m w = (r, w') -> R w w'.

(** A command that raises nothing but instances of [Exception]. *)
Definition raises_errors {A} (m : M O V A) : Prop :=
  forall w c w', m w <> (Throw (SystemExit c), w').

(** A command that never raises. *)
Definition never_raises {A} (m : M O V A) : Prop :=
  forall w e w', m w <> (Throw e, w').

(** Under any script: from variables satisfying [P], the command leaves
    variables satisfying [Q] when it returns and [X] when it raises. *)
Definition hoare {A} (P : V -> Prop) (m : M O V A) (Q : A -> V -> Prop)
    (X : V -> Prop) : Prop :=
  forall w r w', P (vars w) -> m w = (r, w') ->
    match r with Ret a => Q a (vars w') | Throw _ => X (vars w') end.

(** Under a calm script: from variables satisfying [P], the command
    returns and leaves variables satisfying [Q]. *)
Definition total {A} (P : V -> Prop) (m : M O V A) (Q : A -> V -> Prop)
  : Prop :=
  forall w, calm (script w) = true -> P (vars w) ->
    exists a w', m w = (Ret a, w') /\ calm (script w') = true /\ Q a (vars w').

(** Under a calm script the command returns. *)
Definition returns {A} (m : M O V A) : Prop :=
  total (fun _ => True) m (fun _ _ => True).

(** Two processes that did the same work and face the same calls, the
    second one never signalled. *)
Definition same_work (w1 w2 : proc O V) : Prop :=
  vars w1 = vars w2 /\ effects w1 = effects w2 /\ wall w1 = wall w2 /\
  ticks w1 = ticks w2 /\ script w2 = no_signals (script w1).

(** A command that does the same whether or not signals arrive. *)
Definition signal_blind {A} (m : M O V A) : Prop :=
  forall w1 w2, same_work w1 w2 ->
    (m w1).1 = (m w2).1 /\ same_work (m w1).2 (m w2).2.

End Logic.

(** ** Statements about what a command leaves on the terminal *)

Section Terminal.
Context {O V : Type}.

(** Under any script: from variables and printed lines satisfying [P], the
    command leaves variables and printed lines satisfying [Q] when it
    returns and [X] when it raises. *)
Definition hoare_printed {A} (P : V -> list O -> Prop) (m : M O V A)
    (Q : A -> V -> list O -> Prop) (X : V -> list O -> Prop) : Prop :=
  forall w r w', P (vars w) (printed w) -> m w = (r, w') ->
    match r with
    | Ret a => Q a (vars w') (printed w')
    | Throw _ => X (vars w') (printed w')
    end.

(** Under a calm script: from variables and printed lines satisfying [P],
    the command returns and leaves variables and printed lines satisfying
    [Q]. *)
Definition total_printed {A} (P : V -> list O -> Prop) (m : M O V A)
    (Q : A -> V -> list O -> Prop) : Prop :=
  forall w, calm (script w) = true -> P (vars w) (printed w) ->
    exists a w', m w = (Ret a, w') /\ calm (script w') = true /\
                 Q a (vars w') (printed w').

(** [try: body finally: cleanup], the shape of a [with] block: the
    clean-up runs whether or not the body raised, and an exception of the
    clean-up replaces the one of the body. *)
Definition finally {A} (body : M O V A) (cleanup : M O V unit) : M O V A :=
  fun w => match body w with
           | (r, w') =>
               match cleanup w' with
               | (Ret _, w'') => (r, w'')
               | (Throw e, w'') => (Throw e, w'')
               end
           end.

(** The pauses a process took. *)
Definition is_pause (l : line O) : bool :=
  match l with Slept _ => true | _ => false end.

Definition pauses (w : proc O V) : list (line O) :=
  List.filter is_pause (out w).

(** A step without a pause. *)
Definition no_pause (w w' : proc O V) : Prop := pauses w' = pauses w.

(** A step the environment stays out of: once the script is exhausted it
    remains so, and [_running] is left as it is. *)
Definition undisturbed (w w' : proc O V) : Prop :=
  script w = [] -> script w' = [] /\ running w' = running w.

(** A script in which no call raises and no signal arrives. *)
Definition smooth (scr : list env_event) : bool :=
  forallb (fun ev => match ev with Pass => true | _ => false end) scr.

(** A step that meets no failure and no signal when the script holds
    none. *)
Definition steady (w w' : proc O V) : Prop :=
  smooth (script w) = true ->
  smooth (script w') = true /\ running w' = running w.

(** What a run added to the trace. *)
Definition added (w w' : proc O V) : list (line O) :=
  drop (length (out w)) (out w').

(** The trace after its first signal line, and a trace without the signal
    lines it begins with. *)
Fixpoint after_signal (l : list (line O)) : list (line O) :=
  match l with
  | [] => []
  | SignalLine :: rest => rest
  | _ :: rest => after_signal rest
  end.

Fixpoint skip_signals (l : list (line O)) : list (line O) :=
  match l with
  | SignalLine :: rest => skip_signals rest
  | _ => l
  end.

(** The trace after the call during which the first shutdown signal
    arrived: what the process did once that call was over. *)
Definition after_shutdown (l : list (line O)) : list (line O) :=
  drop 1 (skip_signals (after_signal l)).

(** A stretch of a run never sets [_running] again, and leaves a signal
    line on the trace when it clears it. *)
Definition flagged (w w' : proc O V) (new : list (line O)) : Prop :=
  out w' = out w ++ new /\
  (running w = false -> running w' = false) /\
  (running w' = true -> Forall (fun x => is_signal_line x = false) new).

End Terminal.

(** ** [seed_historical_data.py] *)

Module Seed.

(** [main]: [train_df = df.iloc[:split_idx]]. *)
Definition train_df {A} (df : list A) : option (list A) :=
  k ← split_idx (length df) TRAIN_RATIO; Some (take k df).

(** [remaining = total - split_idx]. *)
Definition remaining {A} (df : list A) : option Z :=
  k ← split_idx (length df) TRAIN_RATIO;
  Some (Z.of_nat (length df) - Z.of_nat k).

(** *** [main], from the loaded data frame on *)

Definition CHUNK_SIZE : nat := 5000.

(** [range(start, stop, step)] for a positive [step]: it has
    [(stop - start + step - 1) // step] elements, none when
    [stop <= start]. *)
Definition range (start stop step : nat) : list nat :=
  (fun j => start + j * step)%nat
  <$> seq 0 ((stop - start + step - 1) / step)%nat.

(** [chunk = train_df.iloc[i : i + CHUNK_SIZE]]. *)
Definition chunk {A} (train_df : list A) (i : nat) : list A :=
  take CHUNK_SIZE (drop i train_df).

(** [inserted = min(i + CHUNK_SIZE, split_idx)]. *)
Definition inserted (i split_idx : nat) : nat :=
  Nat.min (i + CHUNK_SIZE) split_idx.

(** The informative lines of the terminal. *)
Inductive output :=
| AlreadyHas (row_count : Z)
| Aborted
| Cleared
| Inserting (split_idx : Z)
| ChunkLine (inserted split_idx : Z)
| Seeded (split_idx : Z)
| Verified (rows : Z).

(** The seeding script's view of the store: the rows of
    [bridge_dataset]. *)
Definition Seeding (A : Type) := M output (list A).

(** The check for existing data.  [response] is what
    [input(...).strip().lower()] evaluates to when [input] returns.
    [sys.exit(0)] is not an [Exception] and leaves the script; whatever
    else is raised here is swallowed by [except Exception: pass].
    Building the statement, [pd.io.sql.text(...)], is a call like the
    others: it raises where [pandas.io.sql] has no attribute [text].  The
    [TRUNCATE] takes effect when its transaction is committed. *)
Definition check_existing {A} (response : string) : Seeding A unit :=
  try_except
    (slot "pd.read_sql COUNT";;
     v <- get_vars;
     let row_count := Z.of_nat (length v) in
     if 0 <? row_count then
       print (AlreadyHas row_count);;
       slot "input";;
       (if negb (String.eqb response "y")
        then print Aborted;; sys_exit 0
        else ret tt);;
       slot "engine.connect";;
       finally
         (slot "pd.io.sql.text";;
          slot "conn.execute TRUNCATE";;
          slot "conn.commit";;
          modify (fun _ => []))
         (slot "conn.close");;
       print Cleared
     else ret tt)
    (fun _ => ret tt).

(** [for i in range(0, split_idx, CHUNK_SIZE)], over the starts still to
    come; [to_sql] appends a chunk in one transaction. *)
Fixpoint insert_chunks {A} (train_df : list A) (split_idx : nat)
    (starts : list nat) : Seeding A unit :=
  match starts with
  | [] => ret tt
  | i :: rest =>
      slot "chunk.to_sql";;
      modify (fun v => v ++ chunk train_df i);;
      print (ChunkLine (Z.of_nat (inserted i split_idx))
                       (Z.of_nat split_idx));;
      insert_chunks train_df split_idx rest
  end.

(** [main], from the loaded data frame on: the split, the parsing of the
    time stamps, the check, the chunks and the verification.  The banners
    and the line that counts the rows awaiting a score are left out (the
    query behind that line is made all the same).  This script installs no
    signal handler: its runs are read against scripts without signals. *)
Definition main {A} (df : list A) (response : string) : Seeding A unit :=
  let total := length df in
  match split_idx total TRAIN_RATIO with
  | None => throw (Error (OtherError "OverflowError"))
  | Some split_idx =>
      let train_df := take split_idx df in
      slot "pd.to_datetime";;
      slot "create_engine";;
      check_existing response;;
      print (Inserting (Z.of_nat split_idx));;
      insert_chunks train_df split_idx (range 0 split_idx CHUNK_SIZE);;
      print (Seeded (Z.of_nat split_idx));;
      slot "pd.read_sql COUNT";;
      v <- get_vars;
      print (Verified (Z.of_nat (length v)));;
      slot "pd.read_sql COUNT pending"
  end.

(** *** Sample runs *)

(** A seeding script facing the script [scr] and a table of [rows]. *)
Definition start {A} (rows : list A) (scr : list env_event)
  : proc output (list A) :=
  Proc true scr (fun k => 1700000000 + Z.of_nat k) 0%nat [] rows.

(** A data frame of 90 rows, each row its own number. *)
Definition sample_df : list nat := seq 0 90.

(** Seeding an empty table, and a table that holds a row. *)
Definition fresh_end : proc output (list nat) :=
  (main sample_df "y" (start [] [])).2.

Definition seeded_start : proc output (list nat) := start [7%nat] [].

End Seed.

(** ** [bridge_realtime_engine.py]: the feed producer *)

Module Realtime.

(** A value held in a row of the data frame. *)
Inductive cell :=
| CNone                      (* None, NaT *)
| CFloat (f : float)         (* a Python float *)
| CInt (z : Z)               (* a Python int *)
| CNpFloat (f : float)       (* numpy.floating *)
| CNpInt (z : Z)             (* numpy.integer *)
| CStr (s : string)
| CBool (b : bool).

(** A row [pd.Series]: index labels with their values, labels unique. *)
Definition series : Type := list (string * cell).

(** Native Python values, as handed to the database driver. *)
Inductive pyval :=
| PNone
| PFloat (f : float)
| PInt (z : Z)
| PStr (s : string)
| PBool (b : bool)
| PDatetime (t : Z).

(** [pd.isna(val)]. *)
Definition isna (val : cell) : bool :=
  match val with
  | CNone => true
  | CFloat f | CNpFloat f => PrimFloat.is_nan f
  | _ => false
  end.

(** The value a non-missing cell is stored as: [val.item()] for a numpy
    scalar, [val] itself otherwise. *)
Definition item (val : cell) : pyval :=
  match val with
  | CNone => PNone
  | CFloat f | CNpFloat f => PFloat f
  | CInt z | CNpInt z => PInt z
  | CStr s => PStr s
  | CBool b => PBool b
  end.

(** [row[col]] for a label of the row. *)
Definition series_get (row : series) (col : string) : option cell :=
  snd <$> List.find (fun kv => bool_decide (kv.1 = col)) row.

(** The body of [for col in row.index]. *)
Definition copy_column (now : Z) (row : series)
    (reading : gmap string pyval) (col : string) : gmap string pyval :=
  if decide (col = "timestamp") then <["timestamp" := PDatetime now]> reading
  else match series_get row col with
       | Some val =>
           if isna val then <[col := PNone]> reading
           else <[col := item val]> reading
       | None => reading
       end.

(** The dict [reading] of [insert_row], after the two [pop]s; [now] is
    the value of [datetime.now()]. *)
Definition build_reading (now : Z) (row : series) : gmap string pyval :=
  let reading := foldl (copy_column now row) ∅ row.*1 in
  delete "anomaly_score" (delete "is_anomaly" reading).

(** The producer's view of the store: the rows of [bridge_dataset] it has
    committed, the rows of its open transaction, and its variable
    [count]. *)
Record mem := Mem {
  table : list (gmap string pyval);
  tx : list (gmap string pyval);
  count : Z
}.

(** The informative lines of the terminal; banners are left out, and so
    are the time stamp and the sensor read-outs of the progress line (the
    clock is read all the same). *)
Inductive output :=
| ConnectionFailed (e : error)
| Replaying (all : bool) (rows : Z)
| Progress (count : Z)
| InsertError (idx : nat) (e : error)
| Report (count total_to_send : Z).

Definition P := M output mem.

(** [cur.execute(sql, values)]: the row joins the open transaction. *)
Definition execute_insert (reading : gmap string pyval) : P unit :=
  slot "cur.execute";;
  modify (fun v => Mem (table v) (tx v ++ [reading]) (count v)).

Definition commit : P unit :=
  slot "conn.commit";; modify (fun v => Mem (table v ++ tx v) [] (count v)).

Definition rollback : P unit :=
  slot "conn.rollback";; modify (fun v => Mem (table v) [] (count v)).

(** [conn.close()] drops what was not committed. *)
Definition close : P unit :=
  slot "conn.close";; modify (fun v => Mem (table v) [] (count v)).

(** [insert_row]: the clock is read when the loop over the labels reaches
    ["timestamp"]; a row without that label never reads it (and
    [build_reading] then makes no use of [now]). *)
Definition insert_row (row : series) : P unit :=
  now <- (if bool_decide ("timestamp" ∈ row.*1) then datetime_now else ret 0);
  let reading := build_reading now row in
  slot "conn.cursor";;
  execute_insert reading;;
  commit;;
  slot "cur.close".

Definition incr_count : P unit :=
  modify (fun v => Mem (table v) (tx v) (count v + 1)).

(** [x = row.get(col, 0)] followed by [x = x if pd.notna(x) else 0]: what
    the progress line shows of a sensor. *)
Definition shown (row : series) (col : string) : cell :=
  match series_get row col with
  | Some val => if isna val then CInt 0 else val
  | None => CInt 0
  end.

(** What a format specification of type [f] (as in [{strain:>10.2f}])
    raises for a value: text has no such format, and a Python integer is
    converted to a float first, which overflows from [2^1024 - 2^970]
    on. *)
Definition format_f (val : cell) : option error :=
  match val with
  | CStr _ =>
      Some (OtherError
              "ValueError: Unknown format code 'f' for object of type 'str'")
  | CInt z =>
      if Z.abs z <? 2 ^ 1024 - 2 ^ 970 then None
      else Some (OtherError "OverflowError: int too large to convert to float")
  | CNone =>
      Some (OtherError
              "TypeError: unsupported format string passed to NoneType.__format__")
  | CFloat _ | CNpFloat _ | CNpInt _ | CBool _ => None
  end.

(** What building the progress line raises: its f-string formats the
    strain, the vibration and the health index, in that order. *)
Definition progress_error (row : series) : option error :=
  match format_f (shown row "strain_microstrain") with
  | Some e => Some e
  | None =>
      match format_f (shown row "vibration_ms2") with
      | Some e => Some e
      | None => format_f (shown row "structural_health_index_shi")
      end
  end.

(** The [try] ... [except Exception as e] around one insertion.  The
    progress line is built inside the [try], after [count += 1]: when that
    raises, the handler reports an insert error for a row that is stored
    and counted. *)
Definition attempt (idx : nat) (row : series) : P unit :=
  try_except
    (insert_row row;;
     incr_count;;
     ts <- datetime_now;
     match progress_error row with
     | Some e => throw (Error e)
     | None => v <- get_vars; print (Progress (count v))
     end)
    (fun e => print (InsertError idx e);; rollback).

(** What [time.sleep(seconds)] raises before it sleeps: [ValueError] for a
    NaN and for a negative number of seconds, [OverflowError] for a number
    of seconds whose count of nanoseconds does not fit the signed 64 bits
    of the C clock (a count of exactly [2^63] wraps to a negative one). *)
Definition sleep_error (seconds : float) : option error :=
  let ns := PrimFloat.mul seconds 1e9%float in
  if PrimFloat.is_nan seconds then
    Some (OtherError "ValueError: Invalid value NaN (not a number)")
  else if PrimFloat.ltb ns (-0x1p63)%float || PrimFloat.ltb 0x1p63%float ns
  then
    Some (OtherError
            "OverflowError: timestamp too large to convert to C _PyTime_t")
  else if PrimFloat.ltb seconds 0%float || PrimFloat.eqb ns 0x1p63%float then
    Some (OtherError "ValueError: sleep length must be non-negative")
  else None.

(** [time.sleep(interval)] with the [--speed] argument, which [argparse]
    passes on as any float.  A length the interpreter accepts is handed to
    the operating system, which may still refuse it (a deadline beyond the
    range of its clock): that is for the environment to say. *)
Definition time_sleep (seconds : float) : P unit :=
  match sleep_error seconds with
  | Some e => throw (Error e)
  | None => slot "time.sleep";; sleep seconds
  end.

(** [for idx in range(total_to_send)], over the indices still to come. *)
Fixpoint replay (realtime_df : list series) (interval : float)
    (total_to_send : Z) (idxs : list nat) : P unit :=
  match idxs with
  | [] => ret tt
  | idx :: rest =>
      r <- get_running;
      if negb r then ret tt
      else
        match realtime_df !! idx with
        | None => throw (Error (OtherError "IndexError"))
        | Some row =>
            attempt idx row;;
            (if Z.of_nat idx <? total_to_send - 1 then time_sleep interval
             else ret tt);;
            replay realtime_df interval total_to_send rest
        end
  end.

Definition total_to_send (max_count : Z) (total_available : Z) : Z :=
  if 0 <? max_count then Z.min max_count total_available
  else total_available.

(** [main], from the loaded replay rows on. *)
Definition main (max_count : Z) (interval : float)
    (realtime_df : list series) : P unit :=
  let total_available := Z.of_nat (length realtime_df) in
  let total := total_to_send max_count total_available in
  try_except (slot "psycopg2.connect")
    (fun e => match e with
              | OperationalError _ => print (ConnectionFailed e);; sys_exit 1
              | _ => throw (Error e)
              end);;
  print (if 0 <? max_count then Replaying false total
         else Replaying true total_available);;
  modify (fun v => Mem (table v) (tx v) 0);;
  replay realtime_df interval total (seq 0 (Z.to_nat total));;
  close;;
  v <- get_vars;
  print (Report (count v) total).

(** [load_realtime_data]: [df.iloc[split_idx:]], re-indexed from 0. *)
Definition load_realtime_data {A} (df : list A) (train_ratio : float)
  : option (list A) :=
  k ← split_idx (length df) train_ratio; Some (drop k df).

(** *** Reading the terminal *)

(** A line that reports one insertion attempt, and one that reports a
    success. *)
Definition is_attempt (o : output) : bool :=
  match o with Progress _ | InsertError _ _ => true | _ => false end.

Definition is_progress (o : output) : bool :=
  match o with Progress _ => true | _ => false end.

Definition attempts (l : list output) : Z :=
  Z.of_nat (length (List.filter is_attempt l)).

Definition successes (l : list output) : Z :=
  Z.of_nat (length (List.filter is_progress l)).

(** The termination and the report as the specification words them: the
    replay stops once [max_count] insertions have succeeded, or the rows are
    exhausted, or a shutdown was requested; and the last line gives
    succeeded versus attempted. *)
Definition stops_as_specified (max_count : Z) (df : list series)
    (w' : proc output mem) : Prop :=
  successes (printed w') = max_count \/
  attempts (printed w') = Z.of_nat (length df) \/
  running w' = false.

Definition reports_as_specified (w' : proc output mem) : Prop :=
  last (printed w') =
    Some (Report (successes (printed w')) (attempts (printed w'))).

(** What [insert_row] stores under a label of the row. *)
Definition stored (now : Z) (row : series) (col : string) : option pyval :=
  if decide (col = "timestamp") then Some (PDatetime now)
  else (fun val => if isna val then PNone else item val)
       <$> series_get row col.

(** A step that prints nothing and leaves [count] alone; it may find a
    signal. *)
Definition quiet (w w' : proc output mem) : Prop :=
  printed w' = printed w /\ count (vars w') = count (vars w) /\
  (running w' = true -> running w = true).

(** The insertions begun in a stretch of the trace: [conn.cursor()] is
    the first call of [insert_row]. *)
Definition is_cursor (x : line output) : bool :=
  match x with
  | Called call => String.eqb call "conn.cursor"
  | _ => false
  end.

Definition begun (l : list (line output)) : nat :=
  length (List.filter is_cursor l).

(** A stretch of a run in which no insertion is begun. *)
Definition idle (w w' : proc output mem) : Prop :=
  exists new, flagged w w' new /\ begun new = 0%nat.

(** A stretch of a run that begins with [conn.cursor()], signals that
    arrive during that call apart, and begins no other insertion. *)
Definition one_row (w w' : proc output mem) : Prop :=
  exists k rest,
    flagged w w' (replicate k SignalLine ++ Called "conn.cursor" :: rest) /\
    begun rest = 0%nat.

(** A stretch of a run that stops on a shutdown signal: with [_running]
    cleared it begins no insertion, and once the call during which a first
    signal arrived is over it begins none either. *)
Definition stopping (w w' : proc output mem) : Prop :=
  exists new, flagged w w' new /\
    (running w = false -> begun new = 0%nat) /\
    begun (after_shutdown new) = 0%nat.

(** A row whose progress line can be built. *)
Definition displayable (row : series) : Prop := progress_error row = None.

(** Rows as [pd.read_csv] names their columns: no label twice.  (A label
    that occurs twice makes [row[col]] a [Series] of two values, which a
    [series] does not describe.) *)
Definition well_labelled (df : list series) : Prop :=
  Forall (fun row => NoDup row.*1) df.

(** *** Sample runs *)

Definition sample_row : series :=
  [("timestamp", CStr "2024-01-01 00:00:00");
   ("strain_microstrain", CNpFloat 1.5%float);
   ("is_anomaly", CBool true);
   ("anomaly_score", CNpFloat 0.25%float);
   ("anomaly_detection_score", CNpFloat nan);
   ("bridge_mood_meter", CStr "calm");
   ("maintenance_alert", CNpInt 1)]%string.

Definition sample_rows : list series := [sample_row; sample_row; sample_row].

(** A freshly started producer facing the script [scr]. *)
Definition start (scr : list env_event) : proc output mem :=
  Proc true scr (fun k => 1700000000 + Z.of_nat k) 0%nat [] (Mem [] [] 0).

(** The first insertion times out, the rollback goes through. *)
Definition sample_start : proc output mem :=
  start [Pass; Raise (OtherError "timeout"); Pass].

Definition sample_end : proc output mem :=
  (main 2 1%float sample_rows sample_start).2.

(** A signal arrives after the first row was inserted. *)
Definition interrupted_start : proc output mem :=
  start [Pass; Pass; Pass; Pass; Pass; Sig].

Definition interrupted_end : proc output mem :=
  (main 2 1%float sample_rows interrupted_start).2.

(** The server drops the connection: the insertion raises, and so does the
    rollback. *)
Definition dropped_start : proc output mem :=
  start [Pass;
         Raise (OperationalError "server closed the connection unexpectedly");
         Raise (OtherError "InterfaceError: connection already closed")].

Definition dropped_end : proc output mem :=
  (main 0 1%float sample_rows dropped_start).2.



(** *** The records of a replay *)

(** [recs] are the records of the rows of [df] at the indices [picks], in
    that order, each with its own reading of the clock. *)
Definition records_of (df : list series) (picks : list nat)
    (recs : list (gmap string pyval)) : Prop :=
  Forall2 (fun idx rec => exists row now,
             df !! idx = Some row /\ rec = build_reading now row)
          picks recs.

(** The connection is refused. *)
Definition refused_start : proc output mem :=
  start [Raise (OperationalError "could not connect to server")].

(** [cur.close()] raises after the commit of the first row. *)
Definition late_start : proc output mem :=
  start [Pass; Pass; Pass; Raise (OtherError "cursor already closed")].

Definition late_end : proc output mem := (insert_row sample_row late_start).2.

(** *** [DB_CONFIG] *)

(** What the module reads of [urlparse(_db_url)]: the path, the
    attributes [hostname], [username] and [password] as they evaluate
    ([None] when the URL has none), and of the port the text that follows
    the colon of the host, empty when there is none. *)
Record parsed_url := ParsedUrl {
  path : string;
  hostname : option string;
  username : option string;
  password : option string;
  port_text : string
}.

(** [x or default] for a string that may be [None]: the empty string is
    as false as [None]. *)
Definition str_or (x : option string) (default : string) : string :=
  match x with
  | Some s => if decide (s = "") then default else s
  | None => default
  end.

(** [x or default] for an integer that may be [None]: 0 is as false as
    [None]. *)
Definition int_or (x : option Z) (default : Z) : Z :=
  match x with
  | Some n => if decide (n = 0) then default else n
  | None => default
  end.

(** [s.lstrip(chars)]. *)
Fixpoint lstrip (chars : string) (s : string) : string :=
  match s with
  | String a s' =>
      if bool_decide (a ∈ String.list_ascii_of_string chars)
      then lstrip chars s' else s
  | EmptyString => EmptyString
  end.

(** [s.isdigit() and s.isascii()]: a string, not empty, of the characters
    [0] to [9]. *)
Definition is_ascii_digit (a : Ascii.ascii) : bool :=
  let n := Ascii.nat_of_ascii a in (48 <=? n)%nat && (n <=? 57)%nat.

Definition isdigit_ascii (s : string) : bool :=
  negb (String.eqb s "") &&
  forallb is_ascii_digit (String.list_ascii_of_string s).

(** The value of a string of decimal digits. *)
Definition value_of_digits (s : string) : Z :=
  fold_left (fun n a => 10 * n + (Z.of_nat (Ascii.nat_of_ascii a) - 48))
            (String.list_ascii_of_string s) 0.

(** The property [port] of the parsed URL: [None] when the URL names no
    port; otherwise the text must be ASCII digits, [int] must take it (it
    refuses more than 4300 digits) and the number must lie in
    [0, 65535], or the property raises [ValueError]. *)
Definition port (_parsed : parsed_url) : error + option Z :=
  let text := port_text _parsed in
  if String.eqb text "" then inr None
  else if negb (isdigit_ascii text) then
    inl (OtherError "ValueError: Port could not be cast to integer value")
  else if (4300 <? String.length text)%nat then
    inl (OtherError
           "ValueError: Exceeds the limit (4300 digits) for integer string conversion")
  else if value_of_digits text <=? 65535 then
    inr (Some (value_of_digits text))
  else inl (OtherError "ValueError: Port out of range 0-65535").

(** The dict [DB_CONFIG], with ["sslmode"] added for a host other than
    localhost.  The statements run when the module is loaded: an
    exception of [_parsed.port] ends the program before [main]. *)
Definition DB_CONFIG (_parsed : parsed_url) : error + gmap string pyval :=
  match port _parsed with
  | inl e => inl e
  | inr port =>
      let config : gmap string pyval :=
        <["dbname" := PStr (str_or (Some (lstrip "/" (path _parsed)))
                                   "timeseries")]>
        (<["host" := PStr (str_or (hostname _parsed) "localhost")]>
        (<["user" := PStr (str_or (username _parsed) "postgres")]>
        (<["password" := PStr (str_or (password _parsed) "postgres")]>
        (<["port" := PInt (int_or port 5432)]> ∅)))) in
      match hostname _parsed with
      | Some h =>
          if decide (h = "") then inr config
          else if decide (h = "localhost") then inr config
          else inr (<["sslmode" := PStr "require"]> config)
      | None => inr config
      end
  end.

(** A URL with a port out of range. *)
Definition bad_port_url : parsed_url :=
  ParsedUrl "/timeseries" (Some "db.example.org") (Some "postgres")
            (Some "postgres") "99999".

End Realtime.

(** ** [bridge_ml_engine.py]: the scoring engine *)

Module MLEngine.

Definition FEATURE_COLUMNS : list string :=
  ["strain_microstrain"; "deflection_mm"; "vibration_ms2"; "tilt_deg";
   "displacement_mm"; "cable_member_tension_kn"]%string.

Definition SCORING_INTERVAL : float := 2%float.
Definition BATCH_SIZE : nat := 100.

(** A row of [bridge_dataset] as the engine reads and writes it: the
    DOUBLE PRECISION columns by name (a NULL is a missing key) and the two
    output columns. *)
Record db_row := DbRow {
  sensors : gmap string float;
  is_anomaly : option bool;
  anomaly_score : option float
}.

(** Parameters of one [UPDATE]: [(is_anomaly, anomaly_score, id)]. *)
Definition update : Type := bool * float * Z.

(** A connection: whether it was closed, and the writes of its open
    transaction. *)
Record connection := Connection {
  closed : bool;
  staged : list update
}.

(** The table (keyed by the primary key [id]) and the variables of [main]. *)
Record mem := Mem {
  db : gmap Z db_row;
  conn : connection;
  cycle : Z;
  total_scored : Z;
  total_anomalies : Z
}.

(** The lines of the engine's terminal, without their time stamps. *)
Inductive output :=
| CycleLine (cycle scored total_anomalies total_scored : Z)
| Waiting (total_scored : Z)
| ScoringError (e : error)
| Reconnected
| ReconnectFailed
| Stopped (total_scored total_anomalies : Z).

Definition E := M output mem.

(** The fitted scikit-learn objects.  Each transforms or scores a matrix
    sample by sample, so each is given by what it does to one sample. *)
Record SimpleImputer := { impute : list float -> list float }.
Record StandardScaler := { standardize : list float -> list float }.
Record IsolationForest := {
  predict_sample : list float -> Z;          (* 1 = normal, -1 = anomaly *)
  decision_sample : list float -> float      (* lower = more anomalous *)
}.

Definition imputer_transform (imputer : SimpleImputer)
    (X : list (list float)) : list (list float) := map (impute imputer) X.

Definition scaler_transform (scaler : StandardScaler)
    (X : list (list float)) : list (list float) := map (standardize scaler) X.

Definition predict (model : IsolationForest) (X : list (list float))
  : list Z := map (predict_sample model) X.

Definition decision_function (model : IsolationForest)
    (X : list (list float)) : list float := map (decision_sample model) X.

(** *** The store, as SQL sees it *)

(** [UPDATE bridge_dataset SET is_anomaly = %s, anomaly_score = %s
    WHERE id = %s]. *)
Definition sql_update (t : gmap Z db_row) (u : update) : gmap Z db_row :=
  let '(label, score, row_id) := u in
  alter (fun r => DbRow (sensors r) (Some label) (Some score)) row_id t.

(** What the statements of a connection see: the committed table with the
    connection's own writes applied. *)
Definition view (t : gmap Z db_row) (c : connection) : gmap Z db_row :=
  foldl sql_update t (staged c).

Definition id_le (a b : Z * db_row) : Prop := a.1 <= b.1.

#[global] Instance id_le_dec : RelDecision id_le.
Proof. intros a b. unfold id_le. apply _. Defined.

(** [SELECT id, <FEATURE_COLUMNS> FROM bridge_dataset
    WHERE is_anomaly IS NULL ORDER BY id LIMIT BATCH_SIZE]. *)
Definition select_pending (t : gmap Z db_row)
  : list (Z * list (option float)) :=
  take BATCH_SIZE
    ((fun kr : Z * db_row =>
        (kr.1, (fun c => sensors kr.2 !! c) <$> FEATURE_COLUMNS))
     <$> merge_sort id_le
           (filter (fun kr : Z * db_row => is_anomaly kr.2 = None)
              (map_to_list t))).

(** [SELECT COUNT( * ) FROM bridge_dataset WHERE is_anomaly = TRUE]. *)
Definition count_anomalies (t : gmap Z db_row) : Z :=
  Z.of_nat (length (filter
    (fun kr : Z * db_row => is_anomaly kr.2 = Some true)
    (map_to_list t))).

(** *** [score_batch] *)

(** An entry of [np.array(..., dtype=np.float64)]: [None] becomes NaN. *)
Definition np_float64 (v : option float) : float := default PrimFloat.nan v.

(** The list comprehension over [zip(predictions, scores, ids)]. *)
Definition make_updates (predictions : list Z) (scores : list float)
    (ids : list Z) : list update :=
  (fun psi : Z * float * Z =>
     let '(pred, score, row_id) := psi in (pred =? -1, score, row_id))
  <$> zip (zip predictions scores) ids.

(** What [score_batch] computes from the fetched rows, between the fetch
    and the [UPDATE]s. *)
Definition batch_updates (model : IsolationForest) (scaler : StandardScaler)
    (imputer : SimpleImputer) (rows : list (Z * list (option float)))
  : list update :=
  let ids := fst <$> rows in
  let X_raw := (fun row : Z * list (option float) =>
                  np_float64 <$> row.2) <$> rows in
  let X_imputed := imputer_transform imputer X_raw in
  let X_scaled := scaler_transform scaler X_imputed in
  let predictions := predict model X_scaled in
  let scores := decision_function model X_scaled in
  make_updates predictions scores ids.

(** The specification's [scoreBatch], one raw feature row at a time:
    imputation, then standardization, then the estimator; the label is
    true when the prediction is the outlier value, the score is the raw
    decision value. *)
Definition score_sample (model : IsolationForest) (scaler : StandardScaler)
    (imputer : SimpleImputer) (raw : list float) : bool * float :=
  let x := standardize scaler (impute imputer raw) in
  (predict_sample model x =? -1, decision_sample model x).

Definition set_conn (c : connection) (v : mem) : mem :=
  Mem (db v) c (cycle v) (total_scored v) (total_anomalies v).

(** [conn.cursor()]: refused on a closed connection. *)
Definition cursor : E unit :=
  v <- get_vars;
  if closed (conn v)
  then throw (Error (OtherError "InterfaceError: connection already closed"))
  else slot "conn.cursor".

Definition executemany (updates : list update) : E unit :=
  foldr (fun u rest =>
           slot "cur.execute UPDATE";;
           modify (fun v =>
             set_conn (Connection (closed (conn v)) (staged (conn v) ++ [u])) v);;
           rest)
        (ret tt) updates.

Definition commit : E unit :=
  slot "conn.commit";;
  modify (fun v => Mem (view (db v) (conn v))
                       (Connection (closed (conn v)) [])
                       (cycle v) (total_scored v) (total_anomalies v)).

Definition score_batch (model : IsolationForest) (scaler : StandardScaler)
    (imputer : SimpleImputer) : E Z :=
  cursor;;
  (* Fetch unscored rows *)
  slot "cur.execute SELECT pending";;
  slot "cur.fetchall";;
  v <- get_vars;
  let rows := select_pending (view (db v) (conn v)) in
  match rows with
  | [] => slot "cur.close";; ret 0
  | _ =>
      (* Parse into arrays *)
      let ids := fst <$> rows in
      slot "np.array";;
      let X_raw := (fun row : Z * list (option float) =>
                      np_float64 <$> row.2) <$> rows in
      slot "imputer.transform";;
      let X_imputed := imputer_transform imputer X_raw in
      slot "scaler.transform";;
      let X_scaled := scaler_transform scaler X_imputed in
      slot "model.predict";;
      let predictions := predict model X_scaled in
      slot "model.decision_function";;
      let scores := decision_function model X_scaled in
      (* Update database *)
      let updates := make_updates predictions scores ids in
      executemany updates;;
      commit;;
      slot "cur.close";;
      ret (Z.of_nat (length updates))
  end.

(** *** [main]: the scoring loop *)

(** [conn.close()]: the open transaction is lost with the connection.  When
    the call raises the connection is left as it was. *)
Definition close : E unit :=
  slot "conn.close";;
  modify (set_conn (Connection true [])).

Definition get_connection : E unit :=
  slot "psycopg2.connect";;
  modify (set_conn (Connection false [])).

(** The body of the [try] of one cycle. *)
Definition cycle_try (model : IsolationForest) (scaler : StandardScaler)
    (imputer : SimpleImputer) : E unit :=
  scored <- score_batch model scaler imputer;
  if 0 <? scored then
    cursor;;
    slot "cur.execute SELECT COUNT";;
    slot "cur.fetchone";;
    modify (fun v => Mem (db v) (conn v) (cycle v) (total_scored v)
                         (count_anomalies (view (db v) (conn v))));;
    slot "cur.close";;
    modify (fun v => Mem (db v) (conn v) (cycle v) (total_scored v + scored)
                         (total_anomalies v));;
    now <- datetime_now;
    v <- get_vars;
    print (CycleLine (cycle v) scored (total_anomalies v) (total_scored v))
  else
    v <- get_vars;
    if cycle v mod 10 =? 0
    then now <- datetime_now; print (Waiting (total_scored v))
    else ret tt.

(** The [except Exception as e] of one cycle. *)
Definition cycle_except (e : error) : E unit :=
  print (ScoringError e);;
  try_except close (fun _ => ret tt);;
  try_except (get_connection;; print Reconnected)
             (fun _ => print ReconnectFailed).

(** [cycle += 1]. *)
Definition incr_cycle (v : mem) : mem :=
  Mem (db v) (conn v) (cycle v + 1) (total_scored v) (total_anomalies v).

(** One turn of [while _running], after the test. *)
Definition cycle_body (model : IsolationForest) (scaler : StandardScaler)
    (imputer : SimpleImputer) : E unit :=
  modify incr_cycle;;
  try_except (cycle_try model scaler imputer) cycle_except;;
  sleep SCORING_INTERVAL.

(** [while _running: ...] for at most [fuel] turns; the result tells
    whether the loop was left because [_running] was found false. *)
Fixpoint scoring_loop (model : IsolationForest) (scaler : StandardScaler)
    (imputer : SimpleImputer) (fuel : nat) : E bool :=
  match fuel with
  | O => ret false
  | S fuel' =>
      r <- get_running;
      if r then
        cycle_body model scaler imputer;;
        scoring_loop model scaler imputer fuel'
      else ret true
  end.

(** [main], from the scoring loop on: the connection is open and the model
    is fitted.  After the loop the connection is closed and the totals are
    printed. *)
Definition main (model : IsolationForest) (scaler : StandardScaler)
    (imputer : SimpleImputer) (fuel : nat) : E bool :=
  modify (fun v => Mem (db v) (conn v) 0 0 0);;
  stopped <- scoring_loop model scaler imputer fuel;
  if stopped then
    close;;
    v <- get_vars;
    print (Stopped (total_scored v) (total_anomalies v));;
    ret true
  else ret false.

(** *** Reading the store *)

(** The row an update is aimed at, if there is one, has no outcome yet. *)
Definition targets_pending (t : gmap Z db_row) (u : update) : Prop :=
  forall r, t !! u.2 = Some r -> is_anomaly r = None.

(** Every write of the open transaction is aimed at a pending row. *)
Definition staged_pending (v : mem) : Prop :=
  Forall (targets_pending (db v)) (staged (conn v)).

(** The writes in flight are aimed at pending rows, and the rows that had
    an outcome in [t0] are as they were. *)
Definition frozen (t0 : gmap Z db_row) (v : mem) : Prop :=
  staged_pending v /\
  forall k r, t0 !! k = Some r -> is_anomaly r <> None -> db v !! k = Some r.

(** The table is [t] and the connection is open with nothing in flight. *)
Definition ready (t : gmap Z db_row) (v : mem) : Prop :=
  db v = t /\ conn v = Connection false [].

(** The table once the batch fetched from [t] is scored. *)
Definition scored (model : IsolationForest) (scaler : StandardScaler)
    (imputer : SimpleImputer) (t : gmap Z db_row) : gmap Z db_row :=
  foldl sql_update t (batch_updates model scaler imputer (select_pending t)).

(** The pending rows in the order of their ids. *)
Definition pending_sorted (t : gmap Z db_row) : list (Z * db_row) :=
  merge_sort id_le
    (filter (fun kr : Z * db_row => is_anomaly kr.2 = None) (map_to_list t)).

(** *** Sample runs *)

Definition sample_imputer : SimpleImputer :=
  {| impute := map (fun x => if PrimFloat.is_nan x then 0%float else x) |}.

Definition sample_scaler : StandardScaler :=
  {| standardize := map (fun x => PrimFloat.div x 2) |}.

Definition sample_model : IsolationForest :=
  {| predict_sample := fun x =>
       if PrimFloat.ltb (hd 0%float x) 2 then 1 else -1;
     decision_sample := fun x => PrimFloat.sub 2 (hd 0%float x) |}.

Definition sample_reading (strain : float) : db_row :=
  DbRow {[ "strain_microstrain"%string := strain ]} None None.

Definition sample_db : gmap Z db_row :=
  {[ 3 := sample_reading 1; 1 := sample_reading 9;
     2 := DbRow ∅ (Some true) (Some 0.5%float); 7 := sample_reading 2 ]}.

(** An engine with an open connection facing the script [scr]. *)
Definition start (scr : list env_event) : proc output mem :=
  Proc true scr (fun k => 1700000000 + Z.of_nat k) 0%nat []
       (Mem sample_db (Connection false []) 0 0 0).

(** A read, a failed write, a failed close and a failed reconnection. *)
Definition outage : list env_event :=
  [Pass; Pass; Pass; Pass; Pass; Pass; Pass; Pass; Pass;
   Raise (OperationalError "server closed the connection unexpectedly");
   Raise (OtherError "InterfaceError: connection already closed");
   Raise (OperationalError "could not connect to server")].

(** Where the [try] block of the first cycle of the outage raises. *)
Definition outage_raised : proc output mem :=
  ((modify incr_cycle;;
    cycle_try sample_model sample_scaler sample_imputer)
     (deliver (start outage))).2.

(** The engine runs three turns through the outage. *)
Definition outage_end : proc output mem :=
  (main sample_model sample_scaler sample_imputer 3 (start outage)).2.

(** A signal arrives while the batch is being fetched. *)
Definition mid_cycle : proc output mem := start [Pass; Pass; Sig; Pass].

Definition mid_cycle_end : proc output mem :=
  (cycle_body sample_model sample_scaler sample_imputer mid_cycle).2.

(** A signal arrives while the batch is being fetched, and the commit of
    that batch fails; the engine runs until it stops. *)
Definition abandoned_start : proc output mem :=
  start [Pass; Pass; Sig; Pass; Pass; Pass; Pass; Pass; Pass; Pass; Pass;
         Pass;
         Raise (OperationalError "server closed the connection unexpectedly")].

Definition abandoned_end : proc output mem :=
  (main sample_model sample_scaler sample_imputer 5 abandoned_start).2.

(** *** Reading the store, row by row *)

(** The feature vector [score_batch] builds for a row of the table. *)
Definition features (r : db_row) : list float :=
  np_float64 <$> ((fun c => sensors r !! c) <$> FEATURE_COLUMNS).

(** A row with the outcome the fitted objects give to its own features. *)
Definition score_row (model : IsolationForest) (scaler : StandardScaler)
    (imputer : SimpleImputer) (r : db_row) : db_row :=
  DbRow (sensors r)
        (Some (score_sample model scaler imputer (features r)).1)
        (Some (score_sample model scaler imputer (features r)).2).

(** [t'] is [t] with some of its pending rows scored: it has the ids of
    [t], and under each id the row of [t] or, if that one was pending, the
    same row with its own outcome. *)
Definition scores_of (model : IsolationForest) (scaler : StandardScaler)
    (imputer : SimpleImputer) (t t' : gmap Z db_row) : Prop :=
  forall k, t' !! k = t !! k \/
    exists r, t !! k = Some r /\ is_anomaly r = None /\
              t' !! k = Some (score_row model scaler imputer r).

(** An update aimed at a row of [t] is aimed at a pending row and carries
    the outcome of that row. *)
Definition carries_outcome (model : IsolationForest) (scaler : StandardScaler)
    (imputer : SimpleImputer) (t : gmap Z db_row) (u : update) : Prop :=
  forall r, t !! u.2 = Some r ->
    is_anomaly r = None /\
    u.1 = score_sample model scaler imputer (features r).

(** The table is in order, and so are the writes in flight. *)
Definition sound (model : IsolationForest) (scaler : StandardScaler)
    (imputer : SimpleImputer) (t0 : gmap Z db_row) (v : mem) : Prop :=
  scores_of model scaler imputer t0 (db v) /\
  Forall (carries_outcome model scaler imputer (db v)) (staged (conn v)).

(** The number of pending rows. *)
Definition backlog (t : gmap Z db_row) : nat := length (pending_sorted t).

(** *** Reading the terminal *)

(** The [Scored] column of the cycle lines, summed. *)
Definition scored_sum (l : list output) : Z :=
  foldr (fun o acc => match o with
                      | CycleLine _ scored _ _ => scored + acc
                      | _ => acc
                      end) 0 l.

(** A line of the scoring loop: a cycle line reports between 1 and
    [BATCH_SIZE] rows, and the summary is not among them. *)
Definition loop_line (o : output) : Prop :=
  match o with
  | CycleLine _ scored _ _ => 0 < scored <= Z.of_nat BATCH_SIZE
  | Stopped _ _ => False
  | _ => True
  end.

(** A step that prints nothing and leaves the counters alone. *)
Definition silent (w w' : proc output mem) : Prop :=
  printed w' = printed w /\ cycle (vars w') = cycle (vars w) /\
  total_scored (vars w') = total_scored (vars w) /\
  total_anomalies (vars w') = total_anomalies (vars w).

(** A step without a pause that leaves the cycle number alone. *)
Definition unpaused (w w' : proc output mem) : Prop :=
  pauses w' = pauses w /\ cycle (vars w') = cycle (vars w).

(** An engine with an open connection and no pending row, about to begin
    its tenth cycle. *)
Definition idle_db : gmap Z db_row :=
  {[ 2 := DbRow ∅ (Some true) (Some 0.5%float) ]}.

Definition idle_start : proc output mem :=
  Proc true [] (fun k => 1700000000 + Z.of_nat k) 0%nat []
       (Mem idle_db (Connection false []) 9 0 0).

(** The sample engine when no call raises and no signal arrives. *)
Definition quiet_start : proc output mem := start [].

(** The sample engine with its connection closed. *)
Definition closed_start : proc output mem :=
  Proc true [] (fun k => 1700000000 + Z.of_nat k) 0%nat []
       (Mem sample_db (Connection true []) 0 0 0).

(** The first cycle of the outage, and three turns of the loop through
    it. *)
Definition outage_cycle_end : proc output mem :=
  (cycle_body sample_model sample_scaler sample_imputer (start outage)).2.

Definition outage_loop_end : proc output mem :=
  (scoring_loop sample_model sample_scaler sample_imputer 3 (start outage)).2.

(** The engine is stopped by the signal that arrives in its first cycle. *)
Definition stopped_end : proc output mem :=
  (main sample_model sample_scaler sample_imputer 5 mid_cycle).2.

End MLEngine.

(** * Proofs *)

(** ** Runs of commands *)

Section MonadFacts.
Context {O V : Type}.
Implicit Types w : proc O V.

Local Abbreviation preserves := (preserves (O := O) (V := V)).
Local Abbreviation raises_errors := (raises_errors (O := O) (V := V)).
Local Abbreviation never_raises := (never_raises (O := O) (V := V)).
Local Abbreviation hoare := (hoare (O := O) (V := V)).
Local Abbreviation total := (total (O := O) (V := V)).
Local Abbreviation returns := (returns (O := O) (V := V)).

(** A run whose result is known is that result with the state it ends in. *)
Lemma run_eta {A} (x : result A * proc O V) (r : result A) :
  x.1 = r -> x = (r, x.2).
Proof. destruct x. simpl. by intros ->. Qed.

Lemma bind_inv {A B} (m : M O V A) (k : A -> M O V B) w r w' :
  bind m k w = (r, w') ->
  (exists a w1, m w = (Ret a, w1) /\ k a w1 = (r, w')) \/
  (exists e, m w = (Throw e, w') /\ r = Throw e).
Proof.
  unfold bind. destruct (m w) as [[a|e] w1]; intros H.
  - left. eauto.
  - right. injection H as <- <-. eauto.
Qed.

Lemma try_except_inv {A} (b : M O V A) (h : error -> M O V A) w r w' :
  try_except b h w = (r, w') ->
  (b w = (r, w') /\ forall e, r <> Throw (Error e)) \/
  (exists e w1, b w = (Throw (Error e), w1) /\ h e w1 = (r, w')).
Proof.
  unfold try_except. destruct (b w) as [[a|[e|c]] w1]; intros H.
  - left. injection H as <- <-. split; [done|]. intros e; discriminate.
  - right. eauto.
  - left. injection H as <- <-. split; [done|]. intros e; discriminate.
Qed.

Lemma signals_spec scr :
  scr = replicate (signals scr).1 Sig ++ (signals scr).2 /\
  (forall r, (signals scr).2 <> Sig :: r).
Proof.
  induction scr as [|ev scr [IH1 IH2]]; simpl; [by split|].
  destruct ev; simpl; try (split; [done|discriminate]).
  destruct (signals scr) as [n r]; simpl in *. split; [by f_equal|done].
Qed.

Lemma vars_deliver w : vars (deliver w) = vars w.
Proof. unfold deliver. by destruct (signals (script w)) as [[|n] r]. Qed.

Lemma wall_deliver w : wall (deliver w) = wall w.
Proof. unfold deliver. by destruct (signals (script w)) as [[|n] r]. Qed.

Lemma ticks_deliver w : ticks (deliver w) = ticks w.
Proof. unfold deliver. by destruct (signals (script w)) as [[|n] r]. Qed.

Lemma omap_replicate_signal n :
  omap (fun l : line O => match l with Line o => Some o | _ => None end)
       (replicate n SignalLine) = [].
Proof. induction n; simpl; auto. Qed.

Lemma printed_deliver w : printed (deliver w) = printed w.
Proof.
  unfold deliver, printed. destruct (signals (script w)) as [[|n] r]; [done|].
  cbn [out]. rewrite omap_app, omap_replicate_signal. apply app_nil_r.
Qed.

Lemma filter_replicate_signal n :
  List.filter (fun l : line O => negb (is_signal_line l))
    (replicate n SignalLine) = [].
Proof. induction n; simpl; auto. Qed.

Lemma effects_deliver w : effects (deliver w) = effects w.
Proof.
  unfold deliver, effects. destruct (signals (script w)) as [[|n] r]; [done|].
  cbn [out]. rewrite List.filter_app, filter_replicate_signal. apply app_nil_r.
Qed.

Lemma running_deliver w : running (deliver w) = true -> running w = true.
Proof. unfold deliver. by destruct (signals (script w)) as [[|n] r]. Qed.

Lemma script_deliver w : script (deliver w) = (signals (script w)).2.
Proof.
  unfold deliver. destruct (signals (script w)) as [[|n] r] eqn:E; simpl; [|done].
  pose proof (signals_spec (script w)) as [H _]. rewrite E in H. simpl in H. done.
Qed.

(** What a call leaves behind, whether it raised or not. *)
Lemma slot_inv c w r w' :
  slot c w = (r, w') ->
  vars w' = vars w /\ wall w' = wall w /\ ticks w' = ticks w /\
  out w' = out (deliver w) ++ [Called c] /\
  running w' = running (deliver w) /\
  ((r = Ret tt /\ (script w' = script (deliver w) \/
                   Pass :: script w' = script (deliver w))) \/
   (exists e, r = Throw (Error e) /\ Raise e :: script w' = script (deliver w))).
Proof.
  unfold slot. cbn [script running wall ticks out vars].
  destruct (script (deliver w)) as [|[| |e] scr] eqn:E; intros H;
    injection H as <- <-; cbn [script running wall ticks out vars];
    rewrite ?vars_deliver, ?wall_deliver, ?ticks_deliver, ?E;
    repeat split; eauto.
Qed.

Lemma printed_slot c w r w' : slot c w = (r, w') -> printed w' = printed w.
Proof.
  intros H. apply slot_inv in H as (_ & _ & _ & Hout & _).
  unfold printed at 1. rewrite Hout, omap_app. simpl.
  rewrite app_nil_r. apply printed_deliver.
Qed.

Lemma effects_slot c w r w' :
  slot c w = (r, w') -> effects w' = effects w ++ [Called c].
Proof.
  intros H. apply slot_inv in H as (_ & _ & _ & Hout & _).
  unfold effects at 1. rewrite Hout, List.filter_app. simpl.
  f_equal. apply effects_deliver.
Qed.

Lemma running_slot c w r w' :
  slot c w = (r, w') -> running w' = true -> running w = true.
Proof.
  intros H. apply slot_inv in H as (_ & _ & _ & _ & Hr & _).
  rewrite Hr. apply running_deliver.
Qed.

Lemma result_slot c w r w' :
  slot c w = (r, w') -> r = Ret tt \/ exists e, r = Throw (Error e).
Proof.
  intros H. apply slot_inv in H as (_ & _ & _ & _ & _ & Hres).
  destruct Hres as [[-> _]|(e & -> & _)]; eauto.
Qed.

(** *** Relations kept by every step of a command *)

Section Preserves.
Context (R : relation (proc O V)) `{!PreOrder R}.

Lemma preserves_ret {A} (a : A) : preserves R (ret a).
Proof. intros w r w' [= <- <-]. reflexivity. Qed.

Lemma preserves_throw {A} e : preserves R (throw (A := A) e).
Proof. intros w r w' [= <- <-]. reflexivity. Qed.

Lemma preserves_bind {A B} (m : M O V A) (k : A -> M O V B) :
  preserves R m -> (forall a, preserves R (k a)) -> preserves R (bind m k).
Proof.
  intros Hm Hk w r w' H.
  apply bind_inv in H as [(a & w1 & H1 & H2)|(e & H1 & _)].
  - etransitivity; [by eapply Hm | by eapply Hk].
  - by eapply Hm.
Qed.

Lemma preserves_try_except {A} (b : M O V A) h :
  preserves R b -> (forall e, preserves R (h e)) ->
  preserves R (try_except b h).
Proof.
  intros Hb Hh w r w' H.
  apply try_except_inv in H as [[H _]|(e & w1 & H1 & H2)].
  - by eapply Hb.
  - etransitivity; [by eapply Hb | by eapply Hh].
Qed.

Lemma preserves_if {A} (c : bool) (m1 m2 : M O V A) :
  preserves R m1 -> preserves R m2 -> preserves R (if c then m1 else m2).
Proof. by destruct c. Qed.

End Preserves.

Lemma raises_errors_ret {A} (a : A) : raises_errors (ret a).
Proof. intros w c w'. discriminate. Qed.

Lemma raises_errors_slot c : raises_errors (slot c).
Proof.
  intros w c' w' H. apply result_slot in H as [H|[e H]]; discriminate.
Qed.

Lemma raises_errors_bind {A B} (m : M O V A) (k : A -> M O V B) :
  raises_errors m -> (forall a, raises_errors (k a)) ->
  raises_errors (bind m k).
Proof.
  intros Hm Hk w c w' H.
  apply bind_inv in H as [(a & w1 & H1 & H2)|(e & H1 & [= <-])].
  - by eapply Hk.
  - by eapply Hm.
Qed.

Lemma raises_errors_try_except {A} (b : M O V A) h :
  raises_errors b -> (forall e, raises_errors (h e)) ->
  raises_errors (try_except b h).
Proof.
  intros Hb Hh w c w' H.
  apply try_except_inv in H as [[H _]|(e & w1 & H1 & H2)].
  - by eapply Hb.
  - by eapply Hh.
Qed.

(** *** Assertions on the variables, under any script *)

Lemma hoare_ret {A} (P : V -> Prop) (a : A) Q X :
  (forall v, P v -> Q a v) -> hoare P (ret a) Q X.
Proof. intros HPQ w r w' HP [= <- <-]. auto. Qed.

Lemma hoare_throw {A} (P : V -> Prop) e (Q : A -> V -> Prop) X :
  (forall v, P v -> X v) -> hoare P (throw e) Q X.
Proof. intros HPX w r w' HP [= <- <-]. auto. Qed.

Lemma hoare_bind {A B} (P : V -> Prop) (m : M O V A) Q1 (k : A -> M O V B)
    Q X :
  hoare P m Q1 X -> (forall a, hoare (Q1 a) (k a) Q X) ->
  hoare P (bind m k) Q X.
Proof.
  intros Hm Hk w r w' HP H.
  apply bind_inv in H as [(a & w1 & H1 & H2)|(e & H1 & ->)].
  - eapply Hk; [|exact H2]. apply (Hm _ _ _ HP H1).
  - apply (Hm _ _ _ HP H1).
Qed.

Lemma hoare_conseq {A} (P P' : V -> Prop) (m : M O V A) (Q Q' : A -> V -> Prop)
    (X X' : V -> Prop) :
  hoare P' m Q' X' -> (forall v, P v -> P' v) ->
  (forall a v, Q' a v -> Q a v) -> (forall v, X' v -> X v) ->
  hoare P m Q X.
Proof.
  intros Hm HP HQ HX w r w' Hp H. specialize (Hm w r w' (HP _ Hp) H).
  destruct r; auto.
Qed.

Lemma hoare_slot (P : V -> Prop) c : hoare P (slot c) (fun _ => P) P.
Proof.
  intros w r w' HP H. apply slot_inv in H as (Hv & _). rewrite Hv.
  by destruct r.
Qed.

Lemma hoare_slot_weak (P X : V -> Prop) c :
  (forall v, P v -> X v) -> hoare P (slot c) (fun _ => P) X.
Proof.
  intros HPX w r w' HP H. apply slot_inv in H as (Hv & _). rewrite Hv.
  destruct r; auto.
Qed.

Lemma hoare_modify (P : V -> Prop) f (Q : unit -> V -> Prop) X :
  (forall v, P v -> Q tt (f v)) -> hoare P (modify f) Q X.
Proof. intros HPQ w r w' HP [= <- <-]. simpl. auto. Qed.

Lemma hoare_modify_inv (P : V -> Prop) f X :
  (forall v, P v -> P (f v)) -> hoare P (modify f) (fun _ => P) X.
Proof. intros HP. by apply hoare_modify. Qed.

Lemma hoare_get_vars_inv (P : V -> Prop) X :
  hoare P get_vars (fun _ => P) X.
Proof. by intros w r w' HP [= <- <-]. Qed.

Lemma hoare_ret_inv {A} (P : V -> Prop) (a : A) X :
  hoare P (ret a) (fun _ => P) X.
Proof. by apply hoare_ret. Qed.

Lemma hoare_get_vars (P : V -> Prop) X :
  hoare P get_vars (fun a v => a = v /\ P v) X.
Proof. intros w r w' HP [= <- <-]. auto. Qed.

Lemma hoare_print (P : V -> Prop) o X : hoare P (print o) (fun _ => P) X.
Proof. by intros w r w' HP [= <- <-]. Qed.

Lemma hoare_sleep (P : V -> Prop) s X : hoare P (sleep s) (fun _ => P) X.
Proof. by intros w r w' HP [= <- <-]. Qed.

Lemma hoare_datetime_now (P : V -> Prop) X :
  hoare P datetime_now (fun _ => P) X.
Proof. by intros w r w' HP [= <- <-]. Qed.

Lemma hoare_get_running (P : V -> Prop) X :
  hoare P get_running (fun _ => P) X.
Proof. intros w r w' HP [= <- <-]. by rewrite vars_deliver. Qed.

Lemma hoare_try_except {A} (P : V -> Prop) (b : M O V A) h Q (H X : V -> Prop) :
  hoare P b Q H -> (forall e, hoare H (h e) Q X) -> (forall v, H v -> X v) ->
  hoare P (try_except b h) Q X.
Proof.
  intros Hb Hh HX w r w' HP Hrun.
  apply try_except_inv in Hrun as [[Hrun _]|(e & w1 & H1 & H2)].
  - specialize (Hb _ _ _ HP Hrun). destruct r; auto.
  - eapply Hh; [|exact H2]. apply (Hb _ _ _ HP H1).
Qed.

Lemma hoare_intro_pre {A} (P : V -> Prop) (m : M O V A) Q X :
  (forall v, P v -> hoare (fun v' => v' = v) m Q X) -> hoare P m Q X.
Proof. intros H w r w' HP. by apply (H (vars w) HP). Qed.

Lemma never_raises_ret {A} (a : A) : never_raises (ret a).
Proof. intros w e w'. discriminate. Qed.

Lemma never_raises_print o : never_raises (print o).
Proof. intros w e w'. discriminate. Qed.

Lemma never_raises_sleep s : never_raises (sleep s).
Proof. intros w e w'. discriminate. Qed.

Lemma never_raises_modify f : never_raises (modify f).
Proof. intros w e w'. discriminate. Qed.

Lemma never_raises_get_running : never_raises get_running.
Proof. intros w e w'. discriminate. Qed.

Lemma never_raises_bind {A B} (m : M O V A) (k : A -> M O V B) :
  never_raises m -> (forall a, never_raises (k a)) -> never_raises (bind m k).
Proof.
  intros Hm Hk w e w' H.
  apply bind_inv in H as [(a & w1 & H1 & H2)|(e' & H1 & _)].
  - by eapply Hk.
  - by eapply Hm.
Qed.

Lemma never_raises_try_except {A} (b : M O V A) h :
  raises_errors b -> (forall e, never_raises (h e)) ->
  never_raises (try_except b h).
Proof.
  intros Hb Hh w e w' H.
  apply try_except_inv in H as [[H Hne]|(e' & w1 & H1 & H2)].
  - destruct e as [e|c]; [by apply (Hne e)|by eapply Hb].
  - by eapply Hh.
Qed.

Lemma raises_errors_throw {A} e : raises_errors (throw (A := A) (Error e)).
Proof. intros w c w'. discriminate. Qed.

Lemma raises_errors_modify f : raises_errors (modify f).
Proof. intros w c w'. discriminate. Qed.

Lemma raises_errors_print o : raises_errors (print o).
Proof. intros w c w'. discriminate. Qed.

Lemma raises_errors_datetime_now : raises_errors datetime_now.
Proof. intros w c w'. discriminate. Qed.

Lemma raises_errors_get_vars : raises_errors (get_vars (O := O) (V := V)).
Proof. intros w c w'. discriminate. Qed.

(** *** Runs in which no call raises *)

Lemma calm_signals scr : calm scr = true -> calm (signals scr).2 = true.
Proof.
  induction scr as [|[| |e] scr IH]; simpl; auto.
  destruct (signals scr) as [n r]. simpl in *. auto.
Qed.

Lemma calm_deliver w : calm (script w) = true -> calm (script (deliver w)) = true.
Proof. rewrite script_deliver. apply calm_signals. Qed.

Lemma total_ret {A} (P : V -> Prop) (a : A) (Q : A -> V -> Prop) :
  (forall v, P v -> Q a v) -> total P (ret a) Q.
Proof. intros HPQ w Hc HP. exists a, w. auto. Qed.

Lemma total_bind {A B} (P : V -> Prop) (m : M O V A) (Q1 : A -> V -> Prop)
    (k : A -> M O V B) (Q : B -> V -> Prop) :
  total P m Q1 -> (forall a, total (Q1 a) (k a) Q) -> total P (bind m k) Q.
Proof.
  intros Hm Hk w Hc HP. destruct (Hm w Hc HP) as (a & w1 & Hrun & Hc1 & HQ1).
  destruct (Hk a w1 Hc1 HQ1) as (b & w2 & Hrun2 & Hc2 & HQ).
  exists b, w2. unfold bind. rewrite Hrun. auto.
Qed.

Lemma total_conseq {A} (P P' : V -> Prop) (m : M O V A) (Q Q' : A -> V -> Prop) :
  total P' m Q' -> (forall v, P v -> P' v) -> (forall a v, Q' a v -> Q a v) ->
  total P m Q.
Proof.
  intros Hm HP HQ w Hc Hp. destruct (Hm w Hc (HP _ Hp)) as (a & w' & ? & ? & ?).
  exists a, w'. auto.
Qed.

Lemma total_slot (P : V -> Prop) c : total P (slot c) (fun _ => P).
Proof.
  intros w Hc HP. apply calm_deliver in Hc.
  destruct (slot c w) as [r w'] eqn:H.
  apply slot_inv in H as (Hv & _ & _ & _ & _ & Hres).
  destruct Hres as [[-> Hs]|(e & _ & Hs)].
  - exists tt, w'. rewrite Hv. repeat split; auto.
    destruct Hs as [Hs|Hs]; [by rewrite Hs|]. by rewrite <- Hs in Hc.
  - rewrite <- Hs in Hc. discriminate.
Qed.

Lemma total_modify (P : V -> Prop) f (Q : unit -> V -> Prop) :
  (forall v, P v -> Q tt (f v)) -> total P (modify f) Q.
Proof. intros HPQ w Hc HP. eexists tt, _. repeat split; simpl; auto. Qed.

Lemma total_modify_inv (P : V -> Prop) f :
  (forall v, P v -> P (f v)) -> total P (modify f) (fun _ => P).
Proof. intros HP. by apply total_modify. Qed.

Lemma total_ret_inv {A} (P : V -> Prop) (a : A) : total P (ret a) (fun _ => P).
Proof. by apply total_ret. Qed.

Lemma total_get_vars_inv (P : V -> Prop) : total P get_vars (fun _ => P).
Proof. intros w Hc HP. exists (vars w), w. auto. Qed.

Lemma total_get_vars (P : V -> Prop) :
  total P get_vars (fun a v => a = v /\ P v).
Proof. intros w Hc HP. exists (vars w), w. auto. Qed.

Lemma total_print (P : V -> Prop) o : total P (print o) (fun _ => P).
Proof. intros w Hc HP. eexists tt, _. repeat split; simpl; auto. Qed.

Lemma total_sleep (P : V -> Prop) s : total P (sleep s) (fun _ => P).
Proof. intros w Hc HP. eexists tt, _. repeat split; simpl; auto. Qed.

Lemma total_datetime_now (P : V -> Prop) : total P datetime_now (fun _ => P).
Proof. intros w Hc HP. eexists _, _. repeat split; simpl; auto. Qed.

Lemma total_get_running (P : V -> Prop) : total P get_running (fun _ => P).
Proof.
  intros w Hc HP. eexists _, _. split; [reflexivity|].
  split; [by apply calm_deliver|]. by rewrite vars_deliver.
Qed.

Lemma total_try_except {A} (P : V -> Prop) (b : M O V A) h Q :
  total P b Q -> total P (try_except b h) Q.
Proof.
  intros Hb w Hc HP. destruct (Hb w Hc HP) as (a & w' & Hrun & ? & ?).
  exists a, w'. unfold try_except. rewrite Hrun. auto.
Qed.

Lemma total_intro_pre {A} (P : V -> Prop) (m : M O V A) Q :
  (forall v, P v -> total (fun v' => v' = v) m Q) -> total P m Q.
Proof. intros H w Hc HP. by apply (H (vars w) HP). Qed.

Lemma running_deliver_false w : running w = false -> running (deliver w) = false.
Proof. unfold deliver. by destruct (signals (script w)) as [[|n] r]. Qed.

Lemma returns_bind {A B} (m : M O V A) (k : A -> M O V B) :
  returns m -> (forall a, returns (k a)) -> returns (bind m k).
Proof. intros Hm Hk. eapply total_bind; [apply Hm|apply Hk]. Qed.

Lemma returns_ret {A} (a : A) : returns (ret a).
Proof. by apply total_ret. Qed.

Lemma returns_slot c : returns (slot c).
Proof. apply total_slot. Qed.

Lemma returns_modify f : returns (modify f).
Proof. by apply total_modify. Qed.

Lemma returns_get_vars : returns get_vars.
Proof. intros w Hc _. exists (vars w), w. auto. Qed.

Lemma returns_print o : returns (print o).
Proof. apply total_print. Qed.

Lemma returns_sleep s : returns (sleep s).
Proof. apply total_sleep. Qed.

Lemma returns_datetime_now : returns datetime_now.
Proof. apply total_datetime_now. Qed.

Lemma returns_get_running : returns get_running.
Proof. apply total_get_running. Qed.

Lemma returns_try_except {A} (b : M O V A) h :
  returns b -> returns (try_except b h).
Proof. apply total_try_except. Qed.

End MonadFacts.

(** Commands built from calls, prints and assignments return under a calm
    script. *)
Ltac returns_tac :=
  repeat first
    [ apply returns_bind; [|intros ?]
    | apply returns_try_except
    | apply returns_ret | apply returns_slot | apply returns_modify
    | apply returns_get_vars | apply returns_print | apply returns_sleep
    | apply returns_datetime_now | apply returns_get_running ].

(** Decompose one run of a command. *)
Ltac inv_step H :=
  lazymatch type of H with
  | bind _ _ _ = _ =>
      let a := fresh "a" in let w1 := fresh "w" in let e := fresh "e" in
      let H1 := fresh "Hrun" in let H2 := fresh "Hrun" in
      apply bind_inv in H as [(a & w1 & H1 & H2)|(e & H1 & H2)];
      [|try discriminate H2]
  | ret _ _ = _ => unfold ret in H; first [discriminate H | injection H as <- <- | injection H as <-]
  | sys_exit _ _ = _ =>
      unfold sys_exit, throw in H; first [discriminate H | injection H as <- <- | injection H as <-]
  | throw _ _ = _ => unfold throw in H; first [discriminate H | injection H as <- <- | injection H as <-]
  | modify _ _ = _ => unfold modify in H; first [discriminate H | injection H as <- <- | injection H as <-]
  | print _ _ = _ => unfold print in H; first [discriminate H | injection H as <- <- | injection H as <-]
  | sleep _ _ = _ => unfold sleep in H; first [discriminate H | injection H as <- <- | injection H as <-]
  | get_vars _ = _ => unfold get_vars in H; first [discriminate H | injection H as <- <- | injection H as <-]
  | datetime_now _ = _ => unfold datetime_now in H; first [discriminate H | injection H as <- <- | injection H as <-]
  | get_running _ = _ => unfold get_running in H; first [discriminate H | injection H as <- <- | injection H as <-]
  end.

Ltac inv_run := repeat match goal with H : _ = (_, _) |- _ => inv_step H end.

(** ** Commands that never look at the flag *)

Section BlindFacts.
Context {O V : Type}.
Implicit Types w : proc O V.

Local Abbreviation signal_blind := (signal_blind (O := O) (V := V)).

Lemma no_signals_signals scr : no_signals (signals scr).2 = no_signals scr.
Proof.
  induction scr as [|[| |e] scr IH]; simpl; try done.
  destruct (signals scr) as [n r]. simpl in *. done.
Qed.

Lemma signals_no_signals scr : signals (no_signals scr) = (0%nat, no_signals scr).
Proof.
  induction scr as [|[| |e] scr IH]; simpl; done.
Qed.

Lemma no_signals_idemp scr : no_signals (no_signals scr) = no_signals scr.
Proof.
  induction scr as [|[| |e] scr IH]; simpl; try done; by f_equal.
Qed.

Lemma deliver_no_signals w :
  script w = no_signals (script w) -> deliver w = w.
Proof.
  intros H. unfold deliver. rewrite H, signals_no_signals. done.
Qed.

Lemma same_work_deliver w1 w2 :
  same_work w1 w2 -> same_work (deliver w1) w2.
Proof.
  intros (Hv & He & Hw & Ht & Hs). repeat split.
  - by rewrite vars_deliver.
  - by rewrite effects_deliver.
  - by rewrite wall_deliver.
  - by rewrite ticks_deliver.
  - by rewrite script_deliver, no_signals_signals.
Qed.

Lemma signal_blind_ret {A} (a : A) : signal_blind (ret a).
Proof. intros w1 w2 H. by split. Qed.

Lemma signal_blind_throw {A} e : signal_blind (throw (A := A) e).
Proof. intros w1 w2 H. by split. Qed.

Lemma signal_blind_bind {A B} (m : M O V A) (k : A -> M O V B) :
  signal_blind m -> (forall a, signal_blind (k a)) -> signal_blind (bind m k).
Proof.
  intros Hm Hk w1 w2 H. destruct (Hm w1 w2 H) as [Hr Hw]. unfold bind.
  destruct (m w1) as [[a1|e1] w1'], (m w2) as [[a2|e2] w2']; simpl in *;
    try discriminate Hr.
  - injection Hr as ->. by apply Hk.
  - injection Hr as ->. by split.
Qed.

Lemma signal_blind_try_except {A} (b : M O V A) h :
  signal_blind b -> (forall e, signal_blind (h e)) ->
  signal_blind (try_except b h).
Proof.
  intros Hb Hh w1 w2 H. destruct (Hb w1 w2 H) as [Hr Hw]. unfold try_except.
  destruct (b w1) as [[a1|[e1|c1]] w1'], (b w2) as [[a2|[e2|c2]] w2'];
    simpl in *; try discriminate Hr; try (by split).
  injection Hr as ->. by apply Hh.
Qed.

Lemma signal_blind_get_vars_bind {A} (k : V -> M O V A) :
  (forall v, signal_blind (k v)) -> signal_blind (bind get_vars k).
Proof.
  intros Hk w1 w2 H. unfold bind, get_vars.
  destruct H as (Hv & H). rewrite Hv. apply Hk. by split.
Qed.

Lemma signal_blind_datetime_now_bind {A} (k : Z -> M O V A) :
  (forall now, signal_blind (k now)) -> signal_blind (bind datetime_now k).
Proof.
  intros Hk w1 w2 (Hv & He & Hw & Ht & Hs). unfold bind, datetime_now.
  rewrite Hw, Ht. apply Hk. repeat split; simpl; done.
Qed.

Lemma signal_blind_modify f : signal_blind (modify f).
Proof.
  intros w1 w2 (Hv & He & Hw & Ht & Hs). split; [done|].
  repeat split; simpl; try congruence. exact He.
Qed.

Lemma signal_blind_print o : signal_blind (print o).
Proof.
  intros w1 w2 (Hv & He & Hw & Ht & Hs). split; [done|].
  repeat split; simpl; try done.
  unfold effects in *. simpl. by rewrite !List.filter_app, He.
Qed.

Lemma signal_blind_sleep s : signal_blind (sleep s).
Proof.
  intros w1 w2 (Hv & He & Hw & Ht & Hs). split; [done|].
  repeat split; simpl; try done.
  unfold effects in *. simpl. by rewrite !List.filter_app, He.
Qed.

Lemma signal_blind_slot c : signal_blind (slot c).
Proof.
  intros w1 w2 H. apply same_work_deliver in H.
  destruct H as (Hv & He & Hw & Ht & Hs).
  pose proof (signals_spec (script w1)) as [_ Hhead].
  rewrite <- script_deliver in Hhead.
  unfold slot. rewrite (deliver_no_signals w2)
    by (rewrite Hs; by rewrite no_signals_idemp).
  cbn [script running wall ticks out vars]. rewrite Hs.
  destruct (script (deliver w1)) as [|[| |e] scr] eqn:E; simpl;
    [|by destruct (Hhead scr)|..];
    (split; [done|]); repeat split; simpl; try done;
    unfold effects in *; simpl; by rewrite !List.filter_app, He.
Qed.

End BlindFacts.

(** ** What a command leaves on the terminal *)

Section TerminalFacts.
Context {O V : Type}.
Implicit Types w : proc O V.

Local Abbreviation hoare_printed := (hoare_printed (O := O) (V := V)).
Local Abbreviation total_printed := (total_printed (O := O) (V := V)).
Local Abbreviation preserves := (preserves (O := O) (V := V)).
Local Abbreviation total := (total (O := O) (V := V)).

Lemma printed_print_app w o : printed (print o w).2 = printed w ++ [o].
Proof. unfold printed. simpl. by rewrite omap_app. Qed.

Lemma effects_print_app w o : effects (print o w).2 = effects w ++ [Line o].
Proof. unfold effects. simpl. by rewrite List.filter_app. Qed.

Lemma printed_sleep w s : printed (sleep s w).2 = printed w.
Proof. unfold printed. simpl. rewrite omap_app. simpl. apply app_nil_r. Qed.

(** A call that is let through under a calm script. *)
Lemma slot_calm c w :
  calm (script w) = true ->
  exists w', slot c w = (Ret tt, w') /\ calm (script w') = true /\
    vars w' = vars w /\ printed w' = printed w /\
    effects w' = effects w ++ [Called c] /\
    (running w' = true -> running w = true).
Proof.
  intros Hc. apply calm_deliver in Hc.
  destruct (slot c w) as [r w'] eqn:H.
  pose proof (printed_slot _ _ _ _ H) as Hp.
  pose proof (effects_slot _ _ _ _ H) as He.
  pose proof (running_slot _ _ _ _ H) as Hr.
  apply slot_inv in H as (Hv & _ & _ & _ & _ & Hres).
  destruct Hres as [[-> Hs]|(e & _ & Hs)].
  - exists w'. repeat split; auto.
    destruct Hs as [Hs|Hs]; [by rewrite Hs|]. by rewrite <- Hs in Hc.
  - rewrite <- Hs in Hc. discriminate.
Qed.

(** *** Variables and printed lines, under any script *)

Lemma hoare_printed_ret {A} (P : V -> list O -> Prop) (a : A) Q X :
  (forall v l, P v l -> Q a v l) -> hoare_printed P (ret a) Q X.
Proof. intros HPQ w r w' HP [= <- <-]. auto. Qed.

Lemma hoare_printed_throw {A} (P : V -> list O -> Prop) e
    (Q : A -> V -> list O -> Prop) X :
  (forall v l, P v l -> X v l) -> hoare_printed P (throw e) Q X.
Proof. intros HPX w r w' HP [= <- <-]. auto. Qed.

Lemma hoare_printed_bind {A B} (P : V -> list O -> Prop) (m : M O V A) Q1
    (k : A -> M O V B) Q X :
  hoare_printed P m Q1 X -> (forall a, hoare_printed (Q1 a) (k a) Q X) ->
  hoare_printed P (bind m k) Q X.
Proof.
  intros Hm Hk w r w' HP H.
  apply bind_inv in H as [(a & w1 & H1 & H2)|(e & H1 & ->)].
  - eapply Hk; [|exact H2]. apply (Hm _ _ _ HP H1).
  - apply (Hm _ _ _ HP H1).
Qed.

Lemma hoare_printed_conseq {A} (P P' : V -> list O -> Prop) (m : M O V A)
    (Q Q' : A -> V -> list O -> Prop) (X X' : V -> list O -> Prop) :
  hoare_printed P' m Q' X' -> (forall v l, P v l -> P' v l) ->
  (forall a v l, Q' a v l -> Q a v l) -> (forall v l, X' v l -> X v l) ->
  hoare_printed P m Q X.
Proof.
  intros Hm HP HQ HX w r w' Hp H. specialize (Hm w r w' (HP _ _ Hp) H).
  destruct r; auto.
Qed.

Lemma hoare_printed_slot (P : V -> list O -> Prop) c :
  hoare_printed P (slot c) (fun _ => P) P.
Proof.
  intros w r w' HP H. rewrite (printed_slot _ _ _ _ H).
  apply slot_inv in H as (Hv & _). rewrite Hv. by destruct r.
Qed.

Lemma hoare_printed_modify (P : V -> list O -> Prop) f
    (Q : unit -> V -> list O -> Prop) X :
  (forall v l, P v l -> Q tt (f v) l) -> hoare_printed P (modify f) Q X.
Proof. intros HPQ w r w' HP [= <- <-]. simpl. by apply HPQ. Qed.

Lemma hoare_printed_get_vars (P : V -> list O -> Prop) X :
  hoare_printed P get_vars (fun a v l => a = v /\ P v l) X.
Proof. intros w r w' HP [= <- <-]. auto. Qed.

Lemma hoare_printed_print (P : V -> list O -> Prop) o
    (Q : unit -> V -> list O -> Prop) X :
  (forall v l, P v l -> Q tt v (l ++ [o])) -> hoare_printed P (print o) Q X.
Proof.
  intros HPQ w r w' HP H.
  assert (Hw : w' = (print o w).2) by (by rewrite H).
  injection H as <- _. rewrite Hw, printed_print_app. simpl. by apply HPQ.
Qed.

Lemma hoare_printed_sleep (P : V -> list O -> Prop) s X :
  hoare_printed P (sleep s) (fun _ => P) X.
Proof.
  intros w r w' HP H.
  assert (Hw : w' = (sleep s w).2) by (by rewrite H).
  injection H as <- _. by rewrite Hw, printed_sleep.
Qed.

Lemma hoare_printed_datetime_now (P : V -> list O -> Prop) X :
  hoare_printed P datetime_now (fun _ => P) X.
Proof. by intros w r w' HP [= <- <-]. Qed.

Lemma hoare_printed_get_running (P : V -> list O -> Prop) X :
  hoare_printed P get_running (fun _ => P) X.
Proof.
  intros w r w' HP [= <- <-]. by rewrite vars_deliver, printed_deliver.
Qed.

Lemma hoare_printed_try_except {A} (P : V -> list O -> Prop) (b : M O V A) h
    Q (H X : V -> list O -> Prop) :
  hoare_printed P b Q H -> (forall e, hoare_printed H (h e) Q X) ->
  (forall v l, H v l -> X v l) ->
  hoare_printed P (try_except b h) Q X.
Proof.
  intros Hb Hh HX w r w' HP Hrun.
  apply try_except_inv in Hrun as [[Hrun _]|(e & w1 & H1 & H2)].
  - specialize (Hb _ _ _ HP Hrun). destruct r; auto.
  - eapply Hh; [|exact H2]. apply (Hb _ _ _ HP H1).
Qed.

Lemma hoare_printed_intro_pre {A} (P : V -> list O -> Prop) (m : M O V A) Q X :
  (forall v l, P v l -> hoare_printed (fun v' l' => v' = v /\ l' = l) m Q X) ->
  hoare_printed P m Q X.
Proof. intros H w r w' HP. by apply (H (vars w) (printed w) HP). Qed.

Lemma hoare_printed_pure {A} (phi : Prop) (P : V -> list O -> Prop)
    (m : M O V A) Q X :
  (phi -> hoare_printed P m Q X) ->
  hoare_printed (fun v l => P v l /\ phi) m Q X.
Proof. intros H w r w' [HP Hphi]. by apply H. Qed.

Lemma hoare_printed_ret_inv {A} (P : V -> list O -> Prop) (a : A) X :
  hoare_printed P (ret a) (fun _ => P) X.
Proof. by apply hoare_printed_ret. Qed.

Lemma hoare_printed_get_vars_inv (P : V -> list O -> Prop) X :
  hoare_printed P get_vars (fun _ => P) X.
Proof. by intros w r w' HP [= <- <-]. Qed.

(** A command whose every run is related by [R] keeps what [R] keeps. *)
Lemma hoare_printed_preserves {A} (R : relation (proc O V))
    (P : V -> list O -> Prop) (m : M O V A) :
  preserves R m ->
  (forall w w', R w w' -> P (vars w) (printed w) -> P (vars w') (printed w')) ->
  hoare_printed P m (fun _ => P) P.
Proof.
  intros Hm HR w r w' HP H. specialize (Hm _ _ _ H).
  destruct r; by apply (HR w w').
Qed.

(** *** Variables and printed lines, under a calm script *)

Lemma total_printed_ret {A} (P : V -> list O -> Prop) (a : A)
    (Q : A -> V -> list O -> Prop) :
  (forall v l, P v l -> Q a v l) -> total_printed P (ret a) Q.
Proof. intros HPQ w Hc HP. exists a, w. auto. Qed.

Lemma total_printed_bind {A B} (P : V -> list O -> Prop) (m : M O V A)
    (Q1 : A -> V -> list O -> Prop) (k : A -> M O V B)
    (Q : B -> V -> list O -> Prop) :
  total_printed P m Q1 -> (forall a, total_printed (Q1 a) (k a) Q) ->
  total_printed P (bind m k) Q.
Proof.
  intros Hm Hk w Hc HP. destruct (Hm w Hc HP) as (a & w1 & Hrun & Hc1 & HQ1).
  destruct (Hk a w1 Hc1 HQ1) as (b & w2 & Hrun2 & Hc2 & HQ).
  exists b, w2. unfold bind. rewrite Hrun. auto.
Qed.

Lemma total_printed_conseq {A} (P P' : V -> list O -> Prop) (m : M O V A)
    (Q Q' : A -> V -> list O -> Prop) :
  total_printed P' m Q' -> (forall v l, P v l -> P' v l) ->
  (forall a v l, Q' a v l -> Q a v l) ->
  total_printed P m Q.
Proof.
  intros Hm HP HQ w Hc Hp.
  destruct (Hm w Hc (HP _ _ Hp)) as (a & w' & ? & ? & ?).
  exists a, w'. auto.
Qed.

Lemma total_printed_slot (P : V -> list O -> Prop) c :
  total_printed P (slot c) (fun _ => P).
Proof.
  intros w Hc HP.
  destruct (slot_calm c w Hc) as (w' & Hrun & Hc' & Hv & Hp & _).
  exists tt, w'. rewrite Hv, Hp. auto.
Qed.

Lemma total_printed_modify (P : V -> list O -> Prop) f
    (Q : unit -> V -> list O -> Prop) :
  (forall v l, P v l -> Q tt (f v) l) -> total_printed P (modify f) Q.
Proof.
  intros HPQ w Hc HP. eexists tt, _. split; [reflexivity|].
  split; [done|]. simpl. by apply HPQ.
Qed.

Lemma total_printed_get_vars (P : V -> list O -> Prop) :
  total_printed P get_vars (fun a v l => a = v /\ P v l).
Proof. intros w Hc HP. exists (vars w), w. auto. Qed.

Lemma total_printed_print (P : V -> list O -> Prop) o
    (Q : unit -> V -> list O -> Prop) :
  (forall v l, P v l -> Q tt v (l ++ [o])) -> total_printed P (print o) Q.
Proof.
  intros HPQ w Hc HP. exists tt, (print o w).2. split; [reflexivity|].
  split; [done|]. rewrite printed_print_app. simpl. by apply HPQ.
Qed.

Lemma total_printed_sleep (P : V -> list O -> Prop) s :
  total_printed P (sleep s) (fun _ => P).
Proof.
  intros w Hc HP. exists tt, (sleep s w).2. split; [reflexivity|].
  split; [done|]. by rewrite printed_sleep.
Qed.

Lemma total_printed_datetime_now (P : V -> list O -> Prop) :
  total_printed P datetime_now (fun _ => P).
Proof. intros w Hc HP. eexists _, _. repeat split; simpl; auto. Qed.

Lemma total_printed_try_except {A} (P : V -> list O -> Prop) (b : M O V A) h Q :
  total_printed P b Q -> total_printed P (try_except b h) Q.
Proof.
  intros Hb w Hc HP. destruct (Hb w Hc HP) as (a & w' & Hrun & ? & ?).
  exists a, w'. unfold try_except. rewrite Hrun. auto.
Qed.

Lemma total_printed_intro_pre {A} (P : V -> list O -> Prop) (m : M O V A) Q :
  (forall v l, P v l -> total_printed (fun v' l' => v' = v /\ l' = l) m Q) ->
  total_printed P m Q.
Proof. intros H w Hc HP. by apply (H (vars w) (printed w) HP). Qed.

(** A command that returns under a calm script, and whose every run is
    related by [R]. *)
Lemma total_printed_preserves {A} (R : relation (proc O V))
    (P0 : V -> Prop) (Q0 : A -> V -> Prop) (P : V -> list O -> Prop)
    (Q : A -> V -> list O -> Prop) (m : M O V A) :
  total P0 m Q0 -> preserves R m ->
  (forall v l, P v l -> P0 v) ->
  (forall w a w', P (vars w) (printed w) -> Q0 a (vars w') -> R w w' ->
     Q a (vars w') (printed w')) ->
  total_printed P m Q.
Proof.
  intros Ht Hp HP HQ w Hc Hw.
  destruct (Ht w Hc (HP _ _ Hw)) as (a & w' & Hrun & Hc' & Hq).
  exists a, w'. split; [done|]. split; [done|].
  apply (HQ w); [done..|]. by eapply Hp.
Qed.

(** *** Pauses *)

Lemma pauses_deliver w : pauses (deliver w) = pauses w.
Proof.
  unfold deliver, pauses. destruct (signals (script w)) as [[|n] r]; [done|].
  cbn [out]. rewrite List.filter_app.
  assert (Hn : forall m, List.filter is_pause (replicate m (@SignalLine O)) = []).
  { induction m; simpl; auto. }
  rewrite Hn. apply app_nil_r.
Qed.

Lemma pauses_slot c w r w' : slot c w = (r, w') -> pauses w' = pauses w.
Proof.
  intros H. apply slot_inv in H as (_ & _ & _ & Hout & _).
  unfold pauses at 1. rewrite Hout, List.filter_app. simpl.
  rewrite app_nil_r. apply pauses_deliver.
Qed.

Lemma pauses_print w o : pauses (print o w).2 = pauses w.
Proof. unfold pauses. simpl. rewrite List.filter_app. apply app_nil_r. Qed.

Lemma pauses_sleep w s : pauses (sleep s w).2 = pauses w ++ [Slept s].
Proof. unfold pauses. simpl. by rewrite List.filter_app. Qed.

#[export] Instance no_pause_preorder : PreOrder (no_pause (O := O) (V := V)).
Proof.
  split.
  - by intros w.
  - intros w1 w2 w3 H12 H23. unfold no_pause in *. congruence.
Qed.

Lemma no_pause_slot c : preserves no_pause (slot c).
Proof. intros w r w' H. by eapply pauses_slot. Qed.

Lemma no_pause_modify f : preserves no_pause (modify f).
Proof. by intros w r w' [= <- <-]. Qed.

Lemma no_pause_print o : preserves no_pause (print o).
Proof.
  intros w r w' H. assert (Hw : w' = (print o w).2) by (by rewrite H).
  rewrite Hw. apply pauses_print.
Qed.

Lemma no_pause_datetime_now : preserves no_pause datetime_now.
Proof. by intros w r w' [= <- <-]. Qed.

Lemma no_pause_get_vars : preserves no_pause get_vars.
Proof. by intros w r w' [= <- <-]. Qed.

Lemma no_pause_get_running : preserves no_pause get_running.
Proof. intros w r w' [= <- <-]. apply pauses_deliver. Qed.

(** *** Steps the environment stays out of *)

#[export] Instance undisturbed_preorder : PreOrder (undisturbed (O := O) (V := V)).
Proof.
  split.
  - intros w. by split.
  - intros w1 w2 w3 H12 H23 Hs. destruct (H12 Hs) as [Hs2 Hr2].
    destruct (H23 Hs2) as [Hs3 Hr3]. split; [done|congruence].
Qed.

Lemma deliver_exhausted w : script w = [] -> deliver w = w.
Proof. intros H. unfold deliver. by rewrite H. Qed.

Lemma undisturbed_slot c : preserves undisturbed (slot c).
Proof.
  intros w r w' H Hs. unfold slot in H. rewrite (deliver_exhausted w Hs) in H.
  cbn [script running wall ticks out vars] in H. rewrite Hs in H.
  by injection H as <- <-.
Qed.

Lemma undisturbed_get_running : preserves undisturbed get_running.
Proof.
  intros w r w' H Hs. unfold get_running in H.
  rewrite (deliver_exhausted w Hs) in H. by injection H as <- <-.
Qed.

Lemma undisturbed_modify f : preserves undisturbed (modify f).
Proof. by intros w r w' [= <- <-] Hs. Qed.

Lemma undisturbed_print o : preserves undisturbed (print o).
Proof. by intros w r w' [= <- <-] Hs. Qed.

Lemma undisturbed_sleep s : preserves undisturbed (sleep s).
Proof. by intros w r w' [= <- <-] Hs. Qed.

Lemma undisturbed_datetime_now : preserves undisturbed datetime_now.
Proof. by intros w r w' [= <- <-] Hs. Qed.

Lemma undisturbed_get_vars : preserves undisturbed get_vars.
Proof. by intros w r w' [= <- <-] Hs. Qed.

(** *** Scripts without failures and signals *)




#[export] Instance steady_preorder : PreOrder (steady (O := O) (V := V)).
Proof.
  split.
  - by intros w Hs.
  - intros w1 w2 w3 H1 H2 Hs. destruct (H1 Hs) as [Hs2 Hr2].
    destruct (H2 Hs2) as [Hs3 Hr3]. split; [done|congruence].
Qed.








(** *** The trace of a stretch of a run *)

Lemma flagged_refl w : flagged w w [].
Proof.
  split; [by rewrite app_nil_r|]. split; [done|]. intros _. constructor.
Qed.

Lemma flagged_trans w w1 w2 n1 n2 :
  flagged w w1 n1 -> flagged w1 w2 n2 -> flagged w w2 (n1 ++ n2).
Proof.
  intros (Ho1 & Hf1 & Hs1) (Ho2 & Hf2 & Hs2).
  split; [by rewrite Ho2, Ho1, app_assoc|]. split; [auto|].
  intros Hr. assert (Hr1 : running w1 = true).
  { destruct (running w1) eqn:E; [done|]. rewrite Hf2 in Hr; done. }
  apply Forall_app. auto.
Qed.

Lemma flagged_added w w' new : flagged w w' new -> added w w' = new.
Proof. intros (Ho & _). unfold added. by rewrite Ho, drop_app_length. Qed.

Lemma flagged_deliver w :
  flagged w (deliver w) (replicate (signals (script w)).1 SignalLine).
Proof.
  unfold deliver. destruct (signals (script w)) as [[|n] r]; simpl.
  - apply flagged_refl.
  - split; [done|]. split; [done|]. discriminate.
Qed.

Lemma flagged_slot c w r w' :
  slot c w = (r, w') ->
  flagged w w' (replicate (signals (script w)).1 SignalLine ++ [Called c]).
Proof.
  intros H. apply slot_inv in H as (_ & _ & _ & Ho & Hr & _).
  destruct (flagged_deliver w) as (Hod & Hfd & Hsd).
  split; [by rewrite Ho, Hod, app_assoc|].
  split; [intros Hw; rewrite Hr; auto|].
  intros Hw. rewrite Hr in Hw. apply Forall_app. split; [auto|].
  by repeat constructor.
Qed.

Lemma flagged_get_running w r w' :
  get_running w = (r, w') ->
  r = Ret (running w') /\ w' = deliver w /\
  flagged w w' (replicate (signals (script w)).1 SignalLine).
Proof. intros [= <- <-]. split; [done|]. split; [done|]. apply flagged_deliver. Qed.

Lemma flagged_print o w : flagged w (print o w).2 [Line o].
Proof. split; [done|]. split; [done|]. intros _. by repeat constructor. Qed.

Lemma flagged_sleep s w : flagged w (sleep s w).2 [Slept s].
Proof. split; [done|]. split; [done|]. intros _. by repeat constructor. Qed.

Lemma flagged_modify f w : flagged w (modify f w).2 [].
Proof. split; [simpl; by rewrite app_nil_r|]. split; [done|]. constructor. Qed.

Lemma flagged_datetime_now w : flagged w (datetime_now w).2 [].
Proof. split; [simpl; by rewrite app_nil_r|]. split; [done|]. constructor. Qed.

Lemma after_signal_app_quiet (l1 l2 : list (line O)) :
  Forall (fun x => is_signal_line x = false) l1 ->
  after_signal (l1 ++ l2) = after_signal l2.
Proof.
  induction 1 as [|x l1 Hx _ IH]; [done|]. simpl. by destruct x.
Qed.

Lemma after_signal_app_signalled (l1 l2 : list (line O)) :
  ~ Forall (fun x => is_signal_line x = false) l1 ->
  after_signal (l1 ++ l2) = after_signal l1 ++ l2.
Proof.
  induction l1 as [|x l1 IH]; intros Hn.
  - destruct Hn. constructor.
  - destruct x; simpl; try done;
      apply IH; intros Hl; apply Hn; by constructor.
Qed.

Lemma skip_signals_replicate k (l : list (line O)) :
  skip_signals (replicate k SignalLine ++ l) = skip_signals l.
Proof. induction k as [|k IH]; [done|]. exact IH. Qed.

Lemma after_signal_replicate k (l : list (line O)) :
  after_signal (replicate (S k) SignalLine ++ l) = replicate k SignalLine ++ l.
Proof. done. Qed.

Lemma after_signal_suffix (l : list (line O)) : after_signal l `suffix_of` l.
Proof.
  induction l as [|x l IH]; [done|].
  destruct x; simpl; try (by apply suffix_cons_r); by apply suffix_cons_r.
Qed.

Lemma skip_signals_suffix (l : list (line O)) : skip_signals l `suffix_of` l.
Proof.
  induction l as [|x l IH]; [done|].
  destruct x; simpl; try done. by apply suffix_cons_r.
Qed.

Lemma after_shutdown_suffix (l : list (line O)) : after_shutdown l `suffix_of` l.
Proof.
  unfold after_shutdown.
  etrans; [apply suffix_drop|]. etrans; [apply skip_signals_suffix|].
  apply after_signal_suffix.
Qed.

(** *** Runs, step by step *)

Lemma bind_ret_run {A B} (m : M O V A) (k : A -> M O V B) w a w1 :
  m w = (Ret a, w1) -> bind m k w = k a w1.
Proof. intros H. unfold bind. by rewrite H. Qed.

Lemma bind_throw_run {A B} (m : M O V A) (k : A -> M O V B) w e w1 :
  m w = (Throw e, w1) -> bind m k w = (Throw e, w1).
Proof. intros H. unfold bind. by rewrite H. Qed.

Lemma try_except_exit_run {A} (b : M O V A) h w c w1 :
  b w = (Throw (SystemExit c), w1) ->
  try_except b h w = (Throw (SystemExit c), w1).
Proof. intros H. unfold try_except. by rewrite H. Qed.

(** *** [finally] *)

Lemma total_printed_finally {A} (P : V -> list O -> Prop) (b : M O V A)
    (Q1 : A -> V -> list O -> Prop) (c : M O V unit)
    (Q : A -> V -> list O -> Prop) :
  total_printed P b Q1 ->
  (forall a, total_printed (Q1 a) c (fun _ => Q a)) ->
  total_printed P (finally b c) Q.
Proof.
  intros Hb Hc w Hcalm HP.
  destruct (Hb w Hcalm HP) as (a & w1 & Hrun & Hc1 & HQ1).
  destruct (Hc a w1 Hc1 HQ1) as ([] & w2 & Hrun2 & Hc2 & HQ).
  exists a, w2. unfold finally. rewrite Hrun, Hrun2. auto.
Qed.


Lemma finally_inv {A} (b : M O V A) (c : M O V unit) w r w' :
  finally b c w = (r, w') ->
  exists r1 w1 r2, b w = (r1, w1) /\ c w1 = (r2, w') /\
    match r2 with Ret _ => r = r1 | Throw e => r = Throw e end.
Proof.
  unfold finally. destruct (b w) as [r1 w1].
  destruct (c w1) as [[[]|e] w2] eqn:Hc; intros [= <- <-].
  - exists r1, w1, (Ret tt). auto.
  - exists r1, w1, (Throw e). auto.
Qed.

End TerminalFacts.

(** Commands built from calls, prints and assignments leave the flag alone
    once the script is exhausted. *)
Ltac undisturbed_tac :=
  repeat first
    [ apply preserves_bind; [apply _| |intros ?]
    | apply preserves_try_except; [apply _| |intros ?]
    | apply preserves_ret; apply _
    | apply preserves_throw; apply _
    | apply undisturbed_slot | apply undisturbed_modify
    | apply undisturbed_print | apply undisturbed_sleep
    | apply undisturbed_datetime_now | apply undisturbed_get_vars
    | apply undisturbed_get_running ].


Ltac no_pause_tac :=
  repeat first
    [ apply preserves_bind; [apply _| |intros ?]
    | apply preserves_try_except; [apply _| |intros ?]
    | apply preserves_ret; apply _
    | apply preserves_throw; apply _
    | apply no_pause_slot | apply no_pause_modify
    | apply no_pause_print | apply no_pause_datetime_now
    | apply no_pause_get_vars | apply no_pause_get_running ].

(** ** The feed producer *)

Module RealtimeFacts.
Import Realtime.

(** *** The dict built by [insert_row] *)

Lemma copy_column_stored now row reading col :
  copy_column now row reading col =
    match stored now row col with
    | Some v => <[col := v]> reading
    | None => reading
    end.
Proof.
  unfold copy_column, stored. case_decide as Hts; [by subst|].
  destruct (series_get row col) as [val|]; simpl; [|done].
  by destruct (isna val).
Qed.

Lemma foldl_copy_column now row cols :
  forall (reading : gmap string pyval) col,
  foldl (copy_column now row) reading cols !! col =
    if decide (col ∈ cols) then
      match stored now row col with
      | Some v => Some v
      | None => reading !! col
      end
    else reading !! col.
Proof.
  induction cols as [|c cols IH]; intros reading col; simpl.
  - destruct (decide (col ∈ [])) as [H|H]; [by apply elem_of_nil in H | done].
  - rewrite IH, copy_column_stored.
    destruct (decide (col = c)) as [->|Hne].
    + rewrite (decide_True (P := c ∈ c :: cols)) by apply list_elem_of_here.
      destruct (stored now row c) as [v|] eqn:Hv.
      * rewrite lookup_insert_eq. by destruct (decide (c ∈ cols)).
      * by destruct (decide (c ∈ cols)).
    + assert (Hiff : col ∈ c :: cols <-> col ∈ cols).
      { rewrite elem_of_cons. split; [intros [?|?]; [congruence|done]|auto]. }
      destruct (stored now row c) as [v|].
      * rewrite lookup_insert_ne by done.
        destruct (decide (col ∈ cols)).
        -- by rewrite decide_True by (by apply Hiff).
        -- by rewrite decide_False by (by rewrite Hiff).
      * destruct (decide (col ∈ cols)).
        -- by rewrite decide_True by (by apply Hiff).
        -- by rewrite decide_False by (by rewrite Hiff).
Qed.

Lemma series_get_Some (row : series) col val :
  NoDup row.*1 -> (col, val) ∈ row -> series_get row col = Some val.
Proof.
  unfold series_get. induction row as [|[c v] row IH]; simpl; intros Hnd Hin.
  - by apply elem_of_nil in Hin.
  - apply NoDup_cons in Hnd as [Hc Hnd]. apply elem_of_cons in Hin as [Heq|Hin].
    + injection Heq as -> ->. by rewrite bool_decide_eq_true_2.
    + rewrite bool_decide_eq_false_2; [by apply IH|].
      intros ->. apply Hc. apply list_elem_of_fmap. by exists (col, val).
Qed.

Lemma build_reading_lookup now row col :
  build_reading now row !! col =
    if decide (col = "is_anomaly" \/ col = "anomaly_score") then None
    else if decide (col ∈ row.*1) then stored now row col else None.
Proof.
  unfold build_reading.
  destruct (decide (col = "is_anomaly" \/ col = "anomaly_score")) as [[->| ->]|Hne].
  - rewrite lookup_delete_ne by done. apply lookup_delete_eq.
  - apply lookup_delete_eq.
  - rewrite !lookup_delete_ne by (intros ?; apply Hne; auto).
    rewrite foldl_copy_column, lookup_empty.
    destruct (decide (col ∈ row.*1)); [|done].
    by destruct (stored now row col).
Qed.

(** *** Steps that print nothing and leave [count] alone *)

#[local] Instance quiet_preorder : PreOrder quiet.
Proof.
  split.
  - intros w. by repeat split.
  - intros w1 w2 w3 (Hp1 & Hc1 & Hr1) (Hp2 & Hc2 & Hr2).
    repeat split; [congruence | congruence | auto].
Qed.

Lemma quiet_slot c : preserves quiet (slot c).
Proof.
  intros w r w' H. repeat split.
  - by eapply printed_slot.
  - apply slot_inv in H as (Hv & _). by rewrite Hv.
  - by eapply running_slot.
Qed.

Lemma quiet_modify f :
  (forall v, count (f v) = count v) -> preserves quiet (modify f).
Proof. intros Hf w r w' [= <- <-]. repeat split; simpl; auto. Qed.

Lemma quiet_datetime_now : preserves quiet datetime_now.
Proof. intros w r w' [= <- <-]. by repeat split. Qed.

Lemma quiet_insert_row row : preserves quiet (insert_row row).
Proof.
  unfold insert_row, execute_insert, commit.
  apply preserves_bind; [apply _| |intros ?].
  { destruct (bool_decide _); [apply quiet_datetime_now|].
    apply preserves_ret, _. }
  repeat (apply preserves_bind; [apply _| |intros ?]);
    try apply quiet_slot; by apply quiet_modify.
Qed.

Lemma quiet_rollback : preserves quiet rollback.
Proof.
  apply preserves_bind; [apply _|apply quiet_slot|intros ?].
  by apply quiet_modify.
Qed.

Lemma quiet_close : preserves quiet close.
Proof.
  apply preserves_bind; [apply _|apply quiet_slot|intros ?].
  by apply quiet_modify.
Qed.

Lemma raises_errors_insert_row row : raises_errors (insert_row row).
Proof.
  unfold insert_row, execute_insert, commit.
  apply raises_errors_bind; [|intros ?].
  { destruct (bool_decide _); intros w c w'; discriminate. }
  repeat (apply raises_errors_bind; [|intros ?]);
    try apply raises_errors_slot; intros w c w'; discriminate.
Qed.

(** The record a successful [insert_row] commits. *)
Lemma insert_row_commits row w w' :
  insert_row row w = (Ret tt, w') ->
  exists now,
    ("timestamp" ∈ row.*1 -> now = wall w (ticks w)) /\
    table (vars w') = table (vars w) ++ tx (vars w) ++ [build_reading now row]
    /\ tx (vars w') = [].
Proof.
  unfold insert_row, execute_insert, commit. intros H.
  inv_step H.
  match goal with
  | H1 : (if _ then _ else _) w = (Ret ?a, ?w0) |- _ =>
      exists a;
      assert (Hnow : ("timestamp" ∈ row.*1 -> a = wall w (ticks w)) /\
                     vars w0 = vars w);
      [ destruct (bool_decide_reflect ("timestamp" ∈ row.*1)) as [Hin|Hout];
        inv_step H1; by split
      | clear H1 ]
  end.
  destruct Hnow as [Hnow Hv0]. split; [exact Hnow|].
  repeat (match goal with
          | Hr : _ = (_, _) |- _ => inv_step Hr
          | Hr : slot _ _ = (_, _) |- _ =>
              apply slot_inv in Hr as (? & _)
          end; cbn [vars wall ticks table tx count] in *).
  repeat match goal with Hv : vars _ = _ |- _ => rewrite Hv; clear Hv end.
  done.
Qed.

Lemma printed_print (w : proc output mem) o r w' :
  print o w = (r, w') ->
  r = Ret tt /\ printed w' = printed w ++ [o] /\ vars w' = vars w /\
  running w' = running w.
Proof.
  intros [= <- <-]. repeat split. unfold printed. cbn [out].
  by rewrite omap_app.
Qed.

(** *** What an attempt prints and counts *)

Lemma quiet_sleep s : preserves quiet (sleep s).
Proof.
  intros w r w' [= <- <-]. split; [apply printed_sleep|]. by split.
Qed.

Lemma quiet_time_sleep s : preserves quiet (time_sleep s).
Proof.
  unfold time_sleep. destruct (sleep_error s).
  - apply preserves_throw, _.
  - apply preserves_bind; [apply _|apply quiet_slot|intros ?; apply quiet_sleep].
Qed.

(** The steps of the [try] block that follow [insert_row]: the count goes
    up by one, and a line is printed unless building it raises. *)
Lemma progress_inv row w r w' :
  (incr_count;;
   ts <- datetime_now;
   match progress_error row with
   | Some e => throw (Error e)
   | None => v <- get_vars; print (Progress (count v))
   end) w = (r, w') ->
  count (vars w') = count (vars w) + 1 /\
  running w' = running w /\ table (vars w') = table (vars w) /\
  tx (vars w') = tx (vars w) /\
  match progress_error row with
  | Some e => r = Throw (Error e) /\ printed w' = printed w
  | None => r = Ret tt /\
            printed w' = printed w ++ [Progress (count (vars w) + 1)]
  end.
Proof.
  unfold incr_count. intros H.
  apply bind_inv in H as [([] & w1 & H1 & H)|(e & H1 & _)]; [|inv_step H1].
  inv_step H1.
  apply bind_inv in H as [(ts & w2 & H2 & H)|(e & H2 & _)]; [|inv_step H2].
  inv_step H2.
  destruct (progress_error row) as [e|].
  - inv_step H. by repeat split.
  - apply bind_inv in H as [(v & w3 & H3 & H)|(e & H3 & _)]; [|inv_step H3].
    inv_step H3. apply printed_print in H as (-> & Hp & Hv & Hr).
    rewrite Hv, Hr, Hp. by repeat split.
Qed.

(** One attempt prints one line.  The count goes up by one when the row
    was inserted; a [Progress] line is printed only then, and always then
    when the progress line of the row can be built. *)
Lemma attempt_inv idx row w r w' :
  attempt idx row w = (r, w') ->
  exists o, printed w' = printed w ++ [o] /\
    is_attempt o = true /\
    count (vars w) + (if is_progress o then 1 else 0) <= count (vars w')
      <= count (vars w) + 1 /\
    (displayable row ->
     count (vars w') = count (vars w) + (if is_progress o then 1 else 0)) /\
    (running w' = true -> running w = true) /\
    (is_progress o = true -> r = Ret tt).
Proof.
  unfold attempt. intros H.
  apply try_except_inv in H as [[H Hne]|(e & w1 & H1 & H2)].
  - apply bind_inv in H as [([] & w1 & Hi & H)|(e & Hi & ->)].
    + pose proof (quiet_insert_row _ _ _ _ Hi) as (Hp & Hc & Hr).
      apply progress_inv in H as (Hc' & Hr' & _ & _ & Hres).
      destruct (progress_error row) as [e|] eqn:E.
      * destruct Hres as [-> _]. by destruct (Hne e).
      * destruct Hres as [-> Hp'].
        exists (Progress (count (vars w1) + 1)).
        rewrite Hp', Hp, Hc', Hc, Hr'. simpl.
        split; [done|]. split; [done|]. split; [lia|]. split; [lia|]. auto.
    + destruct e as [e|c].
      * by destruct (Hne e).
      * by destruct (raises_errors_insert_row row w c w').
  - assert (Hq : printed w1 = printed w /\
                 (running w1 = true -> running w = true) /\
                 (count (vars w1) = count (vars w) \/
                  count (vars w1) = count (vars w) + 1 /\
                  progress_error row <> None)).
    { apply bind_inv in H1 as [([] & w0 & Hi & H)|(e' & Hi & _)].
      - pose proof (quiet_insert_row _ _ _ _ Hi) as (Hp & Hc & Hr).
        apply progress_inv in H as (Hc' & Hr' & _ & _ & Hres).
        destruct (progress_error row) as [e'|]; [|by destruct Hres].
        destruct Hres as [_ Hp']. rewrite Hp', Hp, Hc', Hc, Hr'.
        split; [done|]. split; [done|]. right. by split.
      - pose proof (quiet_insert_row _ _ _ _ Hi) as (Hp & Hc & Hr).
        split; [done|]. split; [done|]. by left. }
    destruct Hq as (Hp & Hr & Hc).
    apply bind_inv in H2 as [([] & w2 & Hpr & H2)|(e' & Hpr & _)];
      [|inv_step Hpr].
    apply printed_print in Hpr as (_ & Hp' & Hv & Hr').
    pose proof (quiet_rollback _ _ _ H2) as (Hp2 & Hc2 & Hr2).
    exists (InsertError idx e). rewrite Hp2, Hp', Hp, Hc2, Hv. simpl.
    split; [done|]. split; [done|].
    split; [destruct Hc as [->|[-> _]]; lia|].
    split.
    { intros Hd. destruct Hc as [->|[_ Hn]]; [lia|]. by destruct Hn. }
    split; [|discriminate]. intros Ht. apply Hr. rewrite <- Hr'. auto.
Qed.

Lemma successes_app l1 l2 : successes (l1 ++ l2) = successes l1 + successes l2.
Proof. unfold successes. rewrite List.filter_app, length_app. lia. Qed.

Lemma attempts_app l1 l2 : attempts (l1 ++ l2) = attempts l1 + attempts l2.
Proof. unfold attempts. rewrite List.filter_app, length_app. lia. Qed.

Lemma successes_cons o l :
  successes (o :: l) = (if is_progress o then 1 else 0) + successes l.
Proof. unfold successes. simpl. destruct (is_progress o); simpl; lia. Qed.

(** The loop prints one line for each attempt and makes no more attempts
    than there are indices; [count] goes up by at least the number of
    progress lines and at most the number of attempts; and the loop stops
    early only when it found [_running] false. *)
Lemma replay_inv df interval total idxs : forall w r w',
  replay df interval total idxs w = (r, w') ->
  exists new, printed w' = printed w ++ new /\
    Forall (fun o => is_attempt o = true) new /\
    (length new <= length idxs)%nat /\
    count (vars w) + successes new <= count (vars w')
      <= count (vars w) + Z.of_nat (length new) /\
    (Forall displayable df ->
     count (vars w') = count (vars w) + successes new) /\
    (running w' = true -> running w = true) /\
    (r = Ret tt -> running w' = true -> length new = length idxs).
Proof.
  assert (Hnil : forall w : proc output mem,
    exists new : list output, printed w = printed w ++ new /\
      Forall (fun o => is_attempt o = true) new /\
      new = [] /\ successes new = 0).
  { intros w. exists []. by rewrite app_nil_r. }
  induction idxs as [|idx rest IH]; intros w r w' H; simpl in H.
  - inv_step H. exists []. rewrite app_nil_r. unfold successes. simpl.
    repeat split; auto; lia.
  - apply bind_inv in H as [(b & w0 & Hg & H)|(e & Hg & _)]; [|inv_step Hg].
    unfold get_running in Hg. injection Hg as <- <-.
    pose proof (printed_deliver w) as Hpd. pose proof (vars_deliver w) as Hvd.
    pose proof (running_deliver w) as Hrd.
    destruct (running (deliver w)) eqn:Hrun; simpl in H.
    2: { inv_step H. exists []. rewrite app_nil_r, Hpd, Hvd.
         unfold successes. simpl.
         split; [done|]. split; [constructor|]. split; [lia|].
         split; [lia|]. split; [lia|].
         split; [congruence|intros _ Ht; congruence]. }
    destruct (df !! idx) as [row|] eqn:Hrow.
    2: { inv_step H. exists []. rewrite app_nil_r, Hpd, Hvd.
         unfold successes. simpl.
         split; [done|]. split; [constructor|]. split; [lia|].
         split; [lia|]. split; [lia|]. split; [auto|discriminate]. }
    apply bind_inv in H as [([] & w1 & Ha & H)|(e & Ha & ->)].
    2: { apply attempt_inv in Ha as (o & Hp & Ho & Hc & Hd & Hr & _).
         exists [o]. rewrite Hp, Hpd. rewrite Hvd in Hc, Hd.
         rewrite successes_cons. change (successes []) with 0. simpl length.
         split; [done|]. split; [by repeat constructor|]. split; [lia|].
         split; [lia|]. split.
         { intros Hall. rewrite Hd; [lia|].
           eapply Forall_forall in Hall; [exact Hall|].
           by eapply list_elem_of_lookup_2. }
         split; [auto|discriminate]. }
    apply attempt_inv in Ha as (o & Hp & Ho & Hc & Hd & Hr & _).
    rewrite Hpd in Hp. rewrite Hvd in Hc, Hd.
    assert (Hdrow : Forall displayable df ->
              count (vars w1) = count (vars w) + (if is_progress o then 1 else 0)).
    { intros Hall. apply Hd. eapply Forall_forall in Hall; [exact Hall|].
      by eapply list_elem_of_lookup_2. }
    clear Hd.
    apply bind_inv in H as [([] & w2 & Hs & H)|(e & Hs & ->)].
    + assert (Hq : quiet w1 w2).
      { destruct (Z.of_nat idx <? total - 1).
        - by eapply quiet_time_sleep.
        - by inv_step Hs. }
      destruct Hq as (Hp1 & Hc1 & Hr1).
      apply IH in H as (new & Hp2 & Hall & Hlen & Hc2 & Hd2 & Hr2 & Hfull).
      exists (o :: new). rewrite Hp2, Hp1, Hp, <- app_assoc.
      rewrite successes_cons. rewrite Hc1 in Hc2, Hd2.
      split; [done|]. split; [by constructor|]. split; [simpl; lia|].
      split; [simpl length; lia|]. split.
      { intros Hdf. rewrite Hd2, Hdrow by done. lia. }
      split; [auto|]. intros Hret Ht. simpl. f_equal. auto.
    + assert (Hq : quiet w1 w').
      { destruct (Z.of_nat idx <? total - 1).
        - by eapply quiet_time_sleep.
        - inv_step Hs. }
      destruct Hq as (Hp1 & Hc1 & Hr1).
      exists [o]. rewrite Hp1, Hp, Hc1. rewrite successes_cons.
      change (successes []) with 0. simpl length.
      split; [done|]. split; [by repeat constructor|]. split; [lia|].
      split; [lia|]. split; [intros Hdf; rewrite Hdrow by done; lia|].
      split; [auto|discriminate].
Qed.

(** *** Runs of the producer in which no call raises *)

Lemma returns_attempt idx row : returns (attempt idx row).
Proof.
  assert (Hins : returns (insert_row row)).
  { unfold insert_row, execute_insert, commit.
    apply returns_bind; [|intros ?; returns_tac].
    destruct (bool_decide _); returns_tac. }
  intros w Hc _. destruct (Hins w Hc I) as ([] & w1 & Hi & Hc1 & _).
  set (rest := (incr_count;;
                ts <- datetime_now;
                match progress_error row with
                | Some e => throw (Error e)
                | None => v <- get_vars; print (Progress (count v))
                end) : P unit).
  destruct (rest w1) as [r w2] eqn:H. unfold rest in H.
  assert (Hbody : (insert_row row;; rest) w = (r, w2)).
  { rewrite (bind_ret_run _ _ _ _ _ Hi). unfold rest. exact H. }
  unfold attempt, try_except. fold rest. rewrite Hbody. clear Hbody.
  pose proof H as H'. apply progress_inv in H' as (_ & _ & _ & _ & Hres).
  assert (Hc2 : calm (script w2) = true).
  { clear Hres. unfold incr_count in H.
    apply bind_inv in H as [([] & w3 & H3 & H)|(e & H3 & _)]; [|inv_step H3].
    inv_step H3.
    apply bind_inv in H as [(ts & w4 & H4 & H)|(e & H4 & _)]; [|inv_step H4].
    inv_step H4. destruct (progress_error row).
    - by inv_step H.
    - apply bind_inv in H as [(v & w5 & H5 & H)|(e & H5 & _)]; [|inv_step H5].
      inv_step H5. by inv_step H. }
  destruct (progress_error row) as [e|].
  - destruct Hres as [-> _].
    assert (Hh : returns (print (InsertError idx e);; rollback)).
    { unfold rollback. returns_tac. }
    destruct (Hh w2 Hc2 I) as ([] & w3 & Hrun & Hc3 & _). eauto.
  - destruct Hres as [-> _]. eauto.
Qed.

Lemma returns_time_sleep s : sleep_error s = None -> returns (time_sleep s).
Proof. intros Hs. unfold time_sleep. rewrite Hs. returns_tac. Qed.

Lemma returns_replay df interval total_to_send idxs :
  sleep_error interval = None ->
  Forall (fun idx => (idx < length df)%nat) idxs ->
  returns (replay df interval total_to_send idxs).
Proof.
  intros Hs. induction 1 as [|idx rest Hidx Hrest IH]; simpl; [apply returns_ret|].
  apply returns_bind; [apply returns_get_running|intros r].
  destruct r; simpl; [|apply returns_ret].
  apply lookup_lt_is_Some_2 in Hidx as [row ->].
  apply returns_bind; [apply returns_attempt|intros _].
  apply returns_bind; [|intros _; apply IH].
  destruct (Z.of_nat idx <? total_to_send - 1);
    [by apply returns_time_sleep|returns_tac].
Qed.

Lemma total_to_send_bounds max_count n :
  0 <= n -> 0 <= total_to_send max_count n <= n.
Proof. unfold total_to_send. destruct (0 <? max_count) eqn:E; lia. Qed.

Lemma returns_main max_count interval df :
  sleep_error interval = None -> returns (main max_count interval df).
Proof.
  intros Hs. unfold main, close.
  apply returns_bind; [returns_tac|intros _].
  apply returns_bind; [returns_tac|intros _].
  apply returns_bind; [returns_tac|intros _].
  apply returns_bind; [|intros _; returns_tac].
  apply returns_replay; [done|]. apply Forall_forall. intros idx Hin.
  apply elem_of_seq in Hin.
  pose proof (total_to_send_bounds max_count (Z.of_nat (length df))). lia.
Qed.

(** *** The report *)

Lemma main_inv max_count interval df w w' :
  main max_count interval df w = (Ret tt, w') ->
  let planned := total_to_send max_count (Z.of_nat (length df)) in
  exists lines,
    printed w' =
      printed w
      ++ [if 0 <? max_count then Replaying false planned
          else Replaying true (Z.of_nat (length df))]
      ++ lines ++ [Report (count (vars w')) planned] /\
    Forall (fun o => is_attempt o = true) lines /\
    Z.of_nat (length lines) <= planned /\
    successes lines <= count (vars w') <= Z.of_nat (length lines) /\
    (Forall displayable df -> count (vars w') = successes lines) /\
    (running w' = true -> Z.of_nat (length lines) = planned).
Proof.
  intros H planned. unfold main in H.
  pose proof (total_to_send_bounds max_count (Z.of_nat (length df))) as Hb.
  fold planned in H, Hb.
  apply bind_inv in H as [([] & w0 & H0 & H)|(e & H0 & ?)]; [|discriminate].
  assert (Hp0 : printed w0 = printed w).
  { apply try_except_inv in H0 as [[H0 _]|(e' & w1 & H0 & H1)].
    - by eapply printed_slot.
    - destruct e'; inv_run. }
  clear H0.
  apply bind_inv in H as [([] & w1 & H1 & H)|(e & H1 & ?)]; [|discriminate].
  apply printed_print in H1 as (_ & Hp1 & _ & _).
  apply bind_inv in H as [([] & w2 & H2 & H)|(e & H2 & ?)]; [|discriminate].
  inv_step H2.
  apply bind_inv in H as [([] & w3 & H3 & H)|(e & H3 & ?)]; [|discriminate].
  apply replay_inv in H3 as (lines & Hp3 & Hall & Hlen & Hc & Hd & _ & Hfull).
  cbn [vars count] in Hc, Hd. rewrite length_seq in Hlen, Hfull.
  change (printed {| running := running w1; script := script w1;
                     wall := wall w1; ticks := ticks w1; out := out w1;
                     vars := {| table := table (vars w1); tx := tx (vars w1);
                                count := 0 |} |}) with (printed w1) in Hp3.
  apply bind_inv in H as [([] & w4 & H4 & H)|(e & H4 & ?)]; [|discriminate].
  pose proof (quiet_close _ _ _ H4) as (Hp4 & Hc4 & Hr4).
  apply bind_inv in H as [(v & w5 & H5 & H)|(e & H5 & ?)]; [|discriminate].
  inv_step H5. apply printed_print in H as (_ & Hp & Hv & Hr).
  exists lines. rewrite Hp, Hv, Hp4, Hp3, Hp1, Hp0, Hc4, <- !app_assoc.
  assert (0 <= planned) by (apply Hb; lia).
  split; [done|]. split; [done|]. split; [lia|]. split; [lia|].
  split; [intros Hdf; rewrite Hd by done; lia|].
  intros Ht. rewrite Hr in Ht. rewrite Hfull by auto. lia.
Qed.

(** *** The insertions a run begins *)

Lemma begun_app l1 l2 : begun (l1 ++ l2) = (begun l1 + begun l2)%nat.
Proof. unfold begun. by rewrite List.filter_app, length_app. Qed.

Lemma begun_signals k : begun (replicate k SignalLine) = 0%nat.
Proof. induction k as [|k IH]; [done|]. exact IH. Qed.

Lemma begun_suffix l1 l2 : l1 `suffix_of` l2 -> (begun l1 <= begun l2)%nat.
Proof. intros [l ->]. rewrite begun_app. lia. Qed.

#[local] Instance idle_preorder : PreOrder idle.
Proof.
  split.
  - intros w. exists []. split; [apply flagged_refl|done].
  - intros w1 w2 w3 (n1 & F1 & B1) (n2 & F2 & B2). exists (n1 ++ n2).
    split; [by eapply flagged_trans|]. rewrite begun_app. lia.
Qed.

Lemma idle_slot c :
  String.eqb c "conn.cursor" = false -> preserves idle (slot c).
Proof.
  intros Hc w r w' H. eexists. split; [by eapply flagged_slot|].
  rewrite begun_app, begun_signals. unfold begun. simpl. by rewrite Hc.
Qed.

Lemma idle_modify f : preserves idle (modify f).
Proof.
  intros w r w' H. assert (Hw : w' = (modify f w).2) by (by rewrite H).
  rewrite Hw. exists []. split; [apply flagged_modify|done].
Qed.

Lemma idle_print o : preserves idle (print o).
Proof.
  intros w r w' H. assert (Hw : w' = (print o w).2) by (by rewrite H).
  rewrite Hw. exists [Line o]. split; [apply flagged_print|done].
Qed.

Lemma idle_sleep s : preserves idle (sleep s).
Proof.
  intros w r w' H. assert (Hw : w' = (sleep s w).2) by (by rewrite H).
  rewrite Hw. exists [Slept s]. split; [apply flagged_sleep|done].
Qed.

Lemma idle_datetime_now : preserves idle datetime_now.
Proof.
  intros w r w' H. assert (Hw : w' = (datetime_now w).2) by (by rewrite H).
  rewrite Hw. exists []. split; [apply flagged_datetime_now|done].
Qed.

Lemma idle_get_vars : preserves idle get_vars.
Proof. intros w r w' [= <- <-]. reflexivity. Qed.

Ltac idle_tac :=
  repeat first
    [ apply preserves_bind; [apply _| |intros ?]
    | apply preserves_try_except; [apply _| |intros ?]
    | apply preserves_ret; apply _
    | apply preserves_throw; apply _
    | apply idle_slot; reflexivity | apply idle_modify | apply idle_print
    | apply idle_sleep | apply idle_datetime_now | apply idle_get_vars ].

Lemma idle_time_sleep s : preserves idle (time_sleep s).
Proof. unfold time_sleep. destruct (sleep_error s); idle_tac. Qed.

Lemma idle_get_running : preserves idle get_running.
Proof.
  intros w r w' H. apply flagged_get_running in H as (_ & _ & H).
  eexists. split; [exact H|apply begun_signals].
Qed.

Lemma one_row_idle w w1 w2 : one_row w w1 -> idle w1 w2 -> one_row w w2.
Proof.
  intros (k & rest & F1 & B1) (n2 & F2 & B2). exists k, (rest ++ n2).
  split.
  - pose proof (flagged_trans _ _ _ _ _ F1 F2) as F.
    by rewrite <- app_assoc in F.
  - rewrite begun_app. lia.
Qed.

Lemma one_row_bind {A B} (m : P A) (k : A -> P B) :
  preserves one_row m -> (forall a, preserves idle (k a)) ->
  preserves one_row (bind m k).
Proof.
  intros Hm Hk w r w' H.
  apply bind_inv in H as [(a & w1 & H1 & H2)|(e & H1 & _)]; [|by eapply Hm].
  eapply one_row_idle; [by eapply Hm|by eapply Hk].
Qed.

Lemma one_row_try_except {A} (b : P A) h :
  preserves one_row b -> (forall e, preserves idle (h e)) ->
  preserves one_row (try_except b h).
Proof.
  intros Hb Hh w r w' H.
  apply try_except_inv in H as [[H _]|(e & w1 & H1 & H2)]; [by eapply Hb|].
  eapply one_row_idle; [by eapply Hb|by eapply Hh].
Qed.

Lemma one_row_insert_row row : preserves one_row (insert_row row).
Proof.
  intros w r w' H. unfold insert_row in H.
  apply bind_inv in H as [(now & w0 & H0 & H)|(e & H0 & _)];
    [|destruct (bool_decide _); inv_step H0].
  assert (Hw0 : out w0 = out w /\ running w0 = running w).
  { destruct (bool_decide _); by inv_step H0. }
  destruct Hw0 as [Ho Hr]. clear H0.
  assert (H1 : one_row w0 w').
  { revert H. apply (one_row_bind (slot "conn.cursor")); [|intros ?].
    - intros w1 r1 w2 H. exists (signals (script w1)).1, [].
      split; [by eapply flagged_slot|done].
    - unfold execute_insert, commit. idle_tac. }
  destruct H1 as (k & rest & (Ho' & Hf & Hs) & Hb). exists k, rest.
  split; [|done]. rewrite Ho, Hr in *. by repeat split.
Qed.

Lemma one_row_attempt idx row : preserves one_row (attempt idx row).
Proof.
  unfold attempt. apply one_row_try_except.
  - apply one_row_bind; [apply one_row_insert_row|intros ?].
    unfold incr_count. destruct (progress_error row); idle_tac.
  - intros e. unfold rollback. idle_tac.
Qed.

(** *** The replay stops on a signal *)

Lemma stopping_refl w : stopping w w.
Proof. exists []. split; [apply flagged_refl|]. by split. Qed.

Lemma idle_stopping w w' : idle w w' -> stopping w w'.
Proof.
  intros (new & F & B). exists new. split; [done|]. split; [done|].
  pose proof (begun_suffix _ _ (after_shutdown_suffix new)). lia.
Qed.

Lemma begun_after_shutdown_app (a l : list (line output)) :
  (begun (drop 1 (skip_signals (a ++ l))) <=
   begun (drop 1 (skip_signals a)) + begun l)%nat.
Proof.
  induction a as [|x a IH].
  - simpl. apply begun_suffix. etrans; [apply suffix_drop|].
    apply skip_signals_suffix.
  - destruct x; simpl; rewrite ?drop_0, ?begun_app; lia.
Qed.

Lemma begun_after_signalled (l1 l2 : list (line output)) :
  ~ Forall (fun x => is_signal_line x = false) l1 ->
  (begun (after_shutdown (l1 ++ l2)) <=
   begun (after_shutdown l1) + begun l2)%nat.
Proof.
  intros Hn. unfold after_shutdown.
  rewrite after_signal_app_signalled by done. apply begun_after_shutdown_app.
Qed.

Lemma stopping_trans w w1 w2 : stopping w w1 -> stopping w1 w2 -> stopping w w2.
Proof.
  intros (n1 & F1 & Z1 & S1) (n2 & F2 & Z2 & S2). exists (n1 ++ n2).
  split; [by eapply flagged_trans|]. split.
  - intros Hr. rewrite begun_app, (Z1 Hr).
    destruct F1 as (_ & Hf1 & _). by rewrite (Z2 (Hf1 Hr)).
  - destruct (decide (Forall (fun x : line output => is_signal_line x = false) n1))
      as [Hq|Hn].
    + unfold after_shutdown. by rewrite after_signal_app_quiet.
    + pose proof (begun_after_signalled n1 n2 Hn) as Hle.
      assert (Hr1 : running w1 = false).
      { destruct F1 as (_ & _ & Hs1).
        destruct (running w1); [by destruct (Hn (Hs1 eq_refl))|done]. }
      rewrite (Z2 Hr1) in Hle. lia.
Qed.

#[local] Instance stopping_preorder : PreOrder stopping.
Proof. split; [exact stopping_refl|exact stopping_trans]. Qed.

Lemma preserves_idle_stopping {A} (m : P A) :
  preserves idle m -> preserves stopping m.
Proof. intros H w r w' Hrun. apply idle_stopping. by eapply H. Qed.

(** A row begun while [_running] was true, and what follows it. *)
Lemma one_row_stopping w w1 w2 :
  running w = true -> one_row w w1 -> stopping w1 w2 -> stopping w w2.
Proof.
  intros Hr (k & rest & F1 & B1) (n2 & F2 & Z2 & S2).
  exists ((replicate k SignalLine ++ Called "conn.cursor" :: rest) ++ n2).
  split; [by eapply flagged_trans|]. split; [congruence|].
  destruct F1 as (_ & _ & Hs1).
  destruct k as [|k].
  - simpl. unfold after_shutdown. simpl.
    destruct (decide (Forall (fun x : line output => is_signal_line x = false) rest))
      as [Hq|Hn].
    + rewrite after_signal_app_quiet by done. exact S2.
    + assert (Hr1 : running w1 = false).
      { destruct (running w1); [|done]. specialize (Hs1 eq_refl).
        simpl in Hs1. apply Forall_cons in Hs1 as [_ Hs1]. by destruct Hn. }
      pose proof (begun_after_signalled rest n2 Hn) as Hle.
      unfold after_shutdown in Hle. rewrite (Z2 Hr1) in Hle.
      pose proof (begun_suffix _ _ (after_shutdown_suffix rest)) as Hle'.
      unfold after_shutdown in Hle'. lia.
  - assert (Hr1 : running w1 = false).
    { destruct (running w1); [|done]. specialize (Hs1 eq_refl).
      simpl in Hs1. by apply Forall_cons in Hs1 as [? _]. }
    unfold after_shutdown. rewrite <- app_assoc.
    change (replicate (S k) SignalLine ++ ?l)
      with (SignalLine :: (replicate k SignalLine ++ l)).
    simpl after_signal. rewrite skip_signals_replicate. simpl.
    rewrite drop_0, begun_app, (Z2 Hr1). lia.
Qed.

Lemma stopping_replay df interval total idxs :
  preserves stopping (replay df interval total idxs).
Proof.
  induction idxs as [|idx rest IH]; intros w r w' H; simpl in H.
  - inv_step H. reflexivity.
  - apply bind_inv in H as [(b & w0 & Hg & H)|(e & Hg & _)]; [|inv_step Hg].
    pose proof (idle_stopping _ _ (idle_get_running _ _ _ Hg)) as H0.
    unfold get_running in Hg. injection Hg as <- <-.
    destruct (running (deliver w)) eqn:Hr; simpl in H; [|by inv_step H].
    destruct (df !! idx) as [row|]; [|by inv_step H].
    etrans; [exact H0|]. clear H0.
    apply bind_inv in H as [([] & w1 & Ha & H)|(e & Ha & _)].
    2: { eapply one_row_stopping; [done|by eapply one_row_attempt|reflexivity]. }
    apply one_row_attempt in Ha.
    apply bind_inv in H as [([] & w2 & Hs & H)|(e & Hs & _)].
    + assert (Hi : idle w1 w2).
      { destruct (Z.of_nat idx <? total - 1).
        - by eapply idle_time_sleep.
        - inv_step Hs. reflexivity. }
      eapply one_row_stopping; [done|by eapply one_row_idle|by eapply IH].
    + assert (Hi : idle w1 w').
      { destruct (Z.of_nat idx <? total - 1).
        - by eapply idle_time_sleep.
        - inv_step Hs. }
      eapply one_row_stopping; [done|by eapply one_row_idle|reflexivity].
Qed.

Lemma stopping_main max_count interval df :
  preserves stopping (main max_count interval df).
Proof.
  unfold main, close.
  apply preserves_bind; [apply _| |intros ?].
  { apply preserves_idle_stopping. apply preserves_try_except; [apply _| |].
    - idle_tac.
    - intros [msg|msg]; unfold sys_exit; idle_tac. }
  apply preserves_bind; [apply _|apply preserves_idle_stopping; idle_tac|intros ?].
  apply preserves_bind; [apply _|apply preserves_idle_stopping; idle_tac|intros ?].
  apply preserves_bind; [apply _|apply stopping_replay|intros ?].
  apply preserves_idle_stopping. idle_tac.
Qed.

(** *** Runs in which no call raises and no signal arrives *)

Lemma slot_cases {O V} c (w : proc O V) r w' :
  slot c w = (r, w') ->
  vars w' = vars w /\ effects w' = effects w ++ [Called c] /\
  (r = Ret tt \/ exists e, r = Throw (Error e)).
Proof.
  intros H. split; [by apply slot_inv in H as (? & _)|].
  split; [by eapply effects_slot|by eapply result_slot].
Qed.

Lemma modify_after_slot {O V} c (f : V -> V) (w : proc O V) r w' :
  (slot c;; modify f) w = (r, w') ->
  (r = Ret tt /\ vars w' = f (vars w)) \/
  (exists e, r = Throw (Error e) /\ vars w' = vars w).
Proof.
  intros H. apply bind_inv in H as [([] & w1 & H1 & H2)|(e & H1 & ->)].
  - apply slot_cases in H1 as (Hv & _). inv_step H2. left. simpl.
    by rewrite Hv.
  - apply slot_cases in H1 as (Hv & _ & [?|[e' ->]]); [discriminate|].
    right. eauto.
Qed.

Lemma rollback_outcome w r w' :
  rollback w = (r, w') ->
  table (vars w') = table (vars w) /\ count (vars w') = count (vars w) /\
  (r = Ret tt -> tx (vars w') = []).
Proof.
  unfold rollback. intros H.
  apply modify_after_slot in H as [[-> ->]|(e & -> & ->)]; [done|].
  by repeat split.
Qed.

Lemma vars_time_sleep s (w : proc output mem) r w' :
  time_sleep s w = (r, w') -> vars w' = vars w.
Proof.
  unfold time_sleep. destruct (sleep_error s); intros H; [by inv_step H|].
  apply bind_inv in H as [([] & w1 & H1 & H)|(e & H1 & _)].
  - apply slot_cases in H1 as (Hv & _). by inv_step H.
  - by apply slot_cases in H1 as (Hv & _).
Qed.

(** A row whose insertion returns is stored and counted, whatever becomes
    of its progress line. *)
Lemma attempt_stores idx row w w1 r w' :
  insert_row row w = (Ret tt, w1) ->
  attempt idx row w = (r, w') ->
  table (vars w') = table (vars w1) /\
  count (vars w') = count (vars w1) + 1 /\
  (r = Ret tt -> tx (vars w1) = [] -> tx (vars w') = []).
Proof.
  intros Hi H. unfold attempt in H.
  apply try_except_inv in H as [[H _]|(e & w2 & H1 & H2)].
  - rewrite (bind_ret_run _ _ _ _ _ Hi) in H.
    apply progress_inv in H as (Hc & _ & Ht & Htx & _).
    rewrite Ht, Hc, Htx. auto.
  - rewrite (bind_ret_run _ _ _ _ _ Hi) in H1.
    apply progress_inv in H1 as (Hc & _ & Ht & _ & _).
    apply bind_inv in H2 as [([] & w3 & Hp & H2)|(e' & Hp & _)];
      [|inv_step Hp].
    apply printed_print in Hp as (_ & _ & Hv & _).
    apply rollback_outcome in H2 as (Ht' & Hc' & Htx').
    rewrite Ht', Hc', Hv, Ht, Hc. auto.
Qed.








Lemma attempts_all l :
  Forall (fun o => is_attempt o = true) l -> attempts l = Z.of_nat (length l).
Proof.
  unfold attempts. induction 1 as [|o l Ho Hl IH]; [done|].
  simpl. rewrite Ho. simpl. lia.
Qed.

Lemma sample_row_labels : NoDup sample_row.*1.
Proof. apply (bool_decide_unpack _). vm_compute. exact I. Qed.

Lemma sample_rows_labelled : well_labelled sample_rows.
Proof. do 3 (constructor; [apply sample_row_labels|]). constructor. Qed.

(** *** The claims about the feed producer *)

(** C3, as amended: for every [max_count > 0] and rows with distinct
    labels.  When no call raises and [--speed] is a length [time.sleep]
    accepts, the replay comes to its end.  A replay that comes to its end
    makes at most [min(max_count, N)] insertion attempts, successful or
    not, one line each, and exactly that many unless it found [_running]
    false; its last line reports [count] against the planned total
    [min(max_count, N)], where [count] is at least the number of progress
    lines and at most the number of attempts, and is the number of
    progress lines when the progress line of every row can be built.  And
    the replay stops on a shutdown signal: with [_running] cleared it
    begins no insertion, and once the call during which a first signal
    arrived is over it begins none either. *)
Theorem replay_report max_count interval df w :
  0 < max_count ->
  well_labelled df ->
  let planned := Z.min max_count (Z.of_nat (length df)) in
  (calm (script w) = true -> sleep_error interval = None ->
   exists w', main max_count interval df w = (Ret tt, w')) /\
  (forall w', main max_count interval df w = (Ret tt, w') ->
   exists lines,
     printed w' =
       printed w ++ [Replaying false planned] ++ lines
       ++ [Report (count (vars w')) planned] /\
     Forall (fun o => is_attempt o = true) lines /\
     Z.of_nat (length lines) <= planned /\
     successes lines <= count (vars w') <= Z.of_nat (length lines) /\
     (Forall displayable df -> count (vars w') = successes lines) /\
     (running w' = true -> Z.of_nat (length lines) = planned)) /\
  (forall r w', main max_count interval df w = (r, w') ->
     (running w = false -> begun (added w w') = 0%nat) /\
     begun (after_shutdown (added w w')) = 0%nat).
Proof.
  intros Hpos _ planned. split; [|split].
  - intros Hc Hs. destruct (returns_main max_count interval df Hs w Hc I)
      as ([] & w' & Hrun & _). eauto.
  - intros w' Hrun. apply main_inv in Hrun as (lines & Hp & Hrest).
    unfold total_to_send in Hp, Hrest.
    assert (Hlt : (0 <? max_count) = true) by lia. rewrite Hlt in Hp, Hrest.
    eauto.
  - intros r w' Hrun.
    destruct (stopping_main _ _ _ _ _ _ Hrun) as (new & F & Z & S).
    rewrite (flagged_added _ _ _ F). auto.
Qed.

Lemma sample_result : (main 2 1%float sample_rows sample_start).1 = Ret tt.
Proof. vm_compute. reflexivity. Qed.

Lemma sample_run : main 2 1%float sample_rows sample_start = (Ret tt, sample_end).
Proof. exact (run_eta _ _ sample_result). Qed.

Lemma interrupted_result :
  (main 2 1%float sample_rows interrupted_start).1 = Ret tt.
Proof. vm_compute. reflexivity. Qed.

Lemma replay_report_witness :
  (exists lines,
     printed sample_end =
       printed sample_start
       ++ [Replaying false (Z.min 2 (Z.of_nat (length sample_rows)))] ++ lines
       ++ [Report (count (vars sample_end))
                  (Z.min 2 (Z.of_nat (length sample_rows)))] /\
     Forall (fun o => is_attempt o = true) lines /\
     Z.of_nat (length lines) <= Z.min 2 (Z.of_nat (length sample_rows)) /\
     successes lines <= count (vars sample_end) <= Z.of_nat (length lines) /\
     (Forall displayable sample_rows ->
      count (vars sample_end) = successes lines) /\
     (running sample_end = true ->
      Z.of_nat (length lines) = Z.min 2 (Z.of_nat (length sample_rows)))) /\
  begun (after_shutdown (added interrupted_start interrupted_end)) = 0%nat.
Proof.
  split.
  - exact (proj1 (proj2 (replay_report 2 1%float sample_rows sample_start
                           eq_refl sample_rows_labelled))
             sample_end sample_run).
  - exact (proj2 (proj2 (proj2 (replay_report 2 1%float sample_rows
                                  interrupted_start eq_refl
                                  sample_rows_labelled))
                    (Ret tt) interrupted_end
                    (run_eta _ _ interrupted_result))).
Defined.

(** C3 as stated fails.  With [max_count = 2], three rows and a first
    insertion that times out, the replay stops after one success, with rows
    left and no shutdown requested; and when a signal arrives after the
    first row, the report reads 1 of 2 although one row was attempted. *)
Lemma replay_report_counterexample :
  (main 2 1%float sample_rows sample_start).1 = Ret tt /\
  printed sample_end =
    [Replaying false 2; InsertError 0 (OtherError "timeout"); Progress 1;
     Report 1 2] /\
  ~ stops_as_specified 2 sample_rows sample_end /\
  (main 2 1%float sample_rows interrupted_start).1 = Ret tt /\
  printed interrupted_end = [Replaying false 2; Progress 1; Report 1 2] /\
  ~ reports_as_specified interrupted_end.
Proof.
  split; [vm_compute; reflexivity|].
  assert (Hp : printed sample_end =
    [Replaying false 2; InsertError 0 (OtherError "timeout"); Progress 1;
     Report 1 2]) by (vm_compute; reflexivity).
  split; [exact Hp|]. split.
  { unfold stops_as_specified. rewrite Hp. intros [H|[H|H]]; vm_compute in H;
      discriminate. }
  split; [vm_compute; reflexivity|].
  assert (Hq : printed interrupted_end =
    [Replaying false 2; Progress 1; Report 1 2]) by (vm_compute; reflexivity).
  split; [exact Hq|].
  unfold reports_as_specified. rewrite Hq. vm_compute. discriminate.
Qed.

(** C8 at its failing input: the server drops the connection, the first
    insertion raises and so does [conn.rollback()] in the handler; the
    exception leaves [main], the two rows left are never attempted and
    nothing is reported. *)
Theorem replay_aborts_when_rollback_raises :
  (main 0 1%float sample_rows dropped_start).1 =
    Throw (Error (OtherError "InterfaceError: connection already closed")) /\
  effects dropped_end =
    [Called "psycopg2.connect"; Line (Replaying true 3);
     Called "conn.cursor";
     Line (InsertError 0
       (OperationalError "server closed the connection unexpectedly"));
     Called "conn.rollback"] /\
  table (vars dropped_end) = [].
Proof. repeat split; vm_compute; reflexivity. Qed.

(** When [conn.rollback()] returns, a failed insertion is logged and the
    replay goes on: the attempt itself returns. *)
Lemma attempt_skips idx row w e w1 w2 :
  insert_row row w = (Throw (Error e), w1) ->
  rollback (Proc (running w1) (script w1) (wall w1) (ticks w1)
                 (out w1 ++ [Line (InsertError idx e)]) (vars w1))
    = (Ret tt, w2) ->
  attempt idx row w = (Ret tt, w2).
Proof.
  intros H1 H2. unfold attempt, try_except.
  unfold bind at 1. rewrite H1. unfold bind, print. by rewrite H2.
Qed.




(** C10: the record [insert_row] sends carries neither [is_anomaly] nor
    [anomaly_score]; its [timestamp] is the clock's reading; every other
    column of the row is there with the row's value, a missing value as
    [None] and a numpy scalar as the native value, and so is
    [anomaly_detection_score]; it has no column the row lacks; and it is
    what a successful [insert_row] commits. *)
Theorem insert_row_frame now row :
  NoDup row.*1 ->
  build_reading now row !! "is_anomaly" = None /\
  build_reading now row !! "anomaly_score" = None /\
  (forall val, ("timestamp", val) ∈ row ->
     build_reading now row !! "timestamp" = Some (PDatetime now)) /\
  (forall col val, (col, val) ∈ row ->
     col <> "timestamp" -> col <> "is_anomaly" -> col <> "anomaly_score" ->
     build_reading now row !! col =
       Some (if isna val then PNone else item val)) /\
  (forall val, ("anomaly_detection_score", val) ∈ row ->
     build_reading now row !! "anomaly_detection_score" =
       Some (if isna val then PNone else item val)) /\
  (forall col, col ∉ row.*1 -> build_reading now row !! col = None) /\
  (forall w w', insert_row row w = (Ret tt, w') -> "timestamp" ∈ row.*1 ->
     table (vars w') =
       table (vars w) ++ tx (vars w)
       ++ [build_reading (wall w (ticks w)) row]).
Proof.
  intros Hnd.
  assert (Hcol : forall col val, (col, val) ∈ row ->
     col <> "timestamp" -> col <> "is_anomaly" -> col <> "anomaly_score" ->
     build_reading now row !! col =
       Some (if isna val then PNone else item val)).
  { intros col val Hin Hts Hia Has. rewrite build_reading_lookup.
    rewrite decide_False by (intros [?|?]; congruence).
    rewrite decide_True by (apply list_elem_of_fmap; by exists (col, val)).
    unfold stored. rewrite decide_False by done.
    by rewrite (series_get_Some row col val). }
  split; [by rewrite build_reading_lookup, decide_True by auto|].
  split; [by rewrite build_reading_lookup, decide_True by auto|].
  split.
  { intros val Hin. rewrite build_reading_lookup.
    rewrite decide_False by (intros [?|?]; discriminate).
    rewrite decide_True by (apply list_elem_of_fmap; by exists ("timestamp", val)).
    reflexivity. }
  split; [exact Hcol|].
  split; [intros val Hin; by apply Hcol|].
  split.
  { intros col Hin. rewrite build_reading_lookup.
    destruct (decide (col = "is_anomaly" \/ col = "anomaly_score")); [done|].
    destruct (decide (col ∈ row.*1)); [contradiction|done]. }
  intros w w' Hrun Hts.
  apply insert_row_commits in Hrun as (t & Ht & -> & _). by rewrite Ht.
Qed.

Lemma insert_row_frame_witness :
  build_reading 1700000000 sample_row !! "timestamp" =
    Some (PDatetime 1700000000) /\
  build_reading 1700000000 sample_row !! "anomaly_detection_score" =
    Some PNone /\
  build_reading 1700000000 sample_row !! "maintenance_alert" =
    Some (PInt 1) /\
  build_reading 1700000000 sample_row !! "is_anomaly" = None.
Proof.
  destruct (insert_row_frame 1700000000 sample_row sample_row_labels)
    as (Hia & _ & Hts & Hcol & Hads & _).
  split; [apply (Hts (CStr "2024-01-01 00:00:00")); repeat constructor|].
  split; [apply (Hads (CNpFloat nan)); repeat constructor|].
  split; [|exact Hia].
  apply (Hcol "maintenance_alert" (CNpInt 1)); [repeat constructor|..];
    discriminate.
Defined.

End RealtimeFacts.

(** ** The split *)

Module SplitFacts.

Lemma split_checked_sound len : forall first n,
  split_checked first len = true ->
  first <= Z.of_nat n < first + Z.of_nat len ->
  exists k, split_idx n TRAIN_RATIO = Some k /\ (k <= n)%nat /\
    (k = floor_split n \/ S k = floor_split n).
Proof.
  induction len as [|len IH]; intros first n Hchk Hn; [lia|].
  simpl in Hchk.
  destruct (Py.int_of_float _) as [k|] eqn:Hk; [|discriminate].
  repeat (apply andb_prop in Hchk as [Hchk ?]).
  destruct (decide (Z.of_nat n = first)) as [Heq|Hne].
  - exists (Z.to_nat k). unfold split_idx, Py.float_of_len, floor_split.
    rewrite Heq, Hk. simpl. split; [done|]. split; [lia|].
    destruct (decide (k = 7 * first / 10)); [left|right]; lia.
  - apply (IH (first + 1)); [done|lia].
Qed.

Lemma split_checked_100000 : split_checked 0 (Z.to_nat 100000) = true.
Proof. vm_compute. reflexivity. Qed.

Lemma split_exact_sound len : forall first n,
  split_exact first len = true ->
  first <= Z.of_nat n < first + Z.of_nat len ->
  split_idx n TRAIN_RATIO = Some (floor_split n).
Proof.
  induction len as [|len IH]; intros first n Hchk Hn; [lia|].
  simpl in Hchk.
  destruct (Py.int_of_float _) as [k|] eqn:Hk; [|discriminate].
  apply andb_prop in Hchk as [Heq Hchk].
  destruct (decide (Z.of_nat n = first)) as [Hfirst|Hne].
  - unfold split_idx, Py.float_of_len, floor_split.
    rewrite Hfirst, Hk. simpl. do 2 f_equal. lia.
  - apply (IH (first + 1)); [done|lia].
Qed.

Lemma split_exact_90 : split_exact 0 90 = true.
Proof. vm_compute. reflexivity. Qed.

(** C4, as amended: both scripts cut the data at [k = int(N * 0.7)],
    computed in binary64 from the same literal.  Whenever that index is
    defined, the replay set is the rows [[k, N)], it has [N - k] rows, the
    training set is the rows [[0, k)], and together they are the dataset,
    with no row in both.  For every [N] below 100000 the index is defined,
    is at most [N], and is [floor(0.7 N)] or one less; for every [N] below
    90 it is [floor(0.7 N)], and for [N = 90] it is 62, one less than
    [floor(0.7 N) = 63]. *)
Theorem split_consistent {A} (df : list A) :
  (forall k, split_idx (length df) TRAIN_RATIO = Some k ->
     Seed.train_df df = Some (take k df) /\
     Realtime.load_realtime_data df TRAIN_RATIO = Some (drop k df) /\
     take k df ++ drop k df = df /\
     length (drop k df) = (length df - k)%nat /\
     (forall i x, drop k df !! i = Some x -> df !! (k + i)%nat = Some x) /\
     (forall i x, take k df !! i = Some x -> (i < k)%nat /\ df !! i = Some x)) /\
  (Z.of_nat (length df) < 100000 ->
   exists k, split_idx (length df) TRAIN_RATIO = Some k /\
     (k <= length df)%nat /\
     (k = floor_split (length df) \/ S k = floor_split (length df))) /\
  (Z.of_nat (length df) < 90 ->
   split_idx (length df) TRAIN_RATIO = Some (floor_split (length df))) /\
  (length df = 90%nat ->
   split_idx (length df) TRAIN_RATIO = Some 62%nat /\
   floor_split (length df) = 63%nat).
Proof.
  split; [|split; [|split]].
  - intros k Hk. unfold Seed.train_df, Realtime.load_realtime_data.
    rewrite Hk. simpl.
    split; [done|]. split; [done|]. split; [apply take_drop|].
    split; [apply length_drop|]. split.
    + intros i x Hi. by rewrite lookup_drop in Hi.
    + intros i x Hi. apply lookup_take_Some in Hi as [Hi Hlt]. auto.
  - intros Hlen. apply (split_checked_sound _ 0 _ split_checked_100000). lia.
  - intros Hlen. apply (split_exact_sound _ 0 _ split_exact_90). lia.
  - intros ->. split; vm_compute; reflexivity.
Qed.

Lemma split_consistent_witness :
  Seed.train_df (seq 0 90) = Some (take 62 (seq 0 90)) /\
  Realtime.load_realtime_data (seq 0 90) TRAIN_RATIO
    = Some (drop 62 (seq 0 90)) /\
  length (drop 62 (seq 0 90)) = (length (seq 0 90) - 62)%nat.
Proof.
  destruct (proj1 (split_consistent (seq 0 90)) 62%nat eq_refl)
    as (H1 & H2 & _ & H3 & _).
  exact (conj H1 (conj H2 H3)).
Defined.

(** C4 as stated fails: of 90 rows the scripts keep 62 for training, not
    [floor(0.7 * 90) = 63], and replay 28, not 27. *)
Lemma split_counterexample :
  floor_split 90 = 63%nat /\
  split_idx 90 TRAIN_RATIO = Some 62%nat /\
  Realtime.load_realtime_data (seq 0 90) TRAIN_RATIO
    = Some (drop 62 (seq 0 90)) /\
  length (drop 62 (seq 0 90)) = 28%nat /\
  length (drop 62 (seq 0 90)) <> (90 - floor_split 90)%nat.
Proof. repeat split; try (vm_compute; reflexivity). vm_compute. discriminate. Qed.

End SplitFacts.

(** ** The scoring engine *)

Module MLEngineFacts.
Import MLEngine.

(** *** The pending fetch *)

#[local] Instance id_le_trans : Transitive id_le.
Proof. intros a b c. unfold id_le. lia. Qed.

#[local] Instance id_le_total : Total id_le.
Proof. intros a b. unfold id_le. lia. Qed.

Lemma elem_of_pending_sorted t k r :
  (k, r) ∈ pending_sorted t <-> t !! k = Some r /\ is_anomaly r = None.
Proof.
  unfold pending_sorted. rewrite merge_sort_Permutation, list_elem_of_filter.
  rewrite elem_of_map_to_list. simpl. tauto.
Qed.

Lemma NoDup_pending_sorted t : NoDup (pending_sorted t).*1.
Proof.
  unfold pending_sorted. rewrite merge_sort_Permutation.
  eapply sublist_NoDup; [apply (NoDup_fst_map_to_list t)|].
  apply fmap_sublist, sublist_filter.
Qed.

Lemma StronglySorted_lt_fst (l : list (Z * db_row)) :
  StronglySorted id_le l -> NoDup l.*1 -> StronglySorted Z.lt l.*1.
Proof.
  induction 1 as [|[k r] l Hl IH Hall]; intros Hnd; simpl; [constructor|].
  apply NoDup_cons in Hnd as [Hk Hnd]. constructor; [by apply IH|].
  apply Forall_fmap, Forall_forall. intros [k' r'] Hin. simpl.
  rewrite Forall_forall in Hall. specialize (Hall _ Hin). unfold id_le in Hall.
  simpl in Hall. assert (k <> k'); [|lia].
  intros ->. apply Hk. apply list_elem_of_fmap. by exists (k', r').
Qed.

Lemma StronglySorted_take {A} (R : relation A) n (l : list A) :
  StronglySorted R l -> StronglySorted R (take n l).
Proof.
  intros H. rewrite <- (take_drop n l) in H.
  by apply StronglySorted_app_1_l in H.
Qed.

Lemma select_pending_fst t :
  (select_pending t).*1 = take BATCH_SIZE (pending_sorted t).*1.
Proof.
  unfold select_pending. fold (pending_sorted t).
  rewrite !fmap_take, <- list_fmap_compose. done.
Qed.

Lemma elem_of_select_pending t k feats :
  (k, feats) ∈ select_pending t ->
  exists r, t !! k = Some r /\ is_anomaly r = None /\
    feats = (fun c => sensors r !! c) <$> FEATURE_COLUMNS.
Proof.
  unfold select_pending. fold (pending_sorted t). intros Hin.
  apply elem_of_take in Hin as (i & Hi & _).
  apply list_lookup_fmap_Some in Hi as ([k' r] & [= -> ->] & Hi).
  apply list_elem_of_lookup_2 in Hi. apply elem_of_pending_sorted in Hi as [? ?].
  by exists r.
Qed.

Lemma NoDup_select_pending t : NoDup (select_pending t).*1.
Proof.
  rewrite select_pending_fst.
  eapply sublist_NoDup; [apply NoDup_pending_sorted|apply sublist_take].
Qed.

(** C7: the fetch returns at most [BATCH_SIZE] rows, each a pending row of
    the table with its six feature columns, in strictly ascending order of
    id; and when more rows are pending than the limit, the ids returned
    are the smallest ones. *)
Theorem select_pending_spec (t : gmap Z db_row) :
  (length (select_pending t) <= BATCH_SIZE)%nat /\
  BATCH_SIZE = 100%nat /\
  (forall k feats, (k, feats) ∈ select_pending t ->
     exists r, t !! k = Some r /\ is_anomaly r = None /\
       feats = (fun c => sensors r !! c) <$> FEATURE_COLUMNS) /\
  StronglySorted Z.lt (select_pending t).*1 /\
  (forall k r, t !! k = Some r -> is_anomaly r = None ->
     k ∉ (select_pending t).*1 ->
     length (select_pending t) = BATCH_SIZE /\
     Forall (fun k' => k' < k) (select_pending t).*1).
Proof.
  split; [unfold select_pending; rewrite length_take; lia|].
  split; [done|]. split; [apply elem_of_select_pending|].
  assert (Hs : StronglySorted Z.lt (pending_sorted t).*1).
  { apply StronglySorted_lt_fst; [|apply NoDup_pending_sorted].
    apply StronglySorted_merge_sort; apply _. }
  split; [rewrite select_pending_fst; by apply StronglySorted_take|].
  intros k r Hk Hr Hnot. rewrite select_pending_fst in Hnot.
  assert (Hin : k ∈ (pending_sorted t).*1).
  { apply list_elem_of_fmap. exists (k, r). split; [done|].
    by apply elem_of_pending_sorted. }
  rewrite <- (take_drop BATCH_SIZE (pending_sorted t).*1) in Hin, Hs.
  apply elem_of_app in Hin as [Hin|Hin]; [done|].
  split.
  - rewrite <- (length_fmap fst), select_pending_fst, length_take.
    apply list_elem_of_lookup in Hin as [i Hi].
    apply lookup_lt_Some in Hi. rewrite length_drop in Hi. lia.
  - rewrite select_pending_fst. apply Forall_forall. intros k' Hk'.
    eapply StronglySorted_app_1_elem_of; eauto.
Qed.

(** *** The scores of a batch *)

Lemma batch_updates_map model scaler imputer rows :
  batch_updates model scaler imputer rows =
    (fun row : Z * list (option float) =>
       ((score_sample model scaler imputer (np_float64 <$> row.2)).1,
        (score_sample model scaler imputer (np_float64 <$> row.2)).2,
        row.1)) <$> rows.
Proof.
  unfold batch_updates, make_updates, predict, decision_function,
    scaler_transform, imputer_transform, score_sample.
  induction rows as [|[k feats] rows IH]; [done|].
  simpl. f_equal. exact IH.
Qed.

(** C2: the updates computed for a batch are, row by row and in the order
    of the rows, the label and the score of that row and the row's id: as
    many as there are rows, the [i]-th for the [i]-th row; each row goes
    through the imputer, then the scaler, then the estimator; the label is
    true exactly when the prediction is [-1]; the score is the decision
    value itself. *)
Theorem score_batch_aligned model scaler imputer
    (rows : list (Z * list (option float))) :
  length (batch_updates model scaler imputer rows) = length rows /\
  (forall i k feats, rows !! i = Some (k, feats) ->
     let x := standardize scaler (impute imputer (np_float64 <$> feats)) in
     batch_updates model scaler imputer rows !! i =
       Some (predict_sample model x =? -1, decision_sample model x, k)) /\
  (forall i k feats, rows !! i = Some (k, feats) ->
     batch_updates model scaler imputer rows !! i =
       Some ((score_sample model scaler imputer (np_float64 <$> feats)).1,
             (score_sample model scaler imputer (np_float64 <$> feats)).2,
             k)) /\
  (forall raw label score,
     score_sample model scaler imputer raw = (label, score) ->
     (label = true <->
      predict_sample model (standardize scaler (impute imputer raw)) = -1) /\
     score = decision_sample model (standardize scaler (impute imputer raw))).
Proof.
  rewrite batch_updates_map. split; [apply length_fmap|].
  split; [|split].
  - intros i k feats Hi x. rewrite list_lookup_fmap, Hi. done.
  - intros i k feats Hi. rewrite list_lookup_fmap, Hi. done.
  - intros raw label score [= <- <-]. split; [|done]. apply Z.eqb_eq.
Qed.

(** *** Scored rows and the writes of a transaction *)

Lemma sql_update_lookup_ne t (u : update) k :
  u.2 <> k -> sql_update t u !! k = t !! k.
Proof.
  destruct u as [[label score] row_id]. simpl. intros Hne.
  by apply lookup_alter_ne.
Qed.

Lemma sql_update_lookup t label score k :
  sql_update t (label, score, k) !! k =
    (fun r => DbRow (sensors r) (Some label) (Some score)) <$> t !! k.
Proof. simpl. apply lookup_alter_eq. Qed.

Lemma foldl_sql_update_other us : forall t k,
  Forall (fun u : update => u.2 <> k) us ->
  foldl sql_update t us !! k = t !! k.
Proof.
  induction us as [|u us IH]; intros t k Hall; [done|].
  apply Forall_cons in Hall as [Hu Hall]. simpl.
  rewrite IH by done. by apply sql_update_lookup_ne.
Qed.

(** A row that is pending after some writes was pending before them. *)
Lemma foldl_sql_update_pending us : forall t k r',
  foldl sql_update t us !! k = Some r' -> is_anomaly r' = None ->
  t !! k = Some r'.
Proof.
  induction us as [|u us IH]; intros t k r' Hk Hr; [done|].
  simpl in Hk. apply IH in Hk; [|done].
  destruct u as [[label score] row_id].
  destruct (decide (row_id = k)) as [->|Hne].
  - rewrite sql_update_lookup in Hk. destruct (t !! k); [|done].
    simpl in Hk. injection Hk as <-. discriminate.
  - by rewrite sql_update_lookup_ne in Hk.
Qed.

(** Writes aimed at pending rows leave every scored row as it is. *)
Lemma view_frozen t c k r :
  Forall (targets_pending t) (staged c) ->
  t !! k = Some r -> is_anomaly r <> None ->
  view t c !! k = Some r.
Proof.
  intros Hall Hk Hr. unfold view. rewrite foldl_sql_update_other; [done|].
  eapply Forall_impl; [exact Hall|]. intros u Hu Heq.
  apply Hr, Hu. by rewrite Heq.
Qed.

(** The updates of a batch fetched through a connection are aimed at rows
    that are pending in the table. *)
Lemma batch_targets_pending model scaler imputer t c :
  Forall (targets_pending t)
    (batch_updates model scaler imputer (select_pending (view t c))).
Proof.
  rewrite batch_updates_map. apply Forall_fmap, Forall_forall.
  intros [k feats] Hin r. simpl. intros Hk.
  apply elem_of_select_pending in Hin as (r' & Hv & Hr' & _).
  apply foldl_sql_update_pending in Hv; [|done]. congruence.
Qed.

(** Every row of a batch gets its label and score; the other rows are
    left alone. *)
Lemma foldl_sql_update_batch model scaler imputer t rows :
  NoDup rows.*1 ->
  (forall k feats r, (k, feats) ∈ rows -> t !! k = Some r ->
     foldl sql_update t (batch_updates model scaler imputer rows) !! k =
       Some (DbRow (sensors r)
               (Some (score_sample model scaler imputer (np_float64 <$> feats)).1)
               (Some (score_sample model scaler imputer (np_float64 <$> feats)).2)))
  /\ (forall k, k ∉ rows.*1 ->
     foldl sql_update t (batch_updates model scaler imputer rows) !! k = t !! k).
Proof.
  rewrite batch_updates_map. revert t.
  induction rows as [|[k0 feats0] rows IH]; intros t Hnd.
  - split; [intros k feats r Hin; by apply elem_of_nil in Hin|done].
  - cbn [fmap list_fmap fst] in Hnd. apply NoDup_cons in Hnd as [Hk0 Hnd].
    cbn [fmap list_fmap foldl fst snd].
    match goal with |- context [foldl sql_update ?t1 _] =>
      destruct (IH t1 Hnd) as [IH1 IH2] end.
    split.
    + intros k feats r Hin Hk. apply elem_of_cons in Hin as [[= -> ->]|Hin].
      * rewrite IH2 by done. rewrite sql_update_lookup, Hk. done.
      * assert (k0 <> k).
        { intros ->. apply Hk0. apply list_elem_of_fmap. by exists (k, feats). }
        apply (IH1 k feats r Hin). by rewrite sql_update_lookup_ne.
    + intros k Hk. apply not_elem_of_cons in Hk as [Hne Hk].
      rewrite IH2 by done. by apply sql_update_lookup_ne.
Qed.

(** *** [score_batch], unfolded *)

Lemma score_batch_eq model scaler imputer :
  score_batch model scaler imputer =
    (cursor;;
     slot "cur.execute SELECT pending";;
     slot "cur.fetchall";;
     v <- get_vars;
     match select_pending (view (db v) (conn v)) with
     | [] => slot "cur.close";; ret 0
     | _ =>
         slot "np.array";;
         slot "imputer.transform";;
         slot "scaler.transform";;
         slot "model.predict";;
         slot "model.decision_function";;
         executemany (batch_updates model scaler imputer
                        (select_pending (view (db v) (conn v))));;
         commit;;
         slot "cur.close";;
         ret (Z.of_nat (length (batch_updates model scaler imputer
                                  (select_pending (view (db v) (conn v))))))
     end).
Proof. reflexivity. Qed.

(** *** Outcomes are written once *)

Section Frozen.
Context (t0 : gmap Z db_row).

Local Abbreviation frozen := (frozen t0).

Lemma hoare_frozen_cursor : hoare frozen cursor (fun _ => frozen) frozen.
Proof.
  unfold cursor. eapply hoare_bind; [apply hoare_get_vars_inv|].
  intros v. simpl. destruct (closed (conn v)).
  - apply hoare_throw. tauto.
  - apply hoare_slot.
Qed.

Lemma hoare_frozen_executemany t us :
  Forall (targets_pending t) us ->
  hoare (fun v => frozen v /\ db v = t) (executemany us)
        (fun _ v => frozen v /\ db v = t) frozen.
Proof.
  induction 1 as [|u us Hu Hus IH]; simpl.
  - apply hoare_ret. tauto.
  - eapply hoare_bind.
    { apply hoare_slot_weak. tauto. }
    intros ?. simpl. eapply hoare_bind; [|intros ?; apply IH].
    apply hoare_modify. intros v [[Hst Hk] Ht]. simpl.
    split; [|done]. split; [|done]. unfold staged_pending in *. simpl.
    apply Forall_app. split; [done|]. rewrite Ht. by repeat constructor.
Qed.

Lemma frozen_commit v :
  frozen v ->
  frozen (Mem (view (db v) (conn v)) (Connection (closed (conn v)) [])
              (cycle v) (total_scored v) (total_anomalies v)).
Proof.
  intros [Hst Hk]. split; [by constructor|]. simpl.
  intros k r Hk0 Hr. apply view_frozen; auto.
Qed.

Lemma hoare_frozen_commit : hoare frozen commit (fun _ => frozen) frozen.
Proof.
  unfold commit. eapply hoare_bind; [apply hoare_slot|intros ?; simpl].
  apply hoare_modify. intros v. apply frozen_commit.
Qed.

Lemma frozen_set_conn closed v :
  frozen v -> frozen (set_conn (Connection closed []) v).
Proof. intros [Hst Hk]. split; [by constructor|done]. Qed.

Lemma hoare_frozen_close : hoare frozen close (fun _ => frozen) frozen.
Proof.
  unfold close. eapply hoare_bind; [apply hoare_slot|intros ?; simpl].
  apply hoare_modify. intros v. apply frozen_set_conn.
Qed.

Lemma hoare_frozen_get_connection :
  hoare frozen get_connection (fun _ => frozen) frozen.
Proof.
  unfold get_connection. eapply hoare_bind; [apply hoare_slot|intros ?; simpl].
  apply hoare_modify. intros v. apply frozen_set_conn.
Qed.

Lemma hoare_frozen_score_batch model scaler imputer :
  hoare frozen (score_batch model scaler imputer) (fun _ => frozen) frozen.
Proof.
  rewrite score_batch_eq.
  eapply hoare_bind; [apply hoare_frozen_cursor|intros ?; simpl].
  eapply hoare_bind; [apply hoare_slot|intros ?; simpl].
  eapply hoare_bind; [apply hoare_slot|intros ?; simpl].
  eapply hoare_bind; [apply hoare_get_vars|intros v; simpl].
  apply hoare_intro_pre. intros v' [-> Hfr].
  assert (Hpre : forall v, v = v' -> frozen v) by (by intros ? ->).
  destruct (select_pending (view (db v') (conn v'))) as [|row rows] eqn:Hrows.
  - eapply hoare_bind; [by apply hoare_slot_weak|intros ?; simpl].
    by apply hoare_ret.
  - rewrite <- Hrows.
    do 5 (eapply hoare_bind; [by apply hoare_slot_weak|intros ?; simpl]).
    eapply hoare_bind.
    { eapply hoare_conseq;
        [apply (hoare_frozen_executemany (db v')), batch_targets_pending|..].
      - intros ? ->. by split.
      - intros ? v1 H. exact H.
      - done. }
    intros ?. simpl.
    eapply hoare_bind.
    { eapply hoare_conseq; [apply hoare_frozen_commit|..].
      - tauto.
      - intros ? v1 H. exact H.
      - done. }
    intros ?. simpl.
    eapply hoare_bind; [apply hoare_slot|intros ?; simpl]. by apply hoare_ret.
Qed.

Lemma frozen_counters v c s a :
  frozen v -> frozen (Mem (db v) (conn v) c s a).
Proof. done. Qed.

Ltac frozen_step :=
  first
    [ apply hoare_frozen_cursor | apply hoare_frozen_close
    | apply hoare_frozen_get_connection | apply hoare_frozen_score_batch
    | apply hoare_slot | apply hoare_print | apply hoare_sleep
    | apply hoare_get_running | apply hoare_get_vars_inv
    | apply hoare_datetime_now
    | apply hoare_ret_inv
    | apply hoare_modify_inv; intros ? ?; by apply frozen_counters ].

Ltac frozen_seq := eapply hoare_bind; [frozen_step|intros ?; simpl].

Lemma hoare_frozen_cycle_try model scaler imputer :
  hoare frozen (cycle_try model scaler imputer) (fun _ => frozen) frozen.
Proof.
  unfold cycle_try.
  eapply hoare_bind; [frozen_step|intros scored; simpl].
  destruct (0 <? scored).
  - do 8 frozen_seq. frozen_step.
  - eapply hoare_bind; [frozen_step|intros v; simpl].
    destruct (cycle v mod 10 =? 0); [frozen_seq|]; frozen_step.
Qed.

Lemma hoare_frozen_cycle_except e :
  hoare frozen (cycle_except e) (fun _ => frozen) frozen.
Proof.
  unfold cycle_except. frozen_seq.
  eapply hoare_bind.
  { eapply hoare_try_except; [frozen_step|intros ?; frozen_step|auto]. }
  intros ?. simpl.
  eapply hoare_try_except; [|intros ?; frozen_step|auto].
  frozen_seq. frozen_step.
Qed.

Lemma hoare_frozen_cycle_body model scaler imputer :
  hoare frozen (cycle_body model scaler imputer) (fun _ => frozen) frozen.
Proof.
  unfold cycle_body, incr_cycle. frozen_seq.
  eapply hoare_bind; [|intros ?; simpl; frozen_step].
  eapply hoare_try_except;
    [apply hoare_frozen_cycle_try|apply hoare_frozen_cycle_except|auto].
Qed.

Lemma hoare_frozen_scoring_loop model scaler imputer fuel :
  hoare frozen (scoring_loop model scaler imputer fuel) (fun _ => frozen) frozen.
Proof.
  induction fuel as [|fuel IH]; simpl; [frozen_step|].
  eapply hoare_bind; [frozen_step|intros running; simpl].
  destruct running; [|frozen_step].
  eapply hoare_bind; [apply hoare_frozen_cycle_body|intros ?; simpl; exact IH].
Qed.

Lemma hoare_frozen_main model scaler imputer fuel :
  hoare frozen (main model scaler imputer fuel) (fun _ => frozen) frozen.
Proof.
  unfold main. frozen_seq.
  eapply hoare_bind; [apply hoare_frozen_scoring_loop|intros stopped; simpl].
  destruct stopped; [|frozen_step].
  do 3 frozen_seq. frozen_step.
Qed.

End Frozen.

(** C1: whatever the environment does (calls that raise, lost
    connections, signals), a run of the engine of any length leaves every
    row that already has an outcome exactly as it is; the writes of a batch
    are aimed at rows whose outcome is absent, and so are the writes in
    flight at the end. *)
Theorem outcome_written_once model scaler imputer fuel w res w' :
  staged_pending (vars w) ->
  main model scaler imputer fuel w = (res, w') ->
  (forall k r, db (vars w) !! k = Some r -> is_anomaly r <> None ->
     db (vars w') !! k = Some r) /\
  staged_pending (vars w') /\
  (forall t c, Forall (targets_pending t)
     (batch_updates model scaler imputer (select_pending (view t c)))).
Proof.
  intros Hst Hrun.
  assert (H : frozen (db (vars w)) (vars w')).
  { pose proof (hoare_frozen_main (db (vars w)) model scaler imputer fuel
                  w res w' (conj Hst (fun k r Hk _ => Hk)) Hrun) as H.
    by destruct res. }
  destruct H as [Hst' Hdb]. split; [exact Hdb|]. split; [exact Hst'|].
  intros t c. apply batch_targets_pending.
Qed.

(** *** Exceptions stay inside the cycle *)

Ltac raises_tac :=
  repeat first
    [ apply raises_errors_bind; [|intros ?]
    | apply raises_errors_slot | apply raises_errors_ret
    | apply raises_errors_throw | apply raises_errors_modify
    | apply raises_errors_print | apply raises_errors_get_vars
    | apply raises_errors_datetime_now ].

Lemma raises_errors_cursor : raises_errors cursor.
Proof.
  unfold cursor. apply raises_errors_bind; [raises_tac|intros v].
  destruct (closed (conn v)); raises_tac.
Qed.

Lemma raises_errors_executemany us : raises_errors (executemany us).
Proof. induction us as [|u us IH]; simpl; raises_tac. exact IH. Qed.

Lemma raises_errors_score_batch model scaler imputer :
  raises_errors (score_batch model scaler imputer).
Proof.
  rewrite score_batch_eq.
  apply raises_errors_bind; [apply raises_errors_cursor|intros ?].
  do 3 (apply raises_errors_bind; [raises_tac|intros ?]).
  destruct (select_pending _); [raises_tac|].
  do 5 (apply raises_errors_bind; [raises_tac|intros ?]).
  apply raises_errors_bind; [apply raises_errors_executemany|intros ?].
  unfold commit. raises_tac.
Qed.

Lemma raises_errors_cycle_try model scaler imputer :
  raises_errors (cycle_try model scaler imputer).
Proof.
  unfold cycle_try.
  apply raises_errors_bind; [apply raises_errors_score_batch|intros scored].
  destruct (0 <? scored).
  - apply raises_errors_bind; [apply raises_errors_cursor|intros ?]. raises_tac.
  - apply raises_errors_bind; [raises_tac|intros v].
    destruct (cycle v mod 10 =? 0); raises_tac.
Qed.

Lemma never_raises_cycle_except e : never_raises (cycle_except e).
Proof.
  unfold cycle_except, close, get_connection.
  apply never_raises_bind; [apply never_raises_print|intros ?].
  apply never_raises_bind; [|intros ?].
  - apply never_raises_try_except; [raises_tac|intros ?; apply never_raises_ret].
  - apply never_raises_try_except; [raises_tac|intros ?; apply never_raises_print].
Qed.

Lemma never_raises_cycle_body model scaler imputer :
  never_raises (cycle_body model scaler imputer).
Proof.
  unfold cycle_body.
  apply never_raises_bind; [apply never_raises_modify|intros ?].
  apply never_raises_bind; [|intros ?; apply never_raises_sleep].
  apply never_raises_try_except;
    [apply raises_errors_cycle_try|apply never_raises_cycle_except].
Qed.

Lemma never_raises_scoring_loop model scaler imputer fuel :
  never_raises (scoring_loop model scaler imputer fuel).
Proof.
  induction fuel as [|fuel IH]; simpl; [apply never_raises_ret|].
  apply never_raises_bind; [apply never_raises_get_running|intros running].
  destruct running; [|apply never_raises_ret].
  apply never_raises_bind; [apply never_raises_cycle_body|intros ?; exact IH].
Qed.

Lemma effects_print (w : proc output mem) o :
  effects (print o w).2 = effects w ++ [Line o].
Proof. unfold effects. simpl. by rewrite List.filter_app. Qed.

Lemma guarded_close_spec (w : proc output mem) :
  exists w',
    try_except close (fun _ => ret tt) w = (Ret tt, w') /\
    effects w' = effects w ++ [Called "conn.close"] /\
    db (vars w') = db (vars w).
Proof.
  unfold try_except, close, bind.
  destruct (slot "conn.close" w) as [r w1] eqn:H.
  pose proof (effects_slot _ _ _ _ H) as He.
  pose proof (result_slot _ _ _ _ H) as [->|[e ->]];
    apply slot_inv in H as (Hv & _).
  - eexists. split; [reflexivity|]. simpl. by rewrite Hv.
  - exists w1. split; [reflexivity|]. by rewrite Hv.
Qed.

Lemma guarded_reconnect_spec (w : proc output mem) :
  exists (reconnected : bool) w',
    try_except (get_connection;; print Reconnected)
               (fun _ => print ReconnectFailed) w = (Ret tt, w') /\
    effects w' =
      effects w ++
      [Called "psycopg2.connect";
       Line (if reconnected then Reconnected else ReconnectFailed)] /\
    db (vars w') = db (vars w) /\
    (reconnected = true -> conn (vars w') = Connection false []).
Proof.
  unfold try_except, get_connection, bind.
  destruct (slot "psycopg2.connect" w) as [r w1] eqn:H.
  pose proof (effects_slot _ _ _ _ H) as He.
  pose proof (result_slot _ _ _ _ H) as [->|[e ->]];
    apply slot_inv in H as (Hv & _).
  - exists true. eexists. split; [reflexivity|].
    unfold effects in *. simpl. rewrite List.filter_app, He, <- app_assoc.
    by rewrite Hv.
  - exists false. eexists. split; [reflexivity|].
    unfold effects in *. simpl. rewrite List.filter_app, He, <- app_assoc.
    by rewrite Hv.
Qed.

(** What the handler does, in order: it logs the error, tries to close the
    connection, tries to open a new one, and says which way that went. *)
Lemma cycle_except_spec e (w1 : proc output mem) :
  exists (reconnected : bool) w2,
    cycle_except e w1 = (Ret tt, w2) /\
    effects w2 =
      effects w1 ++
      [Line (ScoringError e); Called "conn.close"; Called "psycopg2.connect";
       Line (if reconnected then Reconnected else ReconnectFailed)] /\
    db (vars w2) = db (vars w1) /\
    (reconnected = true -> conn (vars w2) = Connection false []).
Proof.
  destruct (guarded_close_spec (print (ScoringError e) w1).2)
    as (wb & Hb & Heb & Hdb).
  destruct (guarded_reconnect_spec wb) as (ok & wc & Hc & Hec & Hdc & Hconn).
  exists ok, wc. split.
  - unfold cycle_except. unfold bind at 1. simpl in *.
    unfold bind at 1. by rewrite Hb.
  - rewrite Hec, Heb, effects_print, <- !app_assoc. simpl.
    split; [done|]. split; [by rewrite Hdc, Hdb|done].
Qed.

(** C5: no exception leaves the scoring loop, however long it runs and
    whatever the environment does; and a cycle whose [try] block raises
    logs the error, attempts to close the connection, attempts to open a
    new one, sleeps the fixed [SCORING_INTERVAL] whether or not that
    succeeded, and hands over to the next test of the loop. *)
Theorem exceptions_stay_in_cycle model scaler imputer :
  (forall fuel w, exists stopped w',
     scoring_loop model scaler imputer fuel w = (Ret stopped, w')) /\
  (forall w x w1,
     running (deliver w) = true ->
     (modify incr_cycle;; cycle_try model scaler imputer) (deliver w)
       = (Throw x, w1) ->
     exists e (reconnected : bool) w',
       x = Error e /\
       cycle_body model scaler imputer (deliver w) = (Ret tt, w') /\
       effects w' =
         effects w1 ++
         [Line (ScoringError e); Called "conn.close";
          Called "psycopg2.connect";
          Line (if reconnected then Reconnected else ReconnectFailed);
          Slept SCORING_INTERVAL] /\
       db (vars w') = db (vars w1) /\
       (reconnected = true -> conn (vars w') = Connection false []) /\
       forall fuel,
         scoring_loop model scaler imputer (S fuel) w =
           scoring_loop model scaler imputer fuel w').
Proof.
  split.
  - intros fuel w.
    destruct (scoring_loop model scaler imputer fuel w) as [[stopped|e] w'] eqn:H.
    + eauto.
    + by destruct (never_raises_scoring_loop model scaler imputer fuel w e w').
  - intros w x w1 Hrun Htry.
    assert (exists e, x = Error e) as [e ->].
    { destruct x as [e|c]; [eauto|]. exfalso.
      unfold bind, modify in Htry.
      by eapply raises_errors_cycle_try. }
    destruct (cycle_except_spec e w1) as (ok & w2 & Hexc & Heff & Hdb & Hconn).
    exists e, ok, (sleep SCORING_INTERVAL w2).2.
    assert (Hbody : cycle_body model scaler imputer (deliver w) =
                      (Ret tt, (sleep SCORING_INTERVAL w2).2)).
    { unfold cycle_body. unfold bind at 1. unfold modify at 1.
      unfold bind at 1. unfold try_except.
      unfold bind, modify in Htry. rewrite Htry, Hexc. reflexivity. }
    split; [done|]. split; [exact Hbody|]. split.
    { unfold effects in *. simpl. rewrite List.filter_app, Heff, <- app_assoc.
      done. }
    split; [done|]. split; [done|].
    intros fuel. simpl. unfold bind at 1. unfold get_running.
    rewrite Hrun. unfold bind at 1. by rewrite Hbody.
Qed.

Lemma outage_result :
  ((modify incr_cycle;; cycle_try sample_model sample_scaler sample_imputer)
     (deliver (start outage))).1
  = Throw (Error (OperationalError
        "server closed the connection unexpectedly")).
Proof. vm_compute. reflexivity. Qed.

Lemma outage_raises :
  (modify incr_cycle;; cycle_try sample_model sample_scaler sample_imputer)
    (deliver (start outage))
  = (Throw (Error (OperationalError
        "server closed the connection unexpectedly")), outage_raised).
Proof. exact (run_eta _ _ outage_result). Qed.

Lemma exceptions_stay_in_cycle_witness :
  exists e (reconnected : bool) w',
    Error (OperationalError "server closed the connection unexpectedly")
      = Error e /\
    cycle_body sample_model sample_scaler sample_imputer
      (deliver (start outage)) = (Ret tt, w') /\
    effects w' =
      effects outage_raised ++
      [Line (ScoringError e); Called "conn.close"; Called "psycopg2.connect";
       Line (if reconnected then Reconnected else ReconnectFailed);
       Slept SCORING_INTERVAL] /\
    db (vars w') = db (vars outage_raised) /\
    (reconnected = true -> conn (vars w') = Connection false []) /\
    forall fuel,
      scoring_loop sample_model sample_scaler sample_imputer (S fuel)
        (start outage) =
      scoring_loop sample_model sample_scaler sample_imputer fuel w'.
Proof.
  exact (proj2 (exceptions_stay_in_cycle sample_model sample_scaler
                  sample_imputer)
           (start outage) _ outage_raised eq_refl outage_raises).
Defined.

(** *** A cycle in which no call raises *)

Section Calm.
Context (model : IsolationForest) (scaler : StandardScaler)
        (imputer : SimpleImputer).

Local Abbreviation scored := (scored model scaler imputer).

Lemma ready_counters t v c s a :
  ready t v -> ready t (Mem (db v) (conn v) c s a).
Proof. done. Qed.

Lemma total_ready_slot t c : total (ready t) (slot c : E unit) (fun _ => ready t).
Proof. apply total_slot. Qed.

Lemma total_ready_cursor t : total (ready t) cursor (fun _ => ready t).
Proof.
  unfold cursor. eapply total_bind; [apply total_get_vars|intros v; simpl].
  apply total_intro_pre. intros v' [-> [Hdb Hconn]]. rewrite Hconn. simpl.
  eapply total_conseq; [apply (total_slot (ready t))|by intros ? ->|done].
Qed.

Lemma total_executemany t us : forall st,
  total (fun v => db v = t /\ conn v = Connection false st) (executemany us)
        (fun _ v => db v = t /\ conn v = Connection false (st ++ us)).
Proof.
  induction us as [|u us IH]; intros st; simpl.
  - apply total_ret. intros v. by rewrite app_nil_r.
  - eapply total_bind; [apply total_slot|intros ?; simpl].
    eapply total_bind; [|intros ?; simpl].
    + apply (total_modify _ _
        (fun _ v => db v = t /\ conn v = Connection false (st ++ [u]))).
      intros v [Hdb Hconn]. simpl. by rewrite Hconn.
    + eapply total_conseq; [apply (IH (st ++ [u]))|done|].
      intros ? v. by rewrite <- app_assoc.
Qed.

Lemma total_commit t us :
  total (fun v => db v = t /\ conn v = Connection false us) commit
        (fun _ => ready (foldl sql_update t us)).
Proof.
  unfold commit. eapply total_bind; [apply total_slot|intros ?; simpl].
  apply total_modify. intros v [Hdb Hconn]. unfold ready, view. simpl.
  by rewrite Hdb, Hconn.
Qed.

Lemma total_score_batch t :
  total (ready t) (score_batch model scaler imputer)
        (fun n v => ready (scored t) v /\
                    n = Z.of_nat (length (select_pending t))).
Proof.
  rewrite score_batch_eq.
  eapply total_bind; [apply total_ready_cursor|intros ?; simpl].
  eapply total_bind; [apply total_slot|intros ?; simpl].
  eapply total_bind; [apply total_slot|intros ?; simpl].
  eapply total_bind; [apply total_get_vars|intros v; simpl].
  apply total_intro_pre. intros v' [-> [Hdb Hconn]].
  assert (Hview : view (db v') (conn v') = t) by (by rewrite Hconn, Hdb).
  rewrite Hview. unfold scored.
  assert (Hpre : forall v, v = v' -> ready t v) by (by intros ? ->).
  destruct (select_pending t) as [|row rows] eqn:Hrows.
  - eapply total_bind.
    { eapply total_conseq; [apply (total_slot (ready t))|done..]. }
    intros ?. simpl. apply total_ret. intros v Hv. done.
  - rewrite <- Hrows.
    eapply total_bind.
    { eapply total_conseq; [apply (total_slot (ready t))|done..]. }
    intros ?. simpl.
    do 4 (eapply total_bind; [apply total_slot|intros ?; simpl]).
    eapply total_bind; [apply (total_executemany t _ [])|intros ?; simpl].
    eapply total_bind; [apply total_commit|intros ?; simpl].
    eapply total_bind; [apply total_slot|intros ?; simpl].
    apply total_ret. intros v Hv. split; [done|].
    by rewrite batch_updates_map, length_fmap.
Qed.

Ltac ready_step :=
  first
    [ apply total_ready_cursor | apply total_slot | apply total_print
    | apply total_sleep
    | apply total_get_vars_inv | apply total_ret_inv
    | apply total_datetime_now
    | apply total_modify_inv; intros ? ?; by apply ready_counters ].

Lemma total_cycle_try t :
  total (ready t) (cycle_try model scaler imputer) (fun _ => ready (scored t)).
Proof.
  unfold cycle_try.
  eapply total_bind; [apply total_score_batch|intros n; simpl].
  eapply total_conseq with (P' := ready (scored t)) (Q' := fun _ => ready (scored t));
    [|tauto|done].
  destruct (0 <? n).
  - do 8 (eapply total_bind; [ready_step|intros ?; simpl]). ready_step.
  - eapply total_bind; [ready_step|intros v; simpl].
    destruct (cycle v mod 10 =? 0);
      [eapply total_bind; [ready_step|intros ?; simpl]|]; ready_step.
Qed.

Lemma total_cycle_body t :
  total (ready t) (cycle_body model scaler imputer) (fun _ => ready (scored t)).
Proof.
  unfold cycle_body, incr_cycle.
  eapply total_bind; [ready_step|intros ?; simpl].
  eapply total_bind; [|intros ?; simpl; ready_step].
  apply total_try_except, total_cycle_try.
Qed.

End Calm.

(** *** What a cycle leaves in the table, whatever calls raise *)

Lemma hoare_cursor_inv (P : mem -> Prop) : hoare P cursor (fun _ => P) P.
Proof.
  unfold cursor. eapply hoare_bind; [apply hoare_get_vars_inv|].
  intros v. simpl. destruct (closed (conn v)).
  - by apply hoare_throw.
  - apply hoare_slot.
Qed.

Section Atomic.
Context (model : IsolationForest) (scaler : StandardScaler)
        (imputer : SimpleImputer) (t : gmap Z db_row) (s : Z).

Local Abbreviation scored := (scored model scaler imputer).

Local Abbreviation staging st :=
  (fun v : mem => db v = t /\ conn v = Connection false st /\
                  total_scored v = s).

Local Abbreviation settled :=
  (fun v : mem => (db v = t \/ db v = scored t) /\ total_scored v = s).

Lemma hoare_staging_executemany us : forall st,
  hoare (staging st) (executemany us) (fun _ => staging (st ++ us)) settled.
Proof.
  induction us as [|u us IH]; intros st; simpl.
  - apply hoare_ret. intros v. by rewrite app_nil_r.
  - eapply hoare_bind.
    { apply hoare_slot_weak. intros v (? & ? & ?). auto. }
    intros ?. simpl. eapply hoare_bind.
    { apply (hoare_modify _ _ (fun _ => staging (st ++ [u]))).
      intros v (Hdb & Hconn & Hs). simpl. by rewrite Hconn. }
    intros ?. simpl.
    eapply hoare_conseq; [apply (IH (st ++ [u]))|done| |done].
    intros ? v. by rewrite <- app_assoc.
Qed.

Lemma hoare_staging_commit us :
  hoare (staging us) commit
        (fun _ v => db v = foldl sql_update t us /\
                    conn v = Connection false [] /\ total_scored v = s)
        settled.
Proof.
  unfold commit. eapply hoare_bind.
  { apply hoare_slot_weak. intros v (? & ? & ?). auto. }
  intros ?. simpl. apply hoare_modify. intros v (Hdb & Hconn & Hs).
  unfold view. simpl. by rewrite Hdb, Hconn.
Qed.

Lemma hoare_atomic_score_batch :
  hoare (staging []) (score_batch model scaler imputer)
        (fun n v => db v = scored t /\ conn v = Connection false [] /\
                    total_scored v = s /\
                    n = Z.of_nat (length (select_pending t)))
        settled.
Proof.
  assert (Hweak : forall v, staging [] v -> settled v).
  { intros v (? & ? & ?). auto. }
  rewrite score_batch_eq.
  eapply hoare_bind.
  { eapply hoare_conseq; [apply (hoare_cursor_inv (staging []))|done|..].
    - intros ? v H. exact H.
    - exact Hweak. }
  intros ?. simpl.
  eapply hoare_bind; [by apply hoare_slot_weak|intros ?; simpl].
  eapply hoare_bind; [by apply hoare_slot_weak|intros ?; simpl].
  eapply hoare_bind; [apply hoare_get_vars|intros v; simpl].
  apply hoare_intro_pre. intros v' [-> (Hdb & Hconn & Hs)].
  assert (Hview : view (db v') (conn v') = t) by (by rewrite Hconn, Hdb).
  rewrite Hview.
  assert (Hpre : forall v, v = v' -> staging [] v) by (by intros ? ->).
  destruct (select_pending t) as [|row rows] eqn:Hrows.
  - eapply hoare_bind.
    { eapply hoare_conseq; [apply (hoare_slot_weak (staging []) settled)|..];
        [exact Hweak|exact Hpre| |done].
      intros ? v H. exact H. }
    intros ?. simpl. apply hoare_ret. intros v (? & ? & ?).
    unfold MLEngine.scored. rewrite Hrows. by repeat split.
  - rewrite <- Hrows.
    eapply hoare_bind.
    { eapply hoare_conseq; [apply (hoare_slot_weak (staging []) settled)|..];
        [exact Hweak|exact Hpre| |done].
      intros ? v H. exact H. }
    intros ?. simpl.
    do 4 (eapply hoare_bind; [by apply hoare_slot_weak|intros ?; simpl]).
    eapply hoare_bind; [apply (hoare_staging_executemany _ [])|intros ?; simpl].
    eapply hoare_bind; [apply hoare_staging_commit|intros ?; simpl].
    eapply hoare_bind.
    { apply (hoare_slot_weak
               (fun v => db v = scored t /\ conn v = Connection false [] /\
                         total_scored v = s) settled).
      intros v (? & ? & ?). auto. }
    intros ?. simpl. apply hoare_ret. intros v (? & ? & ?).
    repeat split; try done.
    by rewrite batch_updates_map, length_fmap.
Qed.

Lemma hoare_atomic_cycle_try :
  hoare (staging []) (cycle_try model scaler imputer)
        (fun _ v => db v = scored t /\
                    total_scored v = s + Z.of_nat (length (select_pending t)))
        settled.
Proof.
  unfold cycle_try.
  eapply hoare_bind; [apply hoare_atomic_score_batch|intros n; simpl].
  apply hoare_intro_pre. intros v0 (Hdb0 & Hconn0 & Hs0 & ->).
  set (n := Z.of_nat (length (select_pending t))).
  set (P := fun v : mem => db v = scored t /\ total_scored v = s).
  assert (HPX : forall v, P v -> settled v) by (intros v [? ?]; auto).
  assert (Hpre : forall v, v = v0 -> P v) by (by intros ? ->).
  destruct (0 <? n) eqn:Hn.
  - eapply hoare_bind.
    { eapply hoare_conseq; [apply (hoare_cursor_inv P)|exact Hpre| |exact HPX].
      intros ? v H. exact H. }
    intros ?. simpl.
    eapply hoare_bind; [by apply hoare_slot_weak|intros ?; simpl].
    eapply hoare_bind; [by apply hoare_slot_weak|intros ?; simpl].
    eapply hoare_bind.
    { apply (hoare_modify P _ (fun _ => P)). by intros v [? ?]. }
    intros ?. simpl.
    eapply hoare_bind; [by apply hoare_slot_weak|intros ?; simpl].
    eapply hoare_bind.
    { apply (hoare_modify P _
               (fun _ v => db v = scored t /\ total_scored v = s + n)).
      intros v [? Hs]. simpl. by rewrite Hs. }
    intros ?. simpl.
    eapply hoare_bind; [apply hoare_datetime_now|intros ?; simpl].
    eapply hoare_bind; [apply hoare_get_vars_inv|intros ?; simpl].
    apply hoare_print.
  - assert (Hz : n = 0) by lia.
    eapply hoare_bind.
    { eapply hoare_conseq; [apply (hoare_get_vars_inv P)|exact Hpre| |exact HPX].
      intros ? v H. exact H. }
    intros v. simpl.
    assert (HQ : forall v, P v -> db v = scored t /\ total_scored v = s + n).
    { intros ? [? ->]. split; [done|lia]. }
    destruct (cycle v mod 10 =? 0).
    + eapply hoare_bind; [apply hoare_datetime_now|intros ?; simpl].
      eapply hoare_conseq; [apply (hoare_print P)|done| |exact HPX].
      intros ? ?. apply HQ.
    + by apply hoare_ret.
Qed.

Lemma hoare_settled_cycle_except e :
  hoare settled (cycle_except e) (fun _ => settled) settled.
Proof.
  unfold cycle_except, close, get_connection.
  eapply hoare_bind; [apply hoare_print|intros ?; simpl].
  eapply hoare_bind.
  { eapply hoare_try_except with (H := settled);
      [|intros ?; apply hoare_ret_inv|done].
    eapply hoare_bind; [apply hoare_slot|intros ?; simpl].
    by apply hoare_modify_inv. }
  intros ?. simpl.
  eapply hoare_try_except with (H := settled);
    [|intros ?; apply hoare_print|done].
  eapply hoare_bind; [|intros ?; simpl; apply hoare_print].
  eapply hoare_bind; [apply hoare_slot|intros ?; simpl].
  by apply hoare_modify_inv.
Qed.

Lemma hoare_atomic_cycle_body :
  hoare (staging []) (cycle_body model scaler imputer)
    (fun _ v =>
       (db v = t /\ total_scored v = s) \/
       (db v = scored t /\
        (total_scored v = s \/
         total_scored v = s + Z.of_nat (length (select_pending t)))))
    (fun _ => False).
Proof.
  set (Q := fun v : mem =>
       (db v = t /\ total_scored v = s) \/
       (db v = scored t /\
        (total_scored v = s \/
         total_scored v = s + Z.of_nat (length (select_pending t))))).
  intros w r w' HP Hrun.
  destruct r as [[]|e];
    [|by destruct (never_raises_cycle_body model scaler imputer w e w')].
  revert w w' HP Hrun.
  change (forall w w', staging [] (vars w) ->
            cycle_body model scaler imputer w = (Ret tt, w') -> Q (vars w')).
  assert (H : hoare (staging []) (cycle_body model scaler imputer)
                (fun _ => Q) (fun _ => True)).
  { unfold cycle_body, incr_cycle.
    eapply hoare_bind.
    { by apply (hoare_modify (staging []) _ (fun _ => staging [])). }
    intros ?. simpl.
    eapply hoare_bind; [|intros ?; simpl; apply hoare_sleep].
    eapply hoare_try_except with (H := settled).
    - eapply hoare_conseq; [apply hoare_atomic_cycle_try|done| |done].
      intros ? v [? ?]. right. auto.
    - intros e. eapply hoare_conseq; [apply hoare_settled_cycle_except|done| |done].
      intros ? v [[?|?] ?]; [left|right]; auto.
    - done. }
  intros w w' HP Hrun. apply (H w (Ret tt) w' HP Hrun).
Qed.

End Atomic.

(** *** Signals do not change what a cycle does *)

Ltac blind_tac :=
  repeat first
    [ apply signal_blind_bind; [|intros ?]
    | apply signal_blind_slot | apply signal_blind_ret
    | apply signal_blind_throw | apply signal_blind_modify
    | apply signal_blind_print | apply signal_blind_sleep ].

Lemma signal_blind_cursor : signal_blind cursor.
Proof.
  unfold cursor. apply signal_blind_get_vars_bind. intros v.
  destruct (closed (conn v)); blind_tac.
Qed.

Lemma signal_blind_executemany us : signal_blind (executemany us).
Proof. induction us as [|u us IH]; simpl; blind_tac. exact IH. Qed.

Lemma signal_blind_score_batch model scaler imputer :
  signal_blind (score_batch model scaler imputer).
Proof.
  rewrite score_batch_eq.
  apply signal_blind_bind; [apply signal_blind_cursor|intros ?].
  do 2 (apply signal_blind_bind; [blind_tac|intros ?]).
  apply signal_blind_get_vars_bind. intros v.
  destruct (select_pending _); [blind_tac|].
  do 5 (apply signal_blind_bind; [blind_tac|intros ?]).
  apply signal_blind_bind; [apply signal_blind_executemany|intros ?].
  unfold commit. blind_tac.
Qed.

Lemma signal_blind_cycle_body model scaler imputer :
  signal_blind (cycle_body model scaler imputer).
Proof.
  unfold cycle_body.
  apply signal_blind_bind; [blind_tac|intros ?].
  apply signal_blind_bind; [|intros ?; blind_tac].
  apply signal_blind_try_except.
  - unfold cycle_try.
    apply signal_blind_bind; [apply signal_blind_score_batch|intros n].
    destruct (0 <? n).
    + apply signal_blind_bind; [apply signal_blind_cursor|intros ?].
      do 5 (apply signal_blind_bind; [blind_tac|intros ?]).
      apply signal_blind_datetime_now_bind. intros now.
      apply signal_blind_get_vars_bind. intros v. blind_tac.
    + apply signal_blind_get_vars_bind. intros v.
      destruct (cycle v mod 10 =? 0); [|blind_tac].
      apply signal_blind_datetime_now_bind. intros now. blind_tac.
  - intros e. unfold cycle_except, close, get_connection.
    apply signal_blind_bind; [blind_tac|intros ?].
    apply signal_blind_bind; [|intros ?].
    + apply signal_blind_try_except; [blind_tac|intros ?; blind_tac].
    + apply signal_blind_try_except; [blind_tac|intros ?; blind_tac].
Qed.

Lemma same_work_without_signals {O V} (w : proc O V) :
  same_work w (without_signals w).
Proof. by repeat split. Qed.

(** C6, as amended: signals never change what a cycle does: with the
    signals taken out of the script the cycle returns or raises the same,
    leaves the same variables and store, and makes the same calls.  In a
    cycle begun with an open connection and nothing in flight, during
    which no call raises, whatever signals arrive, the cycle runs to its
    end, the table then holds the label and the score of every row of the
    batch that was fetched (and every other row as it was), and only the
    test at the top of the next turn finds [_running] false and leaves the
    loop, with the table as the cycle left it.  And whatever calls raise,
    such a cycle returns and leaves the table as it found it or with the
    whole batch scored: a batch is never written in part. *)
Theorem graceful_shutdown model scaler imputer w :
  ((cycle_body model scaler imputer w).1 =
     (cycle_body model scaler imputer (without_signals w)).1 /\
   same_work (cycle_body model scaler imputer w).2
             (cycle_body model scaler imputer (without_signals w)).2) /\
  (calm (script w) = true ->
   conn (vars w) = Connection false [] ->
   exists w1,
    cycle_body model scaler imputer w = (Ret tt, w1) /\
    db (vars w1) = scored model scaler imputer (db (vars w)) /\
    conn (vars w1) = Connection false [] /\
    (forall k feats, (k, feats) ∈ select_pending (db (vars w)) ->
       exists r, db (vars w) !! k = Some r /\ is_anomaly r = None /\
         db (vars w1) !! k =
           Some (DbRow (sensors r)
             (Some (score_sample model scaler imputer (np_float64 <$> feats)).1)
             (Some (score_sample model scaler imputer (np_float64 <$> feats)).2))) /\
    (forall k, k ∉ (select_pending (db (vars w))).*1 ->
       db (vars w1) !! k = db (vars w) !! k) /\
    (running w1 = false ->
     forall fuel, exists w2,
       scoring_loop model scaler imputer (S fuel) w1 = (Ret true, w2) /\
       vars w2 = vars w1)) /\
  (conn (vars w) = Connection false [] ->
   forall r w1, cycle_body model scaler imputer w = (r, w1) ->
     r = Ret tt /\
     (db (vars w1) = db (vars w) \/
      db (vars w1) = scored model scaler imputer (db (vars w)))).
Proof.
  split; [|split].
  { apply signal_blind_cycle_body, same_work_without_signals. }
  - intros Hcalm Hconn.
    destruct (total_cycle_body model scaler imputer (db (vars w)) w Hcalm
                (conj eq_refl Hconn)) as ([] & w1 & Hrun & _ & [Hdb Hc1]).
    exists w1. split; [done|]. split; [done|]. split; [done|].
    destruct (foldl_sql_update_batch model scaler imputer (db (vars w))
                (select_pending (db (vars w))) (NoDup_select_pending _))
      as [Hin Hout].
    split; [|split].
    + intros k feats Hk.
      destruct (elem_of_select_pending _ _ _ Hk) as (r & Hr & Hnone & _).
      exists r. split; [done|]. split; [done|]. rewrite Hdb. by apply Hin.
    + intros k Hk. rewrite Hdb. by apply Hout.
    + intros Hstop fuel. exists (deliver w1). simpl.
      unfold bind, get_running. rewrite (running_deliver_false _ Hstop).
      split; [done|apply vars_deliver].
  - intros Hconn r w1 Hrun.
    pose proof (hoare_atomic_cycle_body model scaler imputer (db (vars w))
                  (total_scored (vars w)) w r w1
                  (conj eq_refl (conj Hconn eq_refl)) Hrun) as H.
    destruct r as [[]|e]; [|done]. split; [done|].
    destruct H as [[? _]|[? _]]; auto.
Qed.

Lemma graceful_shutdown_witness :
  running mid_cycle = true /\
  cycle_body sample_model sample_scaler sample_imputer mid_cycle
    = (Ret tt, mid_cycle_end) /\
  running mid_cycle_end = false /\
  (is_anomaly <$> db (vars mid_cycle_end) !! 1) = Some (Some true) /\
  (is_anomaly <$> db (vars mid_cycle_end) !! 3) = Some (Some false) /\
  (is_anomaly <$> db (vars mid_cycle_end) !! 7) = Some (Some false) /\
  exists w2,
    scoring_loop sample_model sample_scaler sample_imputer 1 mid_cycle_end
      = (Ret true, w2) /\
    vars w2 = vars mid_cycle_end.
Proof.
  destruct (proj1 (proj2 (graceful_shutdown sample_model sample_scaler
                            sample_imputer mid_cycle)) eq_refl eq_refl)
    as (w1 & Hrun & Hdb & _ & _ & _ & Hexit).
  assert (Hw1 : w1 = mid_cycle_end) by (unfold mid_cycle_end; by rewrite Hrun).
  subst w1.
  assert (Hstop : running mid_cycle_end = false) by (vm_compute; reflexivity).
  split; [reflexivity|]. split; [exact Hrun|]. split; [exact Hstop|].
  rewrite Hdb.
  split; [vm_compute; reflexivity|]. split; [vm_compute; reflexivity|].
  split; [vm_compute; reflexivity|].
  exact (Hexit Hstop 0%nat).
Defined.

(** C6 as stated fails.  A signal arrives while the batch of rows 1, 3
    and 7 is being fetched, and [conn.commit()] then raises: the handler
    logs the error and reconnects, the test at the top of the next turn
    finds [_running] false, and the engine stops with a summary of 0 rows,
    none of the three rows of the batch in flight having its outcome. *)
Lemma graceful_shutdown_counterexample :
  running abandoned_start = true /\
  (select_pending (db (vars abandoned_start))).*1 = [1; 3; 7] /\
  (main sample_model sample_scaler sample_imputer 5 abandoned_start).1
    = Ret true /\
  out abandoned_end =
    [Called "conn.cursor"; Called "cur.execute SELECT pending"; SignalLine;
     Called "cur.fetchall"; Called "np.array"; Called "imputer.transform";
     Called "scaler.transform"; Called "model.predict";
     Called "model.decision_function"; Called "cur.execute UPDATE";
     Called "cur.execute UPDATE"; Called "cur.execute UPDATE";
     Called "conn.commit";
     Line (ScoringError
             (OperationalError "server closed the connection unexpectedly"));
     Called "conn.close"; Called "psycopg2.connect"; Line Reconnected;
     Slept SCORING_INTERVAL; Called "conn.close"; Line (Stopped 0 0)] /\
  (is_anomaly <$> db (vars abandoned_end) !! 1) = Some None /\
  (is_anomaly <$> db (vars abandoned_end) !! 3) = Some None /\
  (is_anomaly <$> db (vars abandoned_end) !! 7) = Some None.
Proof. repeat split; vm_compute; reflexivity. Qed.

Lemma outage_main_result :
  (main sample_model sample_scaler sample_imputer 3 (start outage)).1
    = Ret false.
Proof. vm_compute. reflexivity. Qed.

Lemma outcome_written_once_witness :
  (forall k r, db (vars (start outage)) !! k = Some r ->
     is_anomaly r <> None -> db (vars outage_end) !! k = Some r) /\
  staged_pending (vars outage_end) /\
  (forall t c, Forall (targets_pending t)
     (batch_updates sample_model sample_scaler sample_imputer
        (select_pending (view t c)))).
Proof.
  exact (outcome_written_once sample_model sample_scaler sample_imputer 3
           (start outage) (Ret false) outage_end (Forall_nil_2 _)
           (run_eta _ _ outage_main_result)).
Defined.

End MLEngineFacts.

(** ** Runs of the feed producer *)

Module RealtimeRuns.
Import Realtime RealtimeFacts.

(** *** The connection is refused *)

Lemma slot_raises {O V} c (w : proc O V) e rest :
  script (deliver w) = Raise e :: rest ->
  slot c w =
    (Throw (Error e),
     Proc (running (deliver w)) rest (wall (deliver w)) (ticks (deliver w))
          (out (deliver w) ++ [Called c]) (vars (deliver w))).
Proof.
  intros H. unfold slot. cbn [script running wall ticks out vars].
  by rewrite H.
Qed.

(** X1: when [psycopg2.connect] raises an [OperationalError] the producer
    reports it and exits with status 1; any other exception of the call
    leaves [main] as it is.  Either way no other call is made: nothing is
    read from the rows and nothing is stored. *)
Theorem connect_failure_exits max_count interval df w e rest :
  script (deliver w) = Raise e :: rest ->
  exists w',
    main max_count interval df w =
      (Throw (match e with
              | OperationalError _ => SystemExit 1
              | OtherError _ => Error e
              end), w') /\
    vars w' = vars w /\
    effects w' =
      effects w ++
      Called "psycopg2.connect" ::
      match e with
      | OperationalError _ => [Line (ConnectionFailed e)]
      | OtherError _ => []
      end.
Proof.
  intros H. unfold main. unfold bind at 1. unfold try_except.
  rewrite (slot_raises _ _ _ _ H).
  destruct e as [msg|msg].
  - eexists. split; [reflexivity|]. split; [apply vars_deliver|].
    unfold effects. cbn [out]. rewrite !List.filter_app.
    fold (effects (deliver w)). rewrite effects_deliver, <- app_assoc. done.
  - eexists. split; [reflexivity|]. split; [apply vars_deliver|].
    unfold effects. cbn [out]. rewrite !List.filter_app.
    fold (effects (deliver w)). by rewrite effects_deliver.
Qed.

(** *** What a failed insertion leaves behind *)

Lemma insert_row_outcome row w r w' :
  tx (vars w) = [] ->
  insert_row row w = (r, w') ->
  exists now,
    (r = Ret tt /\
     table (vars w') = table (vars w) ++ [build_reading now row] /\
     tx (vars w') = []) \/
    (exists e, r = Throw (Error e) /\
       table (vars w') = table (vars w) /\
       (tx (vars w') = [] \/ tx (vars w') = [build_reading now row])) \/
    (exists e, r = Throw (Error e) /\
       table (vars w') = table (vars w) ++ [build_reading now row] /\
       tx (vars w') = [] /\
       last (effects w') = Some (Called "cur.close")).
Proof.
  intros Htx H. unfold insert_row in H.
  apply bind_inv in H as [(now & w0 & H0 & H)|(e & H0 & _)];
    [|destruct (bool_decide _); inv_step H0].
  assert (Hv0 : vars w0 = vars w).
  { destruct (bool_decide _); by inv_step H0. }
  clear H0. exists now.
  apply bind_inv in H as [([] & w1 & H1 & H)|(e & H1 & ->)].
  2: { apply slot_cases in H1 as (Hv & _ & [?|[e' ->]]); [discriminate|].
       right. left. exists e'. rewrite Hv, Hv0. auto. }
  apply slot_cases in H1 as (Hv1 & _).
  apply bind_inv in H as [([] & w2 & H2 & H)|(e & H2 & ->)].
  2: { apply modify_after_slot in H2 as [[? _]|(e' & -> & Hv)]; [discriminate|].
       right. left. exists e'. rewrite Hv, Hv1, Hv0. auto. }
  apply modify_after_slot in H2 as [[_ Hv2]|(e' & ? & _)]; [|discriminate].
  apply bind_inv in H as [([] & w3 & H3 & H)|(e & H3 & ->)].
  2: { apply modify_after_slot in H3 as [[? _]|(e' & -> & Hv)]; [discriminate|].
       right. left. exists e'. rewrite Hv, Hv2, Hv1, Hv0. simpl.
       rewrite Htx. auto. }
  apply modify_after_slot in H3 as [[_ Hv3]|(e' & ? & _)]; [|discriminate].
  apply slot_cases in H as (Hv & He & Hr).
  assert (Htab : table (vars w') = table (vars w) ++ [build_reading now row] /\
                 tx (vars w') = []).
  { rewrite Hv, Hv3, Hv2, Hv1, Hv0. simpl. by rewrite Htx. }
  destruct Htab as [Htab Htx']. destruct Hr as [->|[e' ->]].
  - left. auto.
  - right. right. exists e'. rewrite He, last_snoc. auto.
Qed.

(** X2: an insertion that raises has stored nothing, unless it is
    [cur.close()] that raised, after the commit: the record is then in the
    table although the insertion counts as failed.  When the commit itself
    raises the record is left in the open transaction, for the handler's
    rollback to drop. *)
Theorem failed_insertion_may_be_stored row w x w' :
  tx (vars w) = [] ->
  insert_row row w = (Throw x, w') ->
  exists now e,
    x = Error e /\
    ((table (vars w') = table (vars w) /\
      (tx (vars w') = [] \/ tx (vars w') = [build_reading now row])) \/
     (table (vars w') = table (vars w) ++ [build_reading now row] /\
      tx (vars w') = [] /\
      last (effects w') = Some (Called "cur.close"))).
Proof.
  intros Htx H.
  destruct (insert_row_outcome row w _ w' Htx H)
    as (now & [[? _]|[(e & [= ->] & Ht)|(e & [= ->] & Ht)]]); [discriminate|..];
    exists now, e; auto.
Qed.

(** *** The records of a replay *)

Lemma attempt_fails idx row w e wi r w' :
  insert_row row w = (Throw (Error e), wi) ->
  attempt idx row w = (r, w') ->
  table (vars w') = table (vars wi) /\ count (vars w') = count (vars wi) /\
  (r = Ret tt -> tx (vars w') = []).
Proof.
  intros Hi H. unfold attempt in H.
  apply try_except_inv in H as [[H Hne]|(e' & w2 & H1 & H2)].
  - rewrite (bind_throw_run _ _ _ _ _ Hi) in H. injection H as <- <-.
    by destruct (Hne e).
  - rewrite (bind_throw_run _ _ _ _ _ Hi) in H1. injection H1 as <- <-.
    apply bind_inv in H2 as [([] & w3 & Hp & H2)|(e' & Hp & _)];
      [|inv_step Hp].
    apply printed_print in Hp as (_ & _ & Hv & _).
    apply rollback_outcome in H2 as (Ht & Hc & Htx).
    rewrite Ht, Hc, Hv. auto.
Qed.

Lemma attempt_outcome idx row w r w' :
  tx (vars w) = [] ->
  attempt idx row w = (r, w') ->
  exists recs,
    table (vars w') = table (vars w) ++ recs /\
    (recs = [] \/ exists now, recs = [build_reading now row]) /\
    count (vars w) <= count (vars w') <=
      count (vars w) + Z.of_nat (length recs) /\
    (r = Ret tt -> tx (vars w') = []).
Proof.
  intros Htx H. destruct (insert_row row w) as [ri wi] eqn:Hi.
  assert (Hc1 : count (vars wi) = count (vars w))
    by (by destruct (quiet_insert_row _ _ _ _ Hi) as (_ & ? & _)).
  destruct (insert_row_outcome row w _ wi Htx Hi)
    as (now & [(-> & Ht & Htx1)|[(e & -> & Ht & _)|(e & -> & Ht & _)]]).
  - destruct (attempt_stores _ _ _ _ _ _ Hi H) as (Ht' & Hc' & Htx').
    exists [build_reading now row]. rewrite Ht', Ht, Hc', Hc1. simpl.
    split; [done|]. split; [eauto|]. split; [lia|auto].
  - destruct (attempt_fails _ _ _ _ _ _ _ Hi H) as (Ht' & Hc' & Htx').
    exists []. rewrite Ht', Ht, Hc', Hc1, app_nil_r. simpl.
    split; [done|]. split; [auto|]. split; [lia|done].
  - destruct (attempt_fails _ _ _ _ _ _ _ Hi H) as (Ht' & Hc' & Htx').
    exists [build_reading now row]. rewrite Ht', Ht, Hc', Hc1. simpl.
    split; [done|]. split; [eauto|]. split; [lia|done].
Qed.

Lemma replay_outcome df interval planned idxs : forall w r w',
  tx (vars w) = [] ->
  replay df interval planned idxs w = (r, w') ->
  exists picks recs,
    table (vars w') = table (vars w) ++ recs /\
    records_of df picks recs /\
    sublist picks idxs /\
    count (vars w) <= count (vars w') <=
      count (vars w) + Z.of_nat (length recs) /\
    (r = Ret tt -> tx (vars w') = []).
Proof.
  assert (Hnone : forall (w w' : proc output mem) (l : list nat),
    vars w' = vars w ->
    exists picks recs,
      table (vars w') = table (vars w) ++ recs /\
      records_of df picks recs /\ sublist picks l /\
      count (vars w) <= count (vars w') <=
        count (vars w) + Z.of_nat (length recs) /\
      (tx (vars w) = [] -> tx (vars w') = [])).
  { intros w w' l ->. exists [], []. rewrite app_nil_r. simpl.
    split; [done|]. split; [constructor|].
    split; [apply sublist_nil_l|]. split; [lia|done]. }
  induction idxs as [|idx rest IH]; intros w r w' Htx H; simpl in H.
  - inv_step H. destruct (Hnone w w [] eq_refl) as (p & rs & ? & ? & ? & ? & ?).
    exists p, rs. intuition.
  - apply bind_inv in H as [(b & w0 & Hg & H)|(e & Hg & _)]; [|inv_step Hg].
    unfold get_running in Hg. injection Hg as <- <-.
    pose proof (vars_deliver w) as Hvd.
    assert (Hstop : forall r, ret tt (deliver w) = (r, w') \/
                              throw (Error (OtherError "IndexError")) (deliver w)
                                = (r, w') ->
      exists picks recs,
        table (vars w') = table (vars w) ++ recs /\
        records_of df picks recs /\ sublist picks (idx :: rest) /\
        count (vars w) <= count (vars w') <=
          count (vars w) + Z.of_nat (length recs) /\
        (r = Ret tt -> tx (vars w') = [])).
    { intros r0 Hr0.
      assert (Hw : w' = deliver w) by (destruct Hr0 as [Hr0|Hr0]; by inv_step Hr0).
      destruct (Hnone w w' (idx :: rest)) as (p & rs & ? & ? & ? & ? & ?);
        [by rewrite Hw|].
      exists p, rs. intuition. }
    destruct (running (deliver w)); simpl in H; [|by apply Hstop; left].
    destruct (df !! idx) as [row|] eqn:Hrow; [|by apply Hstop; right].
    clear Hstop.
    assert (Htxd : tx (vars (deliver w)) = []) by (by rewrite Hvd).
    assert (Hone : forall r1 w1, attempt idx row (deliver w) = (r1, w1) ->
      exists picks recs,
        table (vars w1) = table (vars w) ++ recs /\
        records_of df picks recs /\ sublist picks [idx] /\
        length picks = length recs /\
        count (vars w) <= count (vars w1) <=
          count (vars w) + Z.of_nat (length recs) /\
        (r1 = Ret tt -> tx (vars w1) = [])).
    { intros r1 w1 Ha.
      destruct (attempt_outcome _ _ _ _ _ Htxd Ha)
        as (recs1 & Ht1 & Hrec1 & Hc1 & Htx1).
      rewrite Hvd in Ht1, Hc1. destruct Hrec1 as [->|[now ->]].
      - exists [], []. split; [done|]. split; [constructor|].
        split; [apply sublist_nil_l|]. auto.
      - exists [idx], [build_reading now row]. split; [done|].
        split; [repeat constructor; eauto|]. split; [done|]. auto. }
    assert (Hw : forall picks (recs : list (gmap string pyval)),
              sublist picks [idx] -> sublist picks (idx :: rest)).
    { intros picks recs Hsub.
      pose proof (sublist_app _ _ _ _ Hsub (sublist_nil_l rest)) as Hs.
      by rewrite app_nil_r in Hs. }
    apply bind_inv in H as [([] & w1 & Ha & H)|(e & Ha & ->)].
    2: { destruct (Hone _ _ Ha) as (p & rs & ? & ? & ? & ? & ? & ?).
         exists p, rs. split; [done|]. split; [done|].
         split; [by eapply Hw|]. split; [done|discriminate]. }
    destruct (Hone _ _ Ha) as (p1 & rs1 & Ht1 & Hrecs1 & Hsub1 & Hlen1 & Hc1 & Htx1).
    apply bind_inv in H as [([] & w2 & Hs & H)|(e & Hs & ->)].
    + assert (Hv2 : vars w2 = vars w1).
      { destruct (Z.of_nat idx <? planned - 1);
          [by eapply vars_time_sleep|by inv_step Hs]. }
      assert (Htx2 : tx (vars w2) = []) by (rewrite Hv2; auto).
      destruct (IH _ _ _ Htx2 H) as (picks & recs & Ht & Hrecs & Hsub & Hc & Htx').
      rewrite Hv2 in Ht, Hc.
      exists (p1 ++ picks), (rs1 ++ recs).
      rewrite Ht, Ht1, <- app_assoc, length_app.
      split; [done|]. split; [by apply Forall2_app|]. split.
      { change (idx :: rest) with ([idx] ++ rest). by apply sublist_app. }
      split; [lia|done].
    + assert (Hv2 : vars w' = vars w1).
      { destruct (Z.of_nat idx <? planned - 1);
          [by eapply vars_time_sleep|by inv_step Hs]. }
      exists p1, rs1. rewrite Hv2.
      split; [done|]. split; [done|]. split; [by eapply Hw|].
      split; [done|discriminate].
Qed.

(** X3: the rows a replay stores.  For rows with distinct labels,
    whatever calls raise, whatever signals arrive and whatever [--speed]
    is, the table grows by records of rows of the replay set only, taken
    at indices that form a subsequence of [0, ..., total_to_send - 1]: in
    the order of the set, no row twice, none beyond the limit; each record
    is what [insert_row] builds of its row.  The number the final report
    gives never exceeds the number of records stored. *)
Theorem replay_stores_in_order max_count interval df w r w' :
  well_labelled df ->
  tx (vars w) = [] ->
  main max_count interval df w = (r, w') ->
  let planned := total_to_send max_count (Z.of_nat (length df)) in
  exists picks recs,
    table (vars w') = table (vars w) ++ recs /\
    records_of df picks recs /\
    sublist picks (seq 0 (Z.to_nat planned)) /\
    (r = Ret tt ->
     0 <= count (vars w') <= Z.of_nat (length recs) /\
     last (printed w') = Some (Report (count (vars w')) planned)).
Proof.
  intros _ Htx H planned. unfold main in H. fold planned in H.
  apply bind_inv in H as [([] & w0 & H0 & H)|(e & H0 & ->)].
  2: { exists [], []. rewrite app_nil_r.
       assert (Hv : vars w' = vars w).
       { apply try_except_inv in H0 as [[H0 _]|(e' & w1 & H0 & H1)].
         - by apply slot_cases in H0 as (? & _).
         - apply slot_cases in H0 as (Hv & _).
           destruct e'; inv_run; by rewrite <- Hv. }
       rewrite Hv. split; [done|]. split; [constructor|].
       split; [apply sublist_nil_l|discriminate]. }
  assert (Hv0 : vars w0 = vars w).
  { apply try_except_inv in H0 as [[H0 _]|(e' & w1 & H0 & H1)].
    - by apply slot_cases in H0 as (? & _).
    - destruct e'; inv_run. }
  clear H0.
  apply bind_inv in H as [([] & w1 & H1 & H)|(e & H1 & _)]; [|inv_step H1].
  inv_step H1.
  apply bind_inv in H as [([] & w2 & H2 & H)|(e & H2 & _)]; [|inv_step H2].
  inv_step H2.
  apply bind_inv in H as [([] & w3 & H3 & H)|(e & H3 & ->)].
  - apply replay_outcome in H3 as (picks & recs & Ht & Hrecs & Hsub & Hc & _);
      [|cbn [vars tx]; by rewrite Hv0].
    cbn [vars table count] in Ht, Hc. rewrite Hv0 in Ht.
    exists picks, recs.
    apply bind_inv in H as [([] & w4 & H4 & H)|(e & H4 & ->)].
    + unfold close in H4.
      apply modify_after_slot in H4 as [[_ Hv4]|(e' & ? & _)]; [|discriminate].
      inv_run. cbn [vars]. rewrite Hv4. cbn [table count].
      split; [done|]. split; [done|]. split; [done|]. intros _.
      split; [lia|]. unfold printed. cbn [out].
      rewrite omap_app. simpl. by rewrite last_snoc.
    + unfold close in H4.
      apply modify_after_slot in H4 as [[? _]|(e' & _ & Hv4)]; [discriminate|].
      rewrite Hv4. split; [done|]. split; [done|]. split; [done|discriminate].
  - apply replay_outcome in H3 as (picks & recs & Ht & Hrecs & Hsub & Hc & _);
      [|cbn [vars tx]; by rewrite Hv0].
    cbn [vars table count] in Ht, Hc. rewrite Hv0 in Ht.
    exists picks, recs. split; [done|]. split; [done|]. split; [done|discriminate].
Qed.

(** *** Pauses between the rows *)

Lemma no_pause_attempt idx row : preserves no_pause (attempt idx row).
Proof.
  unfold attempt, insert_row, execute_insert, commit, incr_count, rollback.
  apply preserves_try_except; [apply _| |intros e; no_pause_tac].
  apply preserves_bind; [apply _| |intros ?].
  - apply preserves_bind; [apply _| |intros ?; no_pause_tac].
    destruct (bool_decide _); no_pause_tac.
  - destruct (progress_error row); no_pause_tac.
Qed.

Lemma pause_step (c : bool) interval (w : proc output mem) w' :
  (if c then time_sleep interval else ret tt) w = (Ret tt, w') ->
  printed w' = printed w /\ vars w' = vars w /\
  pauses w' = pauses w ++ (if c then [Slept interval] else []) /\
  (c = true -> sleep_error interval = None).
Proof.
  destruct c; intros H.
  - unfold time_sleep in H. destruct (sleep_error interval); [inv_step H|].
    apply bind_inv in H as [([] & w1 & H1 & H)|(e & H1 & ?)]; [|discriminate].
    pose proof (printed_slot _ _ _ _ H1) as Hp.
    pose proof (pauses_slot _ _ _ _ H1) as Hs.
    apply slot_inv in H1 as (Hv & _).
    assert (Hw : w' = (sleep interval w1).2) by (by rewrite H).
    rewrite Hw, printed_sleep, pauses_sleep, Hp, Hs. by repeat split.
  - injection H as <-. rewrite app_nil_r. by repeat split.
Qed.

Lemma replay_pauses df interval planned idxs : forall w w',
  replay df interval planned idxs w = (Ret tt, w') ->
  exists new,
    printed w' = printed w ++ new /\
    Forall (fun o => is_attempt o = true) new /\
    (length new <= length idxs)%nat /\
    pauses w' =
      pauses w ++
      replicate
        (length (List.filter (fun idx => Z.of_nat idx <? planned - 1)
                   (take (length new) idxs)))
        (Slept interval) /\
    (List.filter (fun idx => Z.of_nat idx <? planned - 1)
       (take (length new) idxs) <> [] ->
     sleep_error interval = None).
Proof.
  induction idxs as [|idx rest IH]; intros w w' H; simpl in H.
  - inv_step H. exists []. simpl. rewrite !app_nil_r. by repeat split.
  - apply bind_inv in H as [(b & w0 & Hg & H)|(e & Hg & ?)]; [|discriminate].
    unfold get_running in Hg. injection Hg as <- <-.
    destruct (running (deliver w)); simpl in H.
    + destruct (df !! idx) as [row|]; [|inv_step H].
      apply bind_inv in H as [([] & w1 & Ha & H)|(e & Ha & ?)]; [|discriminate].
      apply bind_inv in H as [([] & w2 & Hs & H)|(e & Hs & ?)]; [|discriminate].
      pose proof (no_pause_attempt _ _ _ _ _ Ha) as Hpa. unfold no_pause in Hpa.
      apply attempt_inv in Ha as (o & Hp & Ho & _).
      apply pause_step in Hs as (Hp2 & _ & Hs & Hok).
      apply IH in H as (new & Hp3 & Hall & Hlen & Hpauses & Hok').
      exists (o :: new).
      rewrite Hp3, Hp2, Hp, printed_deliver, <- app_assoc.
      split; [done|]. split; [by constructor|]. split; [simpl; lia|].
      split.
      * rewrite Hpauses, Hs, Hpa, pauses_deliver, <- app_assoc. f_equal.
        simpl. by destruct (Z.of_nat idx <? planned - 1).
      * simpl. destruct (Z.of_nat idx <? planned - 1); auto.
    + inv_step H. exists []. simpl.
      rewrite !app_nil_r, printed_deliver, pauses_deliver.
      split; [done|]. split; [constructor|]. split; [lia|done].
Qed.

Lemma length_filter_below p k :
  length (List.filter (fun idx => Z.of_nat idx <? p) (seq 0 k)) =
    Z.to_nat (Z.min (Z.of_nat k) p).
Proof.
  induction k as [|k IH]; [simpl; lia|].
  rewrite seq_S, List.filter_app, length_app, IH. simpl.
  destruct (Z.of_nat k <? p) eqn:E; simpl; lia.
Qed.

(** X4: the pauses of a replay.  A replay of rows with distinct labels
    that comes to its end has paused between consecutive rows and nowhere
    else: once after every row it attempted, for the [--speed] interval,
    except after the last planned row; signals do not shorten or add
    pauses.  If it paused at all, [--speed] is a length [time.sleep]
    accepts: not a NaN, not negative, and within the range of the
    clock. *)
Theorem replay_pauses_between_rows max_count interval df w w' :
  well_labelled df ->
  main max_count interval df w = (Ret tt, w') ->
  let planned := total_to_send max_count (Z.of_nat (length df)) in
  exists k : nat,
    attempts (printed w') = attempts (printed w) + Z.of_nat k /\
    Z.of_nat k <= planned /\
    pauses w' =
      pauses w ++
      replicate (Z.to_nat (Z.min (Z.of_nat k) (planned - 1)))
                (Slept interval) /\
    (0 < Z.min (Z.of_nat k) (planned - 1) -> sleep_error interval = None).
Proof.
  intros _ H planned. unfold main in H. fold planned in H.
  pose proof (total_to_send_bounds max_count (Z.of_nat (length df))) as Hb.
  fold planned in Hb.
  apply bind_inv in H as [([] & w0 & H0 & H)|(e & H0 & ?)]; [|discriminate].
  assert (Hq0 : printed w0 = printed w /\ pauses w0 = pauses w).
  { apply try_except_inv in H0 as [[H0 _]|(e' & w1 & H0 & H1)].
    - split; [by eapply printed_slot|by eapply pauses_slot].
    - destruct e'; inv_run. }
  destruct Hq0 as [Hp0 Hs0]. clear H0.
  apply bind_inv in H as [([] & w1 & H1 & H)|(e & H1 & ?)]; [|discriminate].
  assert (Hw1 : w1 = (print (if 0 <? max_count then Replaying false planned
                             else Replaying true (Z.of_nat (length df))) w0).2)
    by (by rewrite H1).
  clear H1.
  apply bind_inv in H as [([] & w2 & H2 & H)|(e & H2 & ?)]; [|discriminate].
  inv_step H2.
  apply bind_inv in H as [([] & w3 & H3 & H)|(e & H3 & ?)]; [|discriminate].
  apply replay_pauses in H3 as (new & Hp3 & Hall & Hlen & Hs3 & Hok).
  rewrite length_seq in Hlen.
  apply bind_inv in H as [([] & w4 & H4 & H)|(e & H4 & ?)]; [|discriminate].
  assert (Hq4 : printed w4 = printed w3 /\ pauses w4 = pauses w3).
  { unfold close in H4.
    apply bind_inv in H4 as [([] & w5 & H5 & H6)|(e & H5 & ?)]; [|discriminate].
    pose proof (printed_slot _ _ _ _ H5) as Hp5.
    pose proof (pauses_slot _ _ _ _ H5) as Hs5.
    inv_step H6. split; [exact Hp5|exact Hs5]. }
  destruct Hq4 as [Hp4 Hs4]. clear H4.
  apply bind_inv in H as [(v & w5 & H5 & H)|(e & H5 & ?)]; [|discriminate].
  inv_step H5.
  assert (Hw' : w' = (print (Report (count (vars w4)) planned) w4).2)
    by (by rewrite H).
  clear H. exists (length new).
  rewrite Hw', printed_print_app, pauses_print, Hp4, Hs4, Hp3, Hs3.
  change (printed {| running := running w1; script := script w1;
                     wall := wall w1; ticks := ticks w1; out := out w1;
                     vars := {| table := table (vars w1); tx := tx (vars w1);
                                count := 0 |} |}) with (printed w1).
  change (pauses {| running := running w1; script := script w1;
                    wall := wall w1; ticks := ticks w1; out := out w1;
                    vars := {| table := table (vars w1); tx := tx (vars w1);
                               count := 0 |} |}) with (pauses w1).
  rewrite Hw1, printed_print_app, pauses_print, Hp0, Hs0.
  rewrite !attempts_app, (attempts_all new Hall).
  assert (Hcount :
    length (List.filter (fun idx => Z.of_nat idx <? planned - 1)
              (take (length new) (seq 0 (Z.to_nat planned)))) =
    Z.to_nat (Z.min (Z.of_nat (length new)) (planned - 1))).
  { rewrite take_seq, length_filter_below. lia. }
  split.
  { unfold attempts. destruct (0 <? max_count); simpl; lia. }
  split; [lia|]. split; [by rewrite Hcount|].
  intros Hpos. apply Hok. intros Hnil. rewrite Hnil in Hcount.
  simpl in Hcount. lia.
Qed.

(** *** A replay that is over before its first row *)

Lemma replay_stopped df interval planned idxs w r w' :
  running w = false \/ idxs = [] ->
  replay df interval planned idxs w = (r, w') ->
  r = Ret tt /\ vars w' = vars w /\ printed w' = printed w /\
  pauses w' = pauses w /\
  (calm (script w) = true -> calm (script w') = true).
Proof.
  intros Hstop H. destruct idxs as [|idx rest]; simpl in H.
  - by inv_step H.
  - destruct Hstop as [Hr|?]; [|done].
    unfold bind, get_running in H.
    rewrite (running_deliver_false _ Hr) in H. simpl in H. inv_step H.
    rewrite vars_deliver, printed_deliver, pauses_deliver.
    repeat split. apply calm_deliver.
Qed.
(** X5: a replay that is over before its first row.  When the replay set
    is empty, or a shutdown signal was taken before the loop begins, the
    producer connects, makes no insertion and no pause, closes the
    connection and reports 0 rows of the planned total; the table is left
    as it was.  When no call raises it does come to this end. *)
Theorem nothing_to_replay max_count interval df w :
  running w = false \/ df = [] ->
  let planned := total_to_send max_count (Z.of_nat (length df)) in
  (calm (script w) = true ->
   exists w', main max_count interval df w = (Ret tt, w')) /\
  (forall w', main max_count interval df w = (Ret tt, w') ->
     printed w' =
       printed w ++
       [if 0 <? max_count then Replaying false planned
        else Replaying true (Z.of_nat (length df));
        Report 0 planned] /\
     table (vars w') = table (vars w) /\
     pauses w' = pauses w /\
     effects w' =
       effects w ++
       [Called "psycopg2.connect";
        Line (if 0 <? max_count then Replaying false planned
              else Replaying true (Z.of_nat (length df)));
        Called "conn.close";
        Line (Report 0 planned)]).
Proof.
  intros Hstop planned. split.
  { intros Hc. unfold main. fold planned.
    destruct (slot_calm "psycopg2.connect" w Hc)
      as (w0 & H0 & Hc0 & _ & _ & _ & Hr0).
    match goal with
    | |- context [try_except ?b ?h] =>
        assert (H1 : try_except b h w = (Ret tt, w0))
          by (unfold try_except; by rewrite H0)
    end.
    rewrite (bind_ret_run _ _ _ _ _ H1).
    set (o := if 0 <? max_count then Replaying false planned
              else Replaying true (Z.of_nat (length df))).
    set (w1 := (print o w0).2).
    rewrite (bind_ret_run (print o) _ w0 tt w1 eq_refl).
    set (w2 := (modify (fun v => Mem (table v) (tx v) 0) w1).2).
    rewrite (bind_ret_run (modify (fun v => Mem (table v) (tx v) 0)) _ w1 tt w2
               eq_refl).
    destruct (replay df interval planned (seq 0 (Z.to_nat planned)) w2)
      as [r3 w3] eqn:H3.
    assert (Hstop2 : running w2 = false \/ seq 0 (Z.to_nat planned) = []).
    { destruct Hstop as [Hr| ->].
      - left. unfold w2, w1. cbn [running modify print snd].
        destruct (running w0); [by rewrite Hr0 in Hr|done].
      - right. assert (Hz : planned = 0).
        { unfold planned, total_to_send. simpl length.
          destruct (0 <? max_count) eqn:E; lia. }
        by rewrite Hz. }
    destruct (replay_stopped _ _ _ _ _ _ _ Hstop2 H3) as (-> & _ & _ & _ & Hc3).
    rewrite (bind_ret_run _ _ _ _ _ H3).
    destruct (slot_calm "conn.close" w3 (Hc3 Hc0)) as (w4 & H4 & _).
    set (w5 := (modify (fun v => Mem (table v) [] (count v)) w4).2).
    assert (H5 : close w3 = (Ret tt, w5)).
    { unfold close. by rewrite (bind_ret_run _ _ _ _ _ H4). }
    rewrite (bind_ret_run _ _ _ _ _ H5).
    rewrite (bind_ret_run get_vars _ w5 (vars w5) w5 eq_refl).
    eexists. reflexivity. }
  intros w' H. unfold main in H. fold planned in H.
  apply bind_inv in H as [([] & w0 & H0 & H)|(e & H0 & ?)]; [|discriminate].
  assert (H0' : slot "psycopg2.connect" w = (Ret tt, w0)).
  { apply try_except_inv in H0 as [[H0 _]|(e' & w1 & H0 & H1)]; [done|].
    destruct e'; inv_run. }
  clear H0.
  pose proof (printed_slot _ _ _ _ H0') as Hp0.
  pose proof (pauses_slot _ _ _ _ H0') as Hs0.
  pose proof (effects_slot _ _ _ _ H0') as He0.
  pose proof (running_slot _ _ _ _ H0') as Hr0.
  apply slot_inv in H0' as (Hv0 & _).
  apply bind_inv in H as [([] & w1 & H1 & H)|(e & H1 & ?)]; [|discriminate].
  set (o := if 0 <? max_count then Replaying false planned
            else Replaying true (Z.of_nat (length df))) in *.
  assert (Hw1 : w1 = (print o w0).2) by (by rewrite H1).
  clear H1.
  apply bind_inv in H as [([] & w2 & H2 & H)|(e & H2 & ?)]; [|discriminate].
  inv_step H2.
  apply bind_inv in H as [([] & w3 & H3 & H)|(e & H3 & ?)]; [|discriminate].
  assert (Hw3 : w3 = deliver (modify (fun v => Mem (table v) (tx v) 0) w1).2
                \/ w3 = (modify (fun v => Mem (table v) (tx v) 0) w1).2).
  { destruct (seq 0 (Z.to_nat planned)) as [|idx rest] eqn:Hseq; simpl in H3.
    - right. by inv_step H3.
    - left. unfold bind, get_running in H3.
      destruct Hstop as [Hr| ->].
      + rewrite running_deliver_false in H3.
        * simpl in H3. by inv_step H3.
        * simpl. rewrite Hw1. simpl.
          destruct (running w0) eqn:E; [|done]. rewrite Hr0 in Hr; done.
      + exfalso. assert (Hz : planned = 0).
        { unfold planned, total_to_send. simpl length.
          destruct (0 <? max_count) eqn:E; lia. }
        rewrite Hz in Hseq. discriminate. }
  assert (Hq3 : vars w3 = Mem (table (vars w0)) (tx (vars w0)) 0 /\
                printed w3 = printed w0 ++ [o] /\ pauses w3 = pauses w0 /\
                effects w3 = effects w0 ++ [Line o]).
  { assert (Hq : forall w3', w3' = (modify (fun v => Mem (table v) (tx v) 0) w1).2 ->
        vars w3' = Mem (table (vars w0)) (tx (vars w0)) 0 /\
        printed w3' = printed w0 ++ [o] /\ pauses w3' = pauses w0 /\
        effects w3' = effects w0 ++ [Line o]).
    { intros w3' ->. rewrite Hw1. split; [done|].
      split; [apply printed_print_app|]. split; [apply pauses_print|].
      unfold effects. simpl. by rewrite List.filter_app. }
    destruct Hw3 as [-> | ->].
    - rewrite vars_deliver, printed_deliver, pauses_deliver, effects_deliver.
      by apply Hq.
    - by apply Hq. }
  destruct Hq3 as (Hv3 & Hp3 & Hs3 & He3). clear H3 Hw3.
  apply bind_inv in H as [([] & w4 & H4 & H)|(e & H4 & ?)]; [|discriminate].
  unfold close in H4.
  apply bind_inv in H4 as [([] & w5 & H5 & H6)|(e & H5 & ?)]; [|discriminate].
  inv_step H6.
  pose proof (printed_slot _ _ _ _ H5) as Hp5.
  pose proof (pauses_slot _ _ _ _ H5) as Hs5.
  pose proof (effects_slot _ _ _ _ H5) as He5.
  apply slot_inv in H5 as (Hv5 & _).
  apply bind_inv in H as [(v & w6 & H6 & H)|(e & H6 & ?)]; [|discriminate].
  inv_step H6. cbn [vars count] in H.
  rewrite Hv5, Hv3 in H. cbn [count table tx] in H.
  match type of H with
  | print ?o' ?w6 = _ =>
      assert (Hw' : w' = (print o' w6).2) by (by rewrite H);
      assert (Hp6 : printed w6 = printed w5) by done;
      assert (Hs6 : pauses w6 = pauses w5) by done;
      assert (He6 : effects w6 = effects w5) by done
  end.
  clear H.
  rewrite Hw', printed_print_app, pauses_print, effects_print_app.
  rewrite Hp6, Hs6, He6, Hp5, Hs5, He5, Hp3, Hs3, He3, Hp0, Hs0, He0.
  rewrite <- !app_assoc.
  split; [done|]. split; [simpl; by rewrite Hv0|]. by split.
Qed.

(** *** The connection parameters *)

Lemma lstrip_idemp chars s : lstrip chars (lstrip chars s) = lstrip chars s.
Proof.
  induction s as [|a s IH]; [done|]. simpl.
  destruct (bool_decide (a ∈ _)) eqn:E; [done|]. simpl. by rewrite E.
Qed.

Lemma str_or_nonempty x default : default <> "" -> str_or x default <> "".
Proof.
  intros Hd. unfold str_or. destruct x as [s|]; [|done].
  by destruct (decide (s = "")).
Qed.

Lemma fold_digits_nonneg l : forall n,
  0 <= n -> forallb is_ascii_digit l = true ->
  0 <= fold_left (fun n a => 10 * n + (Z.of_nat (Ascii.nat_of_ascii a) - 48))
                 l n.
Proof.
  induction l as [|a l IH]; intros n Hn Hall; simpl in *; [lia|].
  apply andb_prop in Hall as [Ha Hl]. apply IH; [|done].
  unfold is_ascii_digit in Ha. apply andb_prop in Ha as [Hlo _].
  apply Nat.leb_le in Hlo. lia.
Qed.

Lemma value_of_digits_nonneg s :
  forallb is_ascii_digit (String.list_ascii_of_string s) = true ->
  0 <= value_of_digits s.
Proof. intros H. by apply fold_digits_nonneg. Qed.

Lemma port_range _parsed p :
  port _parsed = inr p -> 1 <= int_or p 5432 <= 65535.
Proof.
  unfold port. destruct (String.eqb _ ""); [intros [= <-]; simpl; lia|].
  destruct (isdigit_ascii (port_text _parsed)) eqn:Hd; [|done]. simpl.
  destruct (4300 <? _)%nat; [done|].
  destruct (value_of_digits _ <=? 65535) eqn:Hle; [|done]. intros [= <-].
  apply andb_prop in Hd as [_ Hd].
  pose proof (value_of_digits_nonneg _ Hd). unfold int_or.
  destruct (decide (value_of_digits (port_text _parsed) = 0)); lia.
Qed.

(** X6: the connection parameters.  When reading [_parsed.port] raises
    (a port that is not a number of ASCII digits, or beyond 65535) the
    module raises [ValueError] as it is loaded and there is no
    [DB_CONFIG]; it does so for the port [99999].  Otherwise [DB_CONFIG]
    is defined, and is complete: a database name that is not empty and has
    no leading slash, a host, a user and a password that are not empty,
    and a port between 1 and 65535; it asks for TLS ([sslmode] is
    [require]) exactly when the host it names is not [localhost], and has
    no other key. *)
Theorem db_config_complete (_parsed : parsed_url) :
  (forall e, port _parsed = inl e -> DB_CONFIG _parsed = inl e) /\
  (exists e, DB_CONFIG bad_port_url = inl e) /\
  (forall p, port _parsed = inr p ->
   exists config, DB_CONFIG _parsed = inr config /\
   (exists dbname host user password port,
      config !! "dbname" = Some (PStr dbname) /\
      config !! "host" = Some (PStr host) /\
      config !! "user" = Some (PStr user) /\
      config !! "password" = Some (PStr password) /\
      config !! "port" = Some (PInt port) /\
      dbname <> "" /\ lstrip "/" dbname = dbname /\
      host <> "" /\ user <> "" /\ password <> "" /\ 1 <= port <= 65535 /\
      config !! "sslmode" =
        (if decide (host = "localhost") then None
         else Some (PStr "require"))) /\
   (forall key, is_Some (config !! key) ->
      key ∈ ["dbname"; "host"; "user"; "password"; "port"; "sslmode"])).
Proof.
  split; [intros e He; unfold DB_CONFIG; by rewrite He|].
  split; [eexists; vm_compute; reflexivity|].
  intros p Hp.
  set (config := <["dbname" := PStr (str_or (Some (lstrip "/" (path _parsed)))
                                            "timeseries")]>
    (<["host" := PStr (str_or (hostname _parsed) "localhost")]>
    (<["user" := PStr (str_or (username _parsed) "postgres")]>
    (<["password" := PStr (str_or (password _parsed) "postgres")]>
    (<["port" := PInt (int_or p 5432)]>
       (∅ : gmap string pyval)))))).
  assert (Hbase : config !! "dbname" =
              Some (PStr (str_or (Some (lstrip "/" (path _parsed))) "timeseries")) /\
            config !! "host" = Some (PStr (str_or (hostname _parsed) "localhost")) /\
            config !! "user" = Some (PStr (str_or (username _parsed) "postgres")) /\
            config !! "password" =
              Some (PStr (str_or (password _parsed) "postgres")) /\
            config !! "port" = Some (PInt (int_or p 5432)) /\
            config !! "sslmode" = None).
  { unfold config. repeat split;
      repeat first [ rewrite lookup_insert_eq; reflexivity
                   | rewrite lookup_insert_ne by discriminate ];
      apply lookup_empty. }
  destruct Hbase as (Hd & Hh & Hu & Hpw & Hpt & Hssl).
  assert (Hkeys : forall key, is_Some (config !! key) ->
            key ∈ ["dbname"; "host"; "user"; "password"; "port"]).
  { intros key. unfold config.
    rewrite !lookup_insert_is_Some, lookup_empty, is_Some_alt.
    rewrite !elem_of_cons. intuition (subst; auto). }
  assert (Hdb : str_or (Some (lstrip "/" (path _parsed))) "timeseries" <> "" /\
                lstrip "/" (str_or (Some (lstrip "/" (path _parsed))) "timeseries")
                  = str_or (Some (lstrip "/" (path _parsed))) "timeseries").
  { split; [by apply str_or_nonempty|]. unfold str_or.
    destruct (decide (lstrip "/" (path _parsed) = "")); [done|].
    apply lstrip_idemp. }
  pose proof (port_range _ _ Hp) as Hport.
  assert (Hcases :
    (DB_CONFIG _parsed = inr config /\
     str_or (hostname _parsed) "localhost" = "localhost") \/
    (DB_CONFIG _parsed = inr (<["sslmode" := PStr "require"]> config) /\
     str_or (hostname _parsed) "localhost" <> "localhost")).
  { unfold DB_CONFIG. rewrite Hp. fold config. unfold str_or.
    destruct (hostname _parsed) as [h|]; [|by left].
    destruct (decide (h = "")); [by left|].
    destruct (decide (h = "localhost")); [left|right]; done. }
  destruct Hcases as [[-> Hl]|[-> Hl]]; eexists; (split; [reflexivity|]).
  - split.
    + eexists _, _, _, _, _. split; [exact Hd|]. split; [exact Hh|].
      split; [exact Hu|]. split; [exact Hpw|]. split; [exact Hpt|].
      destruct Hdb as [Hdb1 Hdb2].
      repeat split; try done; try (by apply str_or_nonempty); try lia.
      by rewrite decide_True.
    + intros key Hk. apply Hkeys in Hk.
      rewrite !elem_of_cons in Hk. rewrite !elem_of_cons. tauto.
  - split.
    + eexists _, _, _, _, _.
      rewrite !lookup_insert_ne by discriminate.
      split; [exact Hd|]. split; [exact Hh|].
      split; [exact Hu|]. split; [exact Hpw|]. split; [exact Hpt|].
      destruct Hdb as [Hdb1 Hdb2].
      repeat split; try done; try (by apply str_or_nonempty); try lia.
      rewrite decide_False by done. apply lookup_insert_eq.
    + intros key Hk. apply lookup_insert_is_Some in Hk as [<-|[_ Hk]].
      * rewrite !elem_of_cons. auto 10.
      * apply Hkeys in Hk. rewrite !elem_of_cons in Hk. rewrite !elem_of_cons. tauto.
Qed.

(** *** Sample runs *)

Lemma late_result :
  (insert_row sample_row late_start).1 =
    Throw (Error (OtherError "cursor already closed")).
Proof. vm_compute. reflexivity. Qed.

Lemma connect_failure_exits_witness :
  exists w',
    main 2 1%float sample_rows refused_start = (Throw (SystemExit 1), w') /\
    vars w' = vars refused_start /\
    effects w' =
      effects refused_start ++
      [Called "psycopg2.connect";
       Line (ConnectionFailed
               (OperationalError "could not connect to server"))].
Proof.
  exact (connect_failure_exits 2 1%float sample_rows refused_start
           (OperationalError "could not connect to server") [] eq_refl).
Defined.

Lemma failed_insertion_may_be_stored_witness :
  exists now e,
    Error (OtherError "cursor already closed") = Error e /\
    ((table (vars late_end) = table (vars late_start) /\
      (tx (vars late_end) = [] \/
       tx (vars late_end) = [build_reading now sample_row])) \/
     (table (vars late_end) =
        table (vars late_start) ++ [build_reading now sample_row] /\
      tx (vars late_end) = [] /\
      last (effects late_end) = Some (Called "cur.close"))).
Proof.
  exact (failed_insertion_may_be_stored sample_row late_start
           (Error (OtherError "cursor already closed")) late_end eq_refl
           (run_eta _ _ late_result)).
Defined.

Lemma replay_stores_in_order_witness :
  exists picks recs,
    table (vars sample_end) = table (vars sample_start) ++ recs /\
    records_of sample_rows picks recs /\
    sublist picks
      (seq 0 (Z.to_nat (total_to_send 2 (Z.of_nat (length sample_rows))))) /\
    (Ret tt = Ret tt ->
     0 <= count (vars sample_end) <= Z.of_nat (length recs) /\
     last (printed sample_end) =
       Some (Report (count (vars sample_end))
                    (total_to_send 2 (Z.of_nat (length sample_rows))))).
Proof.
  exact (replay_stores_in_order 2 1%float sample_rows sample_start (Ret tt)
           sample_end sample_rows_labelled eq_refl sample_run).
Defined.

Lemma replay_pauses_between_rows_witness :
  exists k : nat,
    attempts (printed sample_end) =
      attempts (printed sample_start) + Z.of_nat k /\
    Z.of_nat k <= total_to_send 2 (Z.of_nat (length sample_rows)) /\
    pauses sample_end =
      pauses sample_start ++
      replicate
        (Z.to_nat (Z.min (Z.of_nat k)
                     (total_to_send 2 (Z.of_nat (length sample_rows)) - 1)))
        (Slept 1%float) /\
    (0 < Z.min (Z.of_nat k)
           (total_to_send 2 (Z.of_nat (length sample_rows)) - 1) ->
     sleep_error 1%float = None).
Proof.
  exact (replay_pauses_between_rows 2 1%float sample_rows sample_start
           sample_end sample_rows_labelled sample_run).
Defined.

Lemma nothing_to_replay_witness :
  exists w',
    main 2 1%float [] (start []) = (Ret tt, w') /\
    printed w' = printed (start []) ++ [Replaying false 0; Report 0 0] /\
    table (vars w') = table (vars (start [])) /\
    pauses w' = pauses (start []) /\
    effects w' =
      effects (start []) ++
      [Called "psycopg2.connect"; Line (Replaying false 0);
       Called "conn.close"; Line (Report 0 0)].
Proof.
  destruct (nothing_to_replay 2 1%float [] (start []) (or_intror eq_refl))
    as [Hret Hfacts].
  destruct (Hret eq_refl) as [w' Hrun].
  exists w'. exact (conj Hrun (Hfacts w' Hrun)).
Defined.

End RealtimeRuns.

(** ** Runs of the scoring engine *)

Module MLEngineRuns.
Import MLEngine MLEngineFacts.

(** *** A batch is committed as a whole *)

(** X7: a cycle writes its batch as a whole or not at all.  Whatever calls
    raise and whatever signals arrive, a cycle begun with an open
    connection and nothing in flight returns, and leaves the table either
    exactly as it found it or with every row of the fetched batch scored;
    and [total_scored] grows, by the size of the batch, only in the second
    case. *)
Theorem batch_all_or_nothing model scaler imputer t w r w' :
  ready t (vars w) ->
  cycle_body model scaler imputer w = (r, w') ->
  r = Ret tt /\
  ((db (vars w') = t /\ total_scored (vars w') = total_scored (vars w)) \/
   (db (vars w') = scored model scaler imputer t /\
    (total_scored (vars w') = total_scored (vars w) \/
     total_scored (vars w') =
       total_scored (vars w) + Z.of_nat (length (select_pending t))))).
Proof.
  intros [Hdb Hconn] Hrun.
  pose proof (hoare_atomic_cycle_body model scaler imputer t
                (total_scored (vars w)) w r w'
                (conj Hdb (conj Hconn eq_refl)) Hrun) as H.
  destruct r as [[]|e]; [|done]. by split.
Qed.

(** *** Every outcome is the outcome of its own row *)

Section Sound.
Context (model : IsolationForest) (scaler : StandardScaler)
        (imputer : SimpleImputer).

Local Abbreviation scores_of := (scores_of model scaler imputer).
Local Abbreviation carries_outcome := (carries_outcome model scaler imputer).
Local Abbreviation score_row := (score_row model scaler imputer).

Lemma scores_of_refl t : scores_of t t.
Proof. intros k. by left. Qed.

Lemma scores_of_trans t1 t2 t3 :
  scores_of t1 t2 -> scores_of t2 t3 -> scores_of t1 t3.
Proof.
  intros H12 H23 k. destruct (H23 k) as [Heq|(r & Hr & Hp & Hs)].
  - rewrite Heq. apply H12.
  - destruct (H12 k) as [Heq|(r' & Hr' & Hp' & Hs')].
    + right. exists r. by rewrite <- Heq.
    + rewrite Hs' in Hr. injection Hr as <-. discriminate.
Qed.

Lemma sql_update_scores t t' u :
  scores_of t t' -> carries_outcome t u -> scores_of t (sql_update t' u).
Proof.
  intros H Hu k. destruct u as [[label score] row_id].
  destruct (decide (row_id = k)) as [->|Hne].
  - rewrite sql_update_lookup.
    destruct (H k) as [Heq|(r & Hr & Hp & Hs)].
    + rewrite Heq. destruct (t !! k) as [r|] eqn:Hk; [|by left].
      right. exists r. destruct (Hu r Hk) as [Hp Hsc]. simpl in Hsc.
      split; [done|]. split; [done|]. simpl. unfold MLEngine.score_row.
      by rewrite <- Hsc.
    + right. exists r. destruct (Hu r Hr) as [_ Hsc]. simpl in Hsc.
      split; [done|]. split; [done|]. rewrite Hs. simpl.
      unfold MLEngine.score_row. by rewrite <- Hsc.
  - rewrite sql_update_lookup_ne by done. apply H.
Qed.

Lemma foldl_sql_update_scores t us : forall t',
  scores_of t t' -> Forall (carries_outcome t) us ->
  scores_of t (foldl sql_update t' us).
Proof.
  induction us as [|u us IH]; intros t' H Hall; [done|].
  apply Forall_cons in Hall as [Hu Hall]. simpl.
  apply IH; [|done]. by apply sql_update_scores.
Qed.

Lemma view_scores t c :
  Forall (carries_outcome t) (staged c) -> scores_of t (view t c).
Proof. apply foldl_sql_update_scores, scores_of_refl. Qed.

(** The updates of a batch fetched through a connection carry the outcome
    of the rows they are aimed at. *)
Lemma batch_carries_outcome t c :
  Forall (carries_outcome t) (staged c) ->
  Forall (carries_outcome t)
    (batch_updates model scaler imputer (select_pending (view t c))).
Proof.
  intros Hst. rewrite batch_updates_map. apply Forall_fmap, Forall_forall.
  intros [k feats] Hin r. simpl. intros Hk.
  apply elem_of_select_pending in Hin as (r' & Hv & Hr' & ->).
  destruct (view_scores t c Hst k) as [Heq|(r0 & Hr0 & _ & Hs)].
  - rewrite Heq, Hk in Hv. injection Hv as ->. split; [done|].
    reflexivity.
  - rewrite Hs in Hv. injection Hv as <-. discriminate.
Qed.

Context (t0 : gmap Z db_row).

Local Abbreviation sound := (sound model scaler imputer t0).

Lemma hoare_sound_executemany t us :
  Forall (carries_outcome t) us ->
  hoare (fun v => sound v /\ db v = t) (executemany us)
        (fun _ v => sound v /\ db v = t) sound.
Proof.
  induction 1 as [|u us Hu Hus IH]; simpl.
  - apply hoare_ret. tauto.
  - eapply hoare_bind.
    { apply hoare_slot_weak. tauto. }
    intros ?. simpl. eapply hoare_bind; [|intros ?; apply IH].
    apply hoare_modify. intros v [[Hsc Hst] Ht]. simpl.
    split; [|done]. split; [done|]. simpl.
    apply Forall_app. split; [done|]. rewrite Ht. by apply Forall_singleton.
Qed.

Lemma sound_commit v :
  sound v ->
  sound (Mem (view (db v) (conn v)) (Connection (closed (conn v)) [])
             (cycle v) (total_scored v) (total_anomalies v)).
Proof.
  intros [Hsc Hst]. split; [|by constructor]. simpl.
  eapply scores_of_trans; [exact Hsc|]. by apply view_scores.
Qed.

Lemma hoare_sound_commit : hoare sound commit (fun _ => sound) sound.
Proof.
  unfold commit. eapply hoare_bind; [apply hoare_slot|intros ?; simpl].
  apply hoare_modify. intros v. apply sound_commit.
Qed.

Lemma sound_set_conn closed v :
  sound v -> sound (set_conn (Connection closed []) v).
Proof. intros [Hsc Hst]. split; [done|by constructor]. Qed.

Lemma hoare_sound_close : hoare sound close (fun _ => sound) sound.
Proof.
  unfold close. eapply hoare_bind; [apply hoare_slot|intros ?; simpl].
  apply hoare_modify. intros v. apply sound_set_conn.
Qed.

Lemma hoare_sound_get_connection :
  hoare sound get_connection (fun _ => sound) sound.
Proof.
  unfold get_connection. eapply hoare_bind; [apply hoare_slot|intros ?; simpl].
  apply hoare_modify. intros v. apply sound_set_conn.
Qed.

Lemma hoare_sound_score_batch :
  hoare sound (score_batch model scaler imputer) (fun _ => sound) sound.
Proof.
  rewrite score_batch_eq.
  eapply hoare_bind; [apply hoare_cursor_inv|intros ?; simpl].
  eapply hoare_bind; [apply hoare_slot|intros ?; simpl].
  eapply hoare_bind; [apply hoare_slot|intros ?; simpl].
  eapply hoare_bind; [apply hoare_get_vars|intros v; simpl].
  apply hoare_intro_pre. intros v' [-> Hfr].
  assert (Hpre : forall v, v = v' -> sound v) by (by intros ? ->).
  destruct (select_pending (view (db v') (conn v'))) as [|row rows] eqn:Hrows.
  - eapply hoare_bind; [by apply hoare_slot_weak|intros ?; simpl].
    by apply hoare_ret.
  - rewrite <- Hrows.
    do 5 (eapply hoare_bind; [by apply hoare_slot_weak|intros ?; simpl]).
    eapply hoare_bind.
    { eapply hoare_conseq;
        [apply (hoare_sound_executemany (db v')), batch_carries_outcome|..].
      - apply Hfr.
      - intros ? ->. by split.
      - intros ? v1 H. exact H.
      - done. }
    intros ?. simpl.
    eapply hoare_bind.
    { eapply hoare_conseq; [apply hoare_sound_commit|..].
      - tauto.
      - intros ? v1 H. exact H.
      - done. }
    intros ?. simpl.
    eapply hoare_bind; [apply hoare_slot|intros ?; simpl]. by apply hoare_ret.
Qed.

Lemma sound_counters v c s a : sound v -> sound (Mem (db v) (conn v) c s a).
Proof. done. Qed.

Ltac sound_step :=
  first
    [ apply hoare_cursor_inv | apply hoare_sound_close
    | apply hoare_sound_get_connection | apply hoare_sound_score_batch
    | apply hoare_slot | apply hoare_print | apply hoare_sleep
    | apply hoare_get_running | apply hoare_get_vars_inv
    | apply hoare_datetime_now
    | apply hoare_ret_inv
    | apply hoare_modify_inv; intros ? ?; by apply sound_counters ].

Ltac sound_seq := eapply hoare_bind; [sound_step|intros ?; simpl].

Lemma hoare_sound_cycle_body :
  hoare sound (cycle_body model scaler imputer) (fun _ => sound) sound.
Proof.
  unfold cycle_body, incr_cycle. sound_seq.
  eapply hoare_bind; [|intros ?; simpl; sound_step].
  eapply hoare_try_except with (H := sound); [| |done].
  - unfold cycle_try.
    eapply hoare_bind; [sound_step|intros scored; simpl].
    destruct (0 <? scored).
    + do 8 sound_seq. sound_step.
    + eapply hoare_bind; [sound_step|intros v; simpl].
      destruct (cycle v mod 10 =? 0); [sound_seq|]; sound_step.
  - intros e. unfold cycle_except. sound_seq.
    eapply hoare_bind.
    { eapply hoare_try_except with (H := sound);
        [sound_step|intros ?; sound_step|done]. }
    intros ?. simpl.
    eapply hoare_try_except with (H := sound); [|intros ?; sound_step|done].
    sound_seq. sound_step.
Qed.

Lemma hoare_sound_main fuel :
  hoare sound (main model scaler imputer fuel) (fun _ => sound) sound.
Proof.
  unfold main. sound_seq.
  eapply hoare_bind.
  { instantiate (1 := fun _ => sound).
    induction fuel as [|fuel IH]; simpl; [sound_step|].
    eapply hoare_bind; [sound_step|intros running; simpl].
    destruct running; [|sound_step].
    eapply hoare_bind; [apply hoare_sound_cycle_body|intros ?; simpl; exact IH]. }
  intros stopped. simpl. destruct stopped; [|sound_step].
  do 3 sound_seq. sound_step.
Qed.

End Sound.

(** X8: the engine never damages the table.  Whatever calls raise and
    whatever signals arrive, and however long it runs, the table keeps its
    ids and the sensor values of every row, and each row is either exactly
    as it was or, if it was pending, carries the label and the score that
    imputer, scaler and estimator give to its own six features. *)
Theorem outcomes_belong_to_their_rows model scaler imputer fuel w res w' :
  staged (conn (vars w)) = [] ->
  main model scaler imputer fuel w = (res, w') ->
  (forall k, db (vars w') !! k = None <-> db (vars w) !! k = None) /\
  (forall k r r', db (vars w) !! k = Some r -> db (vars w') !! k = Some r' ->
     sensors r' = sensors r /\
     (r' = r \/
      is_anomaly r = None /\
      is_anomaly r' =
        Some (score_sample model scaler imputer (features r)).1 /\
      anomaly_score r' =
        Some (score_sample model scaler imputer (features r)).2)).
Proof.
  intros Hst Hrun.
  assert (H : sound model scaler imputer (db (vars w)) (vars w')).
  { assert (H0 : sound model scaler imputer (db (vars w)) (vars w)).
    { split; [apply scores_of_refl|]. rewrite Hst. constructor. }
    pose proof (hoare_sound_main model scaler imputer (db (vars w)) fuel
                  w res w' H0 Hrun) as H.
    by destruct res. }
  destruct H as [Hsc _]. split.
  - intros k. destruct (Hsc k) as [->|(r & Hr & _ & Hs)]; [done|].
    rewrite Hr, Hs. split; discriminate.
  - intros k r r' Hk Hk'. destruct (Hsc k) as [Heq|(r0 & Hr0 & Hp & Hs)].
    + rewrite Heq, Hk in Hk'. injection Hk' as <-. auto.
    + rewrite Hk in Hr0. injection Hr0 as <-.
      rewrite Hs in Hk'. injection Hk' as <-. split; [done|]. right. auto.
Qed.

(** *** The backlog *)

Section Backlog.
Context (model : IsolationForest) (scaler : StandardScaler)
        (imputer : SimpleImputer).

Local Abbreviation scored := (scored model scaler imputer).

Lemma length_select_pending t :
  length (select_pending t) = Nat.min BATCH_SIZE (backlog t).
Proof.
  unfold select_pending. fold (pending_sorted t).
  by rewrite length_take, length_fmap.
Qed.

Lemma elem_of_pending_scored t k r :
  (k, r) ∈ pending_sorted (scored t) <->
  (k, r) ∈ pending_sorted t /\ k ∉ (select_pending t).*1.
Proof.
  destruct (foldl_sql_update_batch model scaler imputer t (select_pending t)
              (NoDup_select_pending t)) as [Hin Hout].
  rewrite !elem_of_pending_sorted. unfold MLEngine.scored. split.
  - intros [Hk Hp].
    destruct (decide (k ∈ (select_pending t).*1)) as [Hb|Hb].
    + apply list_elem_of_fmap in Hb as ([k' feats] & -> & Hb). simpl in *.
      destruct (elem_of_select_pending _ _ _ Hb) as (r0 & Hr0 & _ & _).
      rewrite (Hin k' feats r0 Hb Hr0) in Hk. injection Hk as <-. discriminate.
    + rewrite (Hout k Hb) in Hk. auto.
  - intros [[Hk Hp] Hb]. by rewrite (Hout k Hb).
Qed.

Lemma elem_of_drop_pending t k r :
  (k, r) ∈ drop BATCH_SIZE (pending_sorted t) <->
  (k, r) ∈ pending_sorted t /\ k ∉ (select_pending t).*1.
Proof.
  rewrite select_pending_fst, <- fmap_take.
  pose proof (NoDup_pending_sorted t) as Hnd.
  rewrite <- (take_drop BATCH_SIZE (pending_sorted t)) in Hnd.
  rewrite fmap_app in Hnd. apply NoDup_app in Hnd as (_ & Hdis & _).
  rewrite <- (take_drop BATCH_SIZE (pending_sorted t)) at 2.
  rewrite elem_of_app. split.
  - intros Hd. split; [by right|]. intros Ht. apply (Hdis k Ht).
    apply list_elem_of_fmap. by exists (k, r).
  - intros [[Ht|Hd] Hn]; [|done]. destruct Hn.
    apply list_elem_of_fmap. by exists (k, r).
Qed.

(** Scoring a batch takes its rows, and no others, off the backlog. *)
Lemma backlog_scored t : backlog (scored t) = (backlog t - BATCH_SIZE)%nat.
Proof.
  unfold backlog. rewrite <- length_drop. apply Permutation_length.
  apply NoDup_Permutation.
  - eapply NoDup_fmap_1, NoDup_pending_sorted.
  - eapply sublist_NoDup; [|apply sublist_drop].
    eapply NoDup_fmap_1, NoDup_pending_sorted.
  - intros [k r]. by rewrite elem_of_pending_scored, elem_of_drop_pending.
Qed.

Lemma backlog_iter j t :
  backlog (Nat.iter j scored t) = (backlog t - j * BATCH_SIZE)%nat.
Proof.
  induction j as [|j IH]; [simpl; lia|].
  rewrite Nat.iter_succ, backlog_scored, IH. lia.
Qed.

Lemma backlog_empty t k r :
  backlog t = 0%nat -> t !! k = Some r -> is_anomaly r <> None.
Proof.
  unfold backlog. intros Hlen Hk Hp.
  assert (Hin : (k, r) ∈ pending_sorted t) by (by apply elem_of_pending_sorted).
  destruct (pending_sorted t); [by apply elem_of_nil in Hin|discriminate].
Qed.

Lemma total_scoring_loop fuel : forall t,
  total (ready t) (scoring_loop model scaler imputer fuel)
    (fun stopped v => exists j, (j <= fuel)%nat /\
       ready (Nat.iter j scored t) v /\ (stopped = false -> j = fuel)).
Proof.
  induction fuel as [|fuel IH]; intros t; simpl.
  - apply total_ret. intros v Hv. exists 0%nat. auto.
  - eapply total_bind; [apply total_get_running|intros r; simpl].
    destruct r.
    + eapply total_bind; [apply total_cycle_body|intros ?; simpl].
      eapply total_conseq; [apply (IH (scored t))|done|].
      intros stopped v (j & Hj & Hr & Hs). exists (S j).
      rewrite Nat.iter_succ_r. split; [lia|]. split; [done|]. intros ?.
      f_equal. auto.
    + apply total_ret. intros v Hv. exists 0%nat.
      split; [lia|]. split; [done|discriminate].
Qed.

Lemma undisturbed_cursor : preserves undisturbed cursor.
Proof.
  unfold cursor. apply preserves_bind; [apply _|undisturbed_tac|intros v].
  destruct (closed (conn v)); undisturbed_tac.
Qed.

Lemma undisturbed_executemany us : preserves undisturbed (executemany us).
Proof. induction us as [|u us IH]; simpl; undisturbed_tac. exact IH. Qed.

Lemma undisturbed_score_batch :
  preserves undisturbed (score_batch model scaler imputer).
Proof.
  rewrite score_batch_eq.
  apply preserves_bind; [apply _|apply undisturbed_cursor|intros ?].
  do 3 (apply preserves_bind; [apply _|undisturbed_tac|intros ?]).
  destruct (select_pending _); [undisturbed_tac|].
  do 5 (apply preserves_bind; [apply _|undisturbed_tac|intros ?]).
  apply preserves_bind; [apply _|apply undisturbed_executemany|intros ?].
  unfold commit. undisturbed_tac.
Qed.

Lemma undisturbed_cycle_body :
  preserves undisturbed (cycle_body model scaler imputer).
Proof.
  unfold cycle_body.
  apply preserves_bind; [apply _|undisturbed_tac|intros ?].
  apply preserves_bind; [apply _| |intros ?; undisturbed_tac].
  apply preserves_try_except; [apply _| |intros e].
  - unfold cycle_try.
    apply preserves_bind; [apply _|apply undisturbed_score_batch|intros n].
    destruct (0 <? n).
    + apply preserves_bind; [apply _|apply undisturbed_cursor|intros ?].
      undisturbed_tac.
    + apply preserves_bind; [apply _|undisturbed_tac|intros v].
      destruct (cycle v mod 10 =? 0); undisturbed_tac.
  - unfold cycle_except, close, get_connection. undisturbed_tac.
Qed.

(** With nothing left in the script and the flag set, the loop runs until
    its fuel is spent. *)
Lemma scoring_loop_undisturbed fuel : forall w stopped w',
  script w = [] -> running w = true ->
  scoring_loop model scaler imputer fuel w = (Ret stopped, w') ->
  stopped = false.
Proof.
  induction fuel as [|fuel IH]; intros w stopped w' Hs Hr H; simpl in H.
  - by inv_step H.
  - inv_step H. inv_step Hrun. rewrite (deliver_exhausted w Hs), Hr in Hrun0.
    inv_step Hrun0.
    destruct (undisturbed_cycle_body _ _ _ Hrun Hs) as [Hs1 Hr1].
    apply (IH w0 stopped w'); [done|congruence|done].
Qed.

End Backlog.

(** X9: the backlog is worked off a batch at a time.  When no call raises,
    a loop begun with an open connection returns and has then run some
    number [j] of cycles, all of its [fuel] unless a signal stopped it; the
    table is the one [j] batches lead to, [BATCH_SIZE] fewer rows are
    pending after each cycle, and once [j * BATCH_SIZE] covers the backlog
    no row is left without an outcome.  With no signal to come the loop is
    not stopped. *)
Theorem backlog_drained model scaler imputer fuel t w :
  calm (script w) = true ->
  ready t (vars w) ->
  exists stopped w' j,
    scoring_loop model scaler imputer fuel w = (Ret stopped, w') /\
    (j <= fuel)%nat /\
    (stopped = false -> j = fuel) /\
    (script w = [] -> running w = true -> stopped = false) /\
    db (vars w') = Nat.iter j (scored model scaler imputer) t /\
    backlog (db (vars w')) = (backlog t - j * BATCH_SIZE)%nat /\
    ((backlog t <= j * BATCH_SIZE)%nat ->
     forall k r, db (vars w') !! k = Some r -> is_anomaly r <> None).
Proof.
  intros Hc Hready.
  destruct (total_scoring_loop model scaler imputer fuel t w Hc Hready)
    as (stopped & w' & Hrun & _ & j & Hj & [Hdb _] & Hs).
  exists stopped, w', j. split; [done|]. split; [done|]. split; [done|].
  split.
  { intros Hscr Hr. by eapply scoring_loop_undisturbed. }
  split; [done|]. rewrite Hdb, backlog_iter. split; [done|].
  intros Hle k r. apply backlog_empty. rewrite backlog_iter. lia.
Qed.

(** *** Steps that print nothing and leave the counters alone *)

#[local] Instance silent_preorder : PreOrder silent.
Proof.
  split.
  - intros w. by repeat split.
  - intros w1 w2 w3 (Hp1 & Hc1 & Hs1 & Ha1) (Hp2 & Hc2 & Hs2 & Ha2).
    repeat split; congruence.
Qed.

Lemma silent_slot c : preserves silent (slot c).
Proof.
  intros w r w' H. split; [by eapply printed_slot|].
  apply slot_inv in H as (Hv & _). by rewrite Hv.
Qed.

Lemma silent_modify f :
  (forall v, cycle (f v) = cycle v /\ total_scored (f v) = total_scored v /\
             total_anomalies (f v) = total_anomalies v) ->
  preserves silent (modify f).
Proof. intros Hf w r w' [= <- <-]. split; [done|]. simpl. apply Hf. Qed.

Lemma silent_get_vars : preserves silent get_vars.
Proof. by intros w r w' [= <- <-]. Qed.

Ltac silent_tac :=
  repeat first
    [ apply preserves_bind; [apply _| |intros ?]
    | apply preserves_try_except; [apply _| |intros ?]
    | apply preserves_ret; apply _
    | apply preserves_throw; apply _
    | apply silent_slot | apply silent_get_vars
    | apply silent_modify; by intros [] ].

Lemma silent_cursor : preserves silent cursor.
Proof.
  unfold cursor. apply preserves_bind; [apply _|silent_tac|intros v].
  destruct (closed (conn v)); silent_tac.
Qed.

Lemma silent_executemany us : preserves silent (executemany us).
Proof. induction us as [|u us IH]; simpl; silent_tac. exact IH. Qed.

Lemma silent_score_batch model scaler imputer :
  preserves silent (score_batch model scaler imputer).
Proof.
  rewrite score_batch_eq.
  apply preserves_bind; [apply _|apply silent_cursor|intros ?].
  do 3 (apply preserves_bind; [apply _|silent_tac|intros ?]).
  destruct (select_pending _); [silent_tac|].
  do 5 (apply preserves_bind; [apply _|silent_tac|intros ?]).
  apply preserves_bind; [apply _|apply silent_executemany|intros ?].
  unfold commit. silent_tac.
Qed.

Lemma silent_close : preserves silent close.
Proof. unfold close. silent_tac. Qed.

Lemma silent_get_connection : preserves silent get_connection.
Proof. unfold get_connection. silent_tac. Qed.

Lemma hoare_trivial {A} (m : E A) :
  hoare (fun _ => True) m (fun _ _ => True) (fun _ => True).
Proof. intros w r w' _ _. by destruct r. Qed.

(** [score_batch] returns the size of a batch. *)
Lemma score_batch_bound model scaler imputer w n w' :
  score_batch model scaler imputer w = (Ret n, w') ->
  0 <= n <= Z.of_nat BATCH_SIZE.
Proof.
  assert (H : hoare (fun _ => True) (score_batch model scaler imputer)
                (fun n _ => 0 <= n <= Z.of_nat BATCH_SIZE) (fun _ => True)).
  { rewrite score_batch_eq.
    do 3 (eapply hoare_bind; [apply hoare_trivial|intros ?; simpl]).
    eapply hoare_bind; [apply hoare_trivial|intros v; simpl].
    destruct (select_pending (view (db v) (conn v))) as [|row rows] eqn:Hrows.
    - eapply hoare_bind; [apply hoare_trivial|intros ?; simpl].
      apply hoare_ret. intros _ _. unfold BATCH_SIZE. lia.
    - rewrite <- Hrows.
      do 8 (eapply hoare_bind; [apply hoare_trivial|intros ?; simpl]).
      apply hoare_ret. intros _ _.
      rewrite batch_updates_map, length_fmap.
      pose proof (length_select_pending (view (db v) (conn v))). lia. }
  intros Hrun. by apply (H w (Ret n) w' I Hrun).
Qed.

(** *** What a cycle prints when no call raises *)

Lemma no_pending_select t :
  (forall k r, t !! k = Some r -> is_anomaly r <> None) ->
  select_pending t = [].
Proof.
  intros Hnone. destruct (select_pending t) as [|[k feats] rows] eqn:Hrows; [done|].
  assert (Hin : (k, feats) ∈ select_pending t) by (rewrite Hrows; left).
  apply elem_of_select_pending in Hin as (r & Hk & Hp & _).
  by destruct (Hnone k r Hk).
Qed.

Lemma scored_no_batch model scaler imputer t :
  select_pending t = [] -> scored model scaler imputer t = t.
Proof. unfold scored. by intros ->. Qed.

Section Lines.
Context (model : IsolationForest) (scaler : StandardScaler)
        (imputer : SimpleImputer) (t : gmap Z db_row).

Local Abbreviation scored := (scored model scaler imputer).

Local Abbreviation at_ tbl c s a l :=
  (fun (v : mem) (l' : list output) =>
     v = Mem tbl (Connection false []) c s a /\ l' = l).

Lemma total_printed_score_batch c s a l :
  total_printed (at_ t c s a l) (score_batch model scaler imputer)
    (fun n v l' => at_ (scored t) c s a l v l' /\
                   n = Z.of_nat (length (select_pending t))).
Proof.
  eapply (total_printed_preserves silent (ready t)
            (fun n v => ready (scored t) v /\
                        n = Z.of_nat (length (select_pending t)))).
  - apply total_score_batch.
  - apply silent_score_batch.
  - by intros v l' [-> _].
  - intros w n w' [Hv Hl] [[Hdb Hconn] Hn] (Hp & Hc & Hs & Ha).
    split; [|done]. split; [|congruence].
    rewrite Hv in Hc, Hs, Ha. simpl in *.
    destruct (vars w') as [d cn cy ts ta]. simpl in *. congruence.
Qed.

Lemma total_printed_cursor_open (P : mem -> list output -> Prop) :
  (forall v l, P v l -> closed (conn v) = false) ->
  total_printed P cursor (fun _ => P).
Proof.
  intros Hopen. unfold cursor.
  eapply total_printed_bind; [apply total_printed_get_vars|intros v; simpl].
  apply total_printed_intro_pre. intros v' l' [-> HP].
  rewrite (Hopen _ _ HP).
  eapply total_printed_conseq; [apply (total_printed_slot P)| |done].
  by intros ? ? [-> ->].
Qed.

Lemma total_printed_cycle_try c s a l :
  total_printed (at_ t c s a l) (cycle_try model scaler imputer)
    (fun _ v l' =>
       let n := Z.of_nat (length (select_pending t)) in
       if 0 <? n then
         at_ (scored t) c (s + n) (count_anomalies (scored t))
             (l ++ [CycleLine c n (count_anomalies (scored t)) (s + n)]) v l'
       else
         at_ (scored t) c s a
             (l ++ if c mod 10 =? 0 then [Waiting s] else []) v l').
Proof.
  unfold cycle_try.
  eapply total_printed_bind; [apply total_printed_score_batch|intros n; simpl].
  apply total_printed_intro_pre. intros v0 l0 [[-> ->] ->].
  set (n := Z.of_nat (length (select_pending t))).
  assert (Hpre : forall v l', v = Mem (scored t) (Connection false []) c s a /\
                              l' = l -> at_ (scored t) c s a l v l') by done.
  destruct (0 <? n) eqn:Hn.
  - eapply total_printed_bind.
    { eapply total_printed_conseq;
        [apply (total_printed_cursor_open (at_ (scored t) c s a l))|exact Hpre|].
      - by intros v l' [-> _].
      - intros ? v l' H. exact H. }
    intros ?. simpl.
    eapply total_printed_bind; [apply total_printed_slot|intros ?; simpl].
    eapply total_printed_bind; [apply total_printed_slot|intros ?; simpl].
    eapply total_printed_bind.
    { apply (total_printed_modify _ _
               (fun _ => at_ (scored t) c s (count_anomalies (scored t)) l)).
      by intros v l' [-> ->]. }
    intros ?. simpl.
    eapply total_printed_bind; [apply total_printed_slot|intros ?; simpl].
    eapply total_printed_bind.
    { apply (total_printed_modify _ _
               (fun _ => at_ (scored t) c (s + n) (count_anomalies (scored t)) l)).
      by intros v l' [-> ->]. }
    intros ?. simpl.
    eapply total_printed_bind; [apply total_printed_datetime_now|intros ?; simpl].
    eapply total_printed_bind; [apply total_printed_get_vars|intros v; simpl].
    apply total_printed_intro_pre. intros v1 l1 [-> [-> ->]].
    apply total_printed_print. by intros v l' [-> ->].
  - eapply total_printed_bind; [apply total_printed_get_vars|intros v; simpl].
    apply total_printed_intro_pre. intros v1 l1 [-> [-> ->]]. simpl.
    destruct (c mod 10 =? 0).
    + eapply total_printed_bind; [apply total_printed_datetime_now|intros ?; simpl].
      apply total_printed_print. by intros v l' [-> ->].
    + apply total_printed_ret. intros v l' [-> ->]. by rewrite app_nil_r.
Qed.

Lemma total_printed_cycle_body c s a l :
  total_printed (at_ t c s a l) (cycle_body model scaler imputer)
    (fun _ v l' =>
       let n := Z.of_nat (length (select_pending t)) in
       if 0 <? n then
         at_ (scored t) (c + 1) (s + n) (count_anomalies (scored t))
             (l ++ [CycleLine (c + 1) n (count_anomalies (scored t)) (s + n)])
             v l'
       else
         at_ (scored t) (c + 1) s a
             (l ++ if (c + 1) mod 10 =? 0 then [Waiting s] else []) v l').
Proof.
  unfold cycle_body, incr_cycle.
  eapply total_printed_bind.
  { apply (total_printed_modify _ _ (fun _ => at_ t (c + 1) s a l)).
    by intros v l' [-> ->]. }
  intros ?. simpl.
  eapply total_printed_bind;
    [apply total_printed_try_except, total_printed_cycle_try|intros ?; simpl].
  apply total_printed_sleep.
Qed.

End Lines.

(** X10: the line of a cycle that scored rows.  When no call raises, a cycle
    that finds pending rows scores the batch, adds its size to
    [total_scored], sets [total_anomalies] to the number of anomalous rows
    of the whole table, and prints one line with the cycle number, the size
    of the batch (between 1 and [BATCH_SIZE]) and the two totals. *)
Theorem busy_cycle_line model scaler imputer t w :
  calm (script w) = true ->
  ready t (vars w) ->
  select_pending t <> [] ->
  let n := Z.of_nat (length (select_pending t)) in
  let t' := scored model scaler imputer t in
  exists w',
    cycle_body model scaler imputer w = (Ret tt, w') /\
    vars w' = Mem t' (Connection false []) (cycle (vars w) + 1)
                  (total_scored (vars w) + n) (count_anomalies t') /\
    printed w' =
      printed w ++ [CycleLine (cycle (vars w) + 1) n (count_anomalies t')
                              (total_scored (vars w) + n)] /\
    0 < n <= Z.of_nat BATCH_SIZE.
Proof.
  intros Hc [Hdb Hconn] Hrows n t'.
  assert (Hn : 0 < n <= Z.of_nat BATCH_SIZE).
  { pose proof (length_select_pending t) as Hl. unfold n.
    destruct (select_pending t) eqn:E; [done|].
    simpl length in *. unfold BATCH_SIZE in *. lia. }
  destruct (total_printed_cycle_body model scaler imputer t
              (cycle (vars w)) (total_scored (vars w))
              (total_anomalies (vars w)) (printed w) w Hc)
    as ([] & w' & Hrun & _ & HQ).
  { split; [|done]. destruct (vars w). simpl in *. congruence. }
  exists w'. split; [done|]. simpl in HQ. fold n in HQ.
  assert (Hlt : (0 <? n) = true) by lia. rewrite Hlt in HQ.
  destruct HQ as [Hv Hp]. auto.
Qed.

(** X11: an idle cycle.  When no call raises and no row is pending, a cycle
    changes nothing but the cycle number, and prints its waiting line, with
    [total_scored], in every tenth cycle only. *)
Theorem idle_cycle_waits model scaler imputer t w :
  calm (script w) = true ->
  ready t (vars w) ->
  (forall k r, t !! k = Some r -> is_anomaly r <> None) ->
  exists w',
    cycle_body model scaler imputer w = (Ret tt, w') /\
    vars w' = incr_cycle (vars w) /\
    printed w' =
      printed w ++
      (if (cycle (vars w) + 1) mod 10 =? 0
       then [Waiting (total_scored (vars w))] else []).
Proof.
  intros Hc [Hdb Hconn] Hnone.
  pose proof (no_pending_select t Hnone) as Hrows.
  destruct (total_printed_cycle_body model scaler imputer t
              (cycle (vars w)) (total_scored (vars w))
              (total_anomalies (vars w)) (printed w) w Hc)
    as ([] & w' & Hrun & _ & HQ).
  { split; [|done]. destruct (vars w). simpl in *. congruence. }
  exists w'. split; [done|]. simpl in HQ.
  rewrite Hrows, (scored_no_batch _ _ _ _ Hrows) in HQ. simpl in HQ.
  destruct HQ as [Hv Hp]. split; [|done].
  rewrite Hv. unfold incr_cycle. destruct (vars w). simpl in *. congruence.
Qed.

(** *** The summary adds up *)

Lemma scored_sum_app l1 l2 :
  scored_sum (l1 ++ l2) = scored_sum l1 + scored_sum l2.
Proof.
  induction l1 as [|o l1 IH]; [done|].
  change (scored_sum ((o :: l1) ++ l2)) with
    (match o with
     | CycleLine _ scored _ _ => scored + scored_sum (l1 ++ l2)
     | _ => scored_sum (l1 ++ l2)
     end).
  change (scored_sum (o :: l1)) with
    (match o with
     | CycleLine _ scored _ _ => scored + scored_sum l1
     | _ => scored_sum l1
     end).
  rewrite IH. destruct o; lia.
Qed.

Section Report.
Context (model : IsolationForest) (scaler : StandardScaler)
        (imputer : SimpleImputer) (l0 : list output).

Local Abbreviation tally :=
  (fun (v : mem) (l : list output) =>
     exists lines, l = l0 ++ lines /\ total_scored v = scored_sum lines /\
                   Forall loop_line lines).

Lemma tally_silent w w' :
  silent w w' -> tally (vars w) (printed w) -> tally (vars w') (printed w').
Proof.
  intros (Hp & _ & Hs & _) (lines & Hl & Hts & Hall). exists lines.
  rewrite Hp, Hs. auto.
Qed.

Lemma hoare_tally_silent {A} (m : E A) :
  preserves silent m -> hoare_printed tally m (fun _ => tally) tally.
Proof.
  intros Hm. eapply hoare_printed_preserves; [exact Hm|apply tally_silent].
Qed.

Lemma tally_counters v l c a :
  tally v l -> tally (Mem (db v) (conn v) c (total_scored v) a) l.
Proof. done. Qed.

Lemma tally_set_conn v l c : tally v l -> tally (set_conn c v) l.
Proof. done. Qed.

Lemma tally_print v l o :
  tally v l -> loop_line o -> scored_sum [o] = 0 -> tally v (l ++ [o]).
Proof.
  intros (lines & -> & Hts & Hall) Ho Hz. exists (lines ++ [o]).
  rewrite <- app_assoc, scored_sum_app, Hz. split; [done|]. split; [lia|].
  apply Forall_app. split; [done|]. by apply Forall_singleton.
Qed.

Lemma hoare_tally_print o X :
  loop_line o -> scored_sum [o] = 0 ->
  hoare_printed tally (print o) (fun _ => tally) X.
Proof.
  intros Ho Hz. apply hoare_printed_print. intros v l H. by apply tally_print.
Qed.

Lemma hoare_tally_score_batch :
  hoare_printed tally (score_batch model scaler imputer)
    (fun n v l => tally v l /\ 0 <= n <= Z.of_nat BATCH_SIZE) tally.
Proof.
  intros w r w' HP H.
  pose proof (silent_score_batch model scaler imputer _ _ _ H) as Hs.
  destruct r as [n|e].
  - split; [by apply (tally_silent w)|]. by eapply score_batch_bound.
  - by apply (tally_silent w).
Qed.

Ltac tally_step :=
  first
    [ apply hoare_printed_slot | apply hoare_printed_sleep
    | apply hoare_printed_datetime_now | apply hoare_printed_get_running
    | apply hoare_printed_get_vars_inv | apply hoare_printed_ret_inv
    | apply (hoare_tally_silent _ silent_cursor)
    | apply (hoare_tally_silent _ silent_close)
    | apply (hoare_tally_silent _ silent_get_connection)
    | apply hoare_tally_print; [exact I|reflexivity]
    | apply (hoare_printed_modify _ _ (fun _ => tally));
      intros ? ? ?; by apply tally_counters ].

Ltac tally_seq := eapply hoare_printed_bind; [tally_step|intros ?; simpl].

Lemma hoare_tally_cycle_try :
  hoare_printed tally (cycle_try model scaler imputer) (fun _ => tally) tally.
Proof.
  unfold cycle_try.
  eapply hoare_printed_bind; [apply hoare_tally_score_batch|intros n; simpl].
  apply hoare_printed_pure. intros Hb.
  destruct (0 <? n) eqn:Hn.
  - do 5 tally_seq.
    set (plus := fun (v : mem) (l : list output) =>
           exists lines, l = l0 ++ lines /\
             total_scored v = scored_sum lines + n /\ Forall loop_line lines).
    eapply hoare_printed_bind.
    { apply (hoare_printed_modify _ _ (fun _ => plus)).
      intros v l (lines & -> & Hts & Hall). exists lines. simpl.
      rewrite Hts. auto. }
    intros ?. simpl.
    eapply hoare_printed_bind;
      [apply hoare_printed_datetime_now|intros ?; simpl].
    eapply hoare_printed_bind; [apply hoare_printed_get_vars|intros v; simpl].
    apply hoare_printed_print. intros v' l [<- (lines & -> & Hts & Hall)].
    exists (lines ++ [CycleLine (cycle v) n (total_anomalies v) (total_scored v)]).
    rewrite <- app_assoc, scored_sum_app. split; [done|].
    split; [simpl; lia|]. apply Forall_app. split; [done|].
    apply Forall_singleton. simpl. lia.
  - eapply hoare_printed_bind; [tally_step|intros v; simpl].
    destruct (cycle v mod 10 =? 0); [tally_seq|]; tally_step.
Qed.

Lemma hoare_tally_cycle_except e :
  hoare_printed tally (cycle_except e) (fun _ => tally) tally.
Proof.
  unfold cycle_except. tally_seq.
  eapply hoare_printed_bind.
  { eapply hoare_printed_try_except with (H := tally);
      [tally_step|intros ?; tally_step|done]. }
  intros ?. simpl.
  eapply hoare_printed_try_except with (H := tally);
    [|intros ?; tally_step|done].
  tally_seq. tally_step.
Qed.

Lemma hoare_tally_cycle_body :
  hoare_printed tally (cycle_body model scaler imputer) (fun _ => tally) tally.
Proof.
  unfold cycle_body, incr_cycle. tally_seq.
  eapply hoare_printed_bind; [|intros ?; simpl; tally_step].
  eapply hoare_printed_try_except with (H := tally);
    [apply hoare_tally_cycle_try|apply hoare_tally_cycle_except|done].
Qed.

Lemma hoare_tally_scoring_loop fuel :
  hoare_printed tally (scoring_loop model scaler imputer fuel)
                (fun _ => tally) tally.
Proof.
  induction fuel as [|fuel IH]; simpl; [tally_step|].
  eapply hoare_printed_bind; [tally_step|intros running; simpl].
  destruct running; [|tally_step].
  eapply hoare_printed_bind;
    [apply hoare_tally_cycle_body|intros ?; simpl; exact IH].
Qed.

Lemma hoare_tally_main fuel :
  hoare_printed (fun _ l => l = l0) (main model scaler imputer fuel)
    (fun stopped v l =>
       if stopped then
         exists lines, l = l0 ++ lines ++
                           [Stopped (scored_sum lines) (total_anomalies v)] /\
                       total_scored v = scored_sum lines /\
                       Forall loop_line lines /\
                       conn v = Connection true []
       else tally v l)
    tally.
Proof.
  unfold main.
  eapply hoare_printed_bind.
  { apply (hoare_printed_modify _ _ (fun _ => tally)).
    intros v l ->. exists []. by rewrite app_nil_r. }
  intros ?. simpl.
  eapply hoare_printed_bind; [apply hoare_tally_scoring_loop|].
  intros stopped. simpl. destruct stopped; [|by apply hoare_printed_ret].
  set (closed_ := fun (v : mem) (l : list output) =>
         tally v l /\ conn v = Connection true []).
  eapply hoare_printed_bind.
  { unfold close.
    eapply hoare_printed_bind; [apply hoare_printed_slot|intros ?; simpl].
    apply (hoare_printed_modify _ _ (fun _ => closed_)).
    intros v l H. by split. }
  intros ?. simpl.
  eapply hoare_printed_bind; [apply hoare_printed_get_vars|intros v; simpl].
  eapply hoare_printed_bind;
    [|intros ?; simpl; apply hoare_printed_ret; intros v1 l1 H; exact H].
  apply hoare_printed_print.
  intros v' l [<- [(lines & -> & Hts & Hall) Hconn]].
  exists lines. by rewrite <- app_assoc, Hts.
Qed.

End Report.

(** X12: the summary adds up.  Whatever calls raise and whatever signals
    arrive, the lines the engine prints from the start of its loop on are
    loop lines, each cycle line reporting between 1 and [BATCH_SIZE] rows;
    when the engine stops on a signal they are followed by exactly one
    summary, whose total is the sum of the rows the cycle lines report, and
    the connection is closed; when [conn.close()] raises at shutdown, or
    the loop is still running, no summary is printed. *)
Theorem summary_adds_up model scaler imputer fuel w res w' :
  main model scaler imputer fuel w = (res, w') ->
  exists lines,
    Forall loop_line lines /\
    total_scored (vars w') = scored_sum lines /\
    match res with
    | Ret true =>
        printed w' =
          printed w ++ lines ++
          [Stopped (scored_sum lines) (total_anomalies (vars w'))] /\
        conn (vars w') = Connection true []
    | _ => printed w' = printed w ++ lines
    end.
Proof.
  intros Hrun.
  pose proof (hoare_tally_main model scaler imputer (printed w) fuel
                w res w' eq_refl Hrun) as H.
  destruct res as [[|]|e].
  - destruct H as (lines & Hp & Hts & Hall & Hconn). by exists lines.
  - destruct H as (lines & Hp & Hts & Hall). by exists lines.
  - destruct H as (lines & Hp & Hts & Hall). by exists lines.
Qed.

(** *** One pause in every cycle *)

#[local] Instance unpaused_preorder : PreOrder unpaused.
Proof.
  split.
  - intros w. by split.
  - intros w1 w2 w3 [Hp1 Hc1] [Hp2 Hc2]. split; congruence.
Qed.

Lemma unpaused_slot c : preserves unpaused (slot c).
Proof.
  intros w r w' H. split; [by eapply pauses_slot|].
  apply slot_inv in H as (Hv & _). by rewrite Hv.
Qed.

Lemma unpaused_modify f :
  (forall v, cycle (f v) = cycle v) -> preserves unpaused (modify f).
Proof. intros Hf w r w' [= <- <-]. split; [done|]. simpl. apply Hf. Qed.

Lemma unpaused_print o : preserves unpaused (print o).
Proof.
  intros w r w' H. assert (Hw : w' = (print o w).2) by (by rewrite H).
  rewrite Hw. split; [apply pauses_print|done].
Qed.

Lemma unpaused_datetime_now : preserves unpaused datetime_now.
Proof. by intros w r w' [= <- <-]. Qed.

Lemma unpaused_get_vars : preserves unpaused get_vars.
Proof. by intros w r w' [= <- <-]. Qed.

Ltac unpaused_tac :=
  repeat first
    [ apply preserves_bind; [apply _| |intros ?]
    | apply preserves_try_except; [apply _| |intros ?]
    | apply preserves_ret; apply _
    | apply preserves_throw; apply _
    | apply unpaused_slot | apply unpaused_get_vars
    | apply unpaused_print | apply unpaused_datetime_now
    | apply unpaused_modify; by intros [] ].

Lemma unpaused_cursor : preserves unpaused cursor.
Proof.
  unfold cursor. apply preserves_bind; [apply _|unpaused_tac|intros v].
  destruct (closed (conn v)); unpaused_tac.
Qed.

Lemma unpaused_executemany us : preserves unpaused (executemany us).
Proof. induction us as [|u us IH]; simpl; unpaused_tac. exact IH. Qed.

Lemma unpaused_score_batch model scaler imputer :
  preserves unpaused (score_batch model scaler imputer).
Proof.
  rewrite score_batch_eq.
  apply preserves_bind; [apply _|apply unpaused_cursor|intros ?].
  do 3 (apply preserves_bind; [apply _|unpaused_tac|intros ?]).
  destruct (select_pending _); [unpaused_tac|].
  do 5 (apply preserves_bind; [apply _|unpaused_tac|intros ?]).
  apply preserves_bind; [apply _|apply unpaused_executemany|intros ?].
  unfold commit. unpaused_tac.
Qed.

Lemma unpaused_cycle model scaler imputer :
  preserves unpaused (try_except (cycle_try model scaler imputer) cycle_except).
Proof.
  apply preserves_try_except; [apply _| |intros e].
  - unfold cycle_try.
    apply preserves_bind; [apply _|apply unpaused_score_batch|intros n].
    destruct (0 <? n).
    + apply preserves_bind; [apply _|apply unpaused_cursor|intros ?].
      unpaused_tac.
    + apply preserves_bind; [apply _|unpaused_tac|intros v].
      destruct (cycle v mod 10 =? 0); unpaused_tac.
  - unfold cycle_except, close, get_connection. unpaused_tac.
Qed.

Lemma cycle_body_pauses model scaler imputer w r w' :
  cycle_body model scaler imputer w = (r, w') ->
  pauses w' = pauses w ++ [Slept SCORING_INTERVAL] /\
  cycle (vars w') = cycle (vars w) + 1.
Proof.
  intros H.
  destruct r as [[]|e];
    [|by destruct (never_raises_cycle_body model scaler imputer w e w')].
  unfold cycle_body in H. inv_step H. inv_step Hrun. inv_step Hrun0.
  destruct (unpaused_cycle _ _ _ _ _ _ Hrun) as [Hp Hc].
  assert (Hw : w' = (sleep SCORING_INTERVAL w0).2) by (by rewrite Hrun1).
  rewrite Hw, pauses_sleep, Hp. simpl in *. by rewrite Hc.
Qed.

(** X13: the engine never polls without pausing.  Every cycle, whether it
    scored rows, found none or failed, ends with one pause of
    [SCORING_INTERVAL] seconds; after any run of the loop the pauses taken
    are as many as the cycles counted, and they are all of that length. *)
Theorem one_pause_per_cycle model scaler imputer fuel w r w' :
  scoring_loop model scaler imputer fuel w = (r, w') ->
  exists j, (j <= fuel)%nat /\
    cycle (vars w') = cycle (vars w) + Z.of_nat j /\
    pauses w' = pauses w ++ replicate j (Slept SCORING_INTERVAL).
Proof.
  revert w. induction fuel as [|fuel IH]; intros w H; simpl in H.
  - inv_step H. exists 0%nat. simpl. rewrite app_nil_r.
    split; [lia|]. split; [lia|done].
  - inv_step H; [|inv_step Hrun]. inv_step Hrun.
    destruct (running (deliver w)).
    + inv_step Hrun0.
      * apply cycle_body_pauses in Hrun as [Hp Hc].
        apply IH in Hrun1 as (j & Hj & Hc' & Hp'). exists (S j).
        rewrite Hp', Hp, Hc', Hc, pauses_deliver, vars_deliver, <- app_assoc.
        split; [lia|]. split; [lia|done].
      * subst r.
        by destruct (never_raises_cycle_body model scaler imputer _ _ _ Hrun).
    + inv_step Hrun0. exists 0%nat. simpl.
      rewrite app_nil_r, pauses_deliver, vars_deliver.
      split; [lia|]. split; [lia|done].
Qed.

(** *** Recovery from a closed connection *)

Lemma cycle_try_closed model scaler imputer (w : proc output mem) :
  closed (conn (vars w)) = true ->
  cycle_try model scaler imputer w =
    (Throw (Error (OtherError "InterfaceError: connection already closed")), w).
Proof.
  intros Hcl. unfold cycle_try. apply bind_throw_run.
  rewrite score_batch_eq. apply bind_throw_run.
  unfold cursor, bind, get_vars. by rewrite Hcl.
Qed.

(** X14: the engine recovers from a lost connection.  A cycle that begins
    with the connection closed makes no query: it logs the error of
    [conn.cursor()], calls [conn.close()] and [psycopg2.connect], and when
    no call raises it has a fresh connection at the end, the table being
    as it was; the next cycle in which no call raises then scores the first
    batch of pending rows. *)
Theorem reconnect_recovers model scaler imputer w :
  calm (script w) = true ->
  closed (conn (vars w)) = true ->
  exists w1,
    cycle_body model scaler imputer w = (Ret tt, w1) /\
    db (vars w1) = db (vars w) /\
    conn (vars w1) = Connection false [] /\
    effects w1 =
      effects w ++
      [Line (ScoringError
               (OtherError "InterfaceError: connection already closed"));
       Called "conn.close"; Called "psycopg2.connect"; Line Reconnected;
       Slept SCORING_INTERVAL] /\
    exists w2,
      cycle_body model scaler imputer w1 = (Ret tt, w2) /\
      db (vars w2) = scored model scaler imputer (db (vars w)).
Proof.
  intros Hc Hcl.
  set (e := OtherError "InterfaceError: connection already closed").
  set (w0 := (modify incr_cycle w).2).
  set (wa := (print (ScoringError e) w0).2).
  destruct (slot_calm "conn.close" wa Hc) as (wb & Hb & Hcb & Hvb & _ & Heb & _).
  set (wc := (modify (set_conn (Connection true [])) wb).2).
  destruct (slot_calm "psycopg2.connect" wc Hcb)
    as (wd & Hd & Hcd & Hvd & _ & Hed & _).
  set (we := (print Reconnected
                (modify (set_conn (Connection false [])) wd).2).2).
  set (w1 := (sleep SCORING_INTERVAL we).2).
  assert (Hclose : try_except close (fun _ => ret tt) wa = (Ret tt, wc)).
  { unfold try_except, close. by rewrite (bind_ret_run _ _ _ _ _ Hb). }
  assert (Hconn : try_except (get_connection;; print Reconnected)
                    (fun _ => print ReconnectFailed) wc = (Ret tt, we)).
  { unfold try_except, get_connection.
    rewrite (bind_ret_run _ _ wc tt (modify (set_conn (Connection false [])) wd).2);
      [done|].
    by rewrite (bind_ret_run _ _ _ _ _ Hd). }
  assert (Hexc : cycle_except e w0 = (Ret tt, we)).
  { unfold cycle_except.
    rewrite (bind_ret_run (print (ScoringError e)) _ w0 tt wa eq_refl).
    by rewrite (bind_ret_run _ _ _ _ _ Hclose). }
  assert (Hbody : cycle_body model scaler imputer w = (Ret tt, w1)).
  { unfold cycle_body.
    rewrite (bind_ret_run (modify incr_cycle) _ w tt w0 eq_refl).
    rewrite (bind_ret_run _ _ w0 tt we); [done|].
    unfold try_except. by rewrite (cycle_try_closed _ _ _ w0 Hcl). }
  assert (Hdb : db (vars w1) = db (vars w)).
  { simpl. rewrite Hvd. unfold wc. simpl. by rewrite Hvb. }
  exists w1. split; [exact Hbody|]. split; [exact Hdb|]. split; [done|].
  split.
  { unfold w1, effects. cbn [out sleep snd]. rewrite List.filter_app.
    fold (effects we). unfold we. rewrite effects_print_app.
    change (effects (modify (set_conn (Connection false [])) wd).2)
      with (effects wd).
    rewrite Hed. change (effects wc) with (effects wb). rewrite Heb.
    unfold wa. rewrite effects_print_app. change (effects w0) with (effects w).
    rewrite <- !app_assoc. done. }
  destruct (total_cycle_body model scaler imputer (db (vars w)) w1 Hcd
              (conj Hdb eq_refl)) as ([] & w2 & Hrun & _ & [Hdb2 _]).
  by exists w2.
Qed.

(** *** The anomalies total *)

Lemma count_anomalies_view t c :
  Forall (targets_pending t) (staged c) ->
  count_anomalies t <= count_anomalies (view t c).
Proof.
  intros Hst. unfold count_anomalies. apply Nat2Z.inj_le, submseteq_length.
  apply NoDup_submseteq.
  - apply NoDup_filter, NoDup_map_to_list.
  - intros [k r]. rewrite !list_elem_of_filter, !elem_of_map_to_list. simpl.
    intros [Hr Hk]. split; [done|]. apply view_frozen; [done..|].
    by rewrite Hr.
Qed.

Section Anomalies.
Context (model : IsolationForest) (scaler : StandardScaler)
        (imputer : SimpleImputer).

Local Abbreviation counted :=
  (fun v : mem => staged_pending v /\
                  0 <= total_anomalies v <= count_anomalies (db v)).

Lemma hoare_counted_executemany t us :
  Forall (targets_pending t) us ->
  hoare (fun v => counted v /\ db v = t) (executemany us)
        (fun _ v => counted v /\ db v = t) counted.
Proof.
  induction 1 as [|u us Hu Hus IH]; simpl.
  - apply hoare_ret. tauto.
  - eapply hoare_bind.
    { apply hoare_slot_weak. tauto. }
    intros ?. simpl. eapply hoare_bind; [|intros ?; apply IH].
    apply hoare_modify. intros v [[Hst Hk] Ht]. simpl.
    split; [|done]. split; [|done]. unfold staged_pending in *. simpl.
    apply Forall_app. split; [done|]. rewrite Ht. by apply Forall_singleton.
Qed.

Lemma counted_commit v :
  counted v ->
  counted (Mem (view (db v) (conn v)) (Connection (closed (conn v)) [])
               (cycle v) (total_scored v) (total_anomalies v)).
Proof.
  intros [Hst Hk]. split; [by constructor|]. simpl.
  pose proof (count_anomalies_view (db v) (conn v) Hst). lia.
Qed.

Lemma counted_set_conn closed v :
  counted v -> counted (set_conn (Connection closed []) v).
Proof. intros [Hst Hk]. split; [by constructor|done]. Qed.

Lemma counted_counters v c s :
  counted v -> counted (Mem (db v) (conn v) c s (total_anomalies v)).
Proof. done. Qed.

Lemma hoare_counted_close : hoare counted close (fun _ => counted) counted.
Proof.
  unfold close. eapply hoare_bind; [apply hoare_slot|intros ?; simpl].
  apply hoare_modify. intros v. apply counted_set_conn.
Qed.

Lemma hoare_counted_get_connection :
  hoare counted get_connection (fun _ => counted) counted.
Proof.
  unfold get_connection. eapply hoare_bind; [apply hoare_slot|intros ?; simpl].
  apply hoare_modify. intros v. apply counted_set_conn.
Qed.

(** When [score_batch] returns a batch, nothing is left in flight. *)
Lemma hoare_counted_score_batch :
  hoare counted (score_batch model scaler imputer)
        (fun n v => counted v /\ (0 < n -> staged (conn v) = []))
        counted.
Proof.
  rewrite score_batch_eq.
  eapply hoare_bind; [apply hoare_cursor_inv|intros ?; simpl].
  eapply hoare_bind; [apply hoare_slot|intros ?; simpl].
  eapply hoare_bind; [apply hoare_slot|intros ?; simpl].
  eapply hoare_bind; [apply hoare_get_vars|intros v; simpl].
  apply hoare_intro_pre. intros v' [-> Hfr].
  assert (Hpre : forall v, v = v' -> counted v) by (by intros ? ->).
  destruct (select_pending (view (db v') (conn v'))) as [|row rows] eqn:Hrows.
  - eapply hoare_bind; [by apply hoare_slot_weak|intros ?; simpl].
    apply hoare_ret. intros v ->. split; [done|lia].
  - rewrite <- Hrows.
    do 5 (eapply hoare_bind; [by apply hoare_slot_weak|intros ?; simpl]).
    eapply hoare_bind.
    { eapply hoare_conseq;
        [apply (hoare_counted_executemany (db v')), batch_targets_pending|..].
      - intros ? ->. by split.
      - intros ? v1 H. exact H.
      - done. }
    intros ?. simpl.
    eapply hoare_bind.
    { unfold commit.
      eapply hoare_bind.
      { apply (hoare_slot_weak (fun v => counted v /\ db v = db v') counted).
        tauto. }
      intros ?. simpl.
      apply (hoare_modify _ _
               (fun _ v => counted v /\ staged (conn v) = [])).
      intros v [H _]. split; [by apply counted_commit|done]. }
    intros ?. simpl.
    eapply hoare_bind.
    { apply (hoare_slot_weak
               (fun v => counted v /\ staged (conn v) = []) counted). tauto. }
    intros ?. simpl. apply hoare_ret. intros v [? ?]. auto.
Qed.

Lemma hoare_counted_cycle_try :
  hoare counted (cycle_try model scaler imputer) (fun _ => counted) counted.
Proof.
  unfold cycle_try.
  eapply hoare_bind; [apply hoare_counted_score_batch|intros n; simpl].
  destruct (0 <? n) eqn:Hn.
  - set (P := fun v : mem => counted v /\ staged (conn v) = []).
    assert (HPX : forall v, P v -> counted v) by (intros v [? ?]; auto).
    eapply hoare_bind.
    { eapply hoare_conseq; [apply (hoare_cursor_inv P)| | |exact HPX].
      - intros v [? Hst]. split; [done|]. apply Hst. lia.
      - intros ? v H. exact H. }
    intros ?. simpl.
    eapply hoare_bind; [by apply hoare_slot_weak|intros ?; simpl].
    eapply hoare_bind; [by apply hoare_slot_weak|intros ?; simpl].
    eapply hoare_bind.
    { apply (hoare_modify P _ (fun _ => counted)).
      intros v [[Hst Hk] Hnil]. split; [done|]. simpl.
      unfold view. rewrite Hnil. simpl. unfold count_anomalies. lia. }
    intros ?. simpl.
    eapply hoare_bind; [apply hoare_slot|intros ?; simpl].
    eapply hoare_bind.
    { apply hoare_modify_inv. intros v H. by apply counted_counters. }
    intros ?. simpl.
    eapply hoare_bind; [apply hoare_datetime_now|intros ?; simpl].
    eapply hoare_bind; [apply hoare_get_vars_inv|intros ?; simpl].
    apply hoare_print.
  - eapply hoare_conseq with (P' := counted) (Q' := fun _ => counted)
                             (X' := counted); [|tauto|done|done].
    eapply hoare_bind; [apply hoare_get_vars_inv|intros v; simpl].
    destruct (cycle v mod 10 =? 0).
    + eapply hoare_bind; [apply hoare_datetime_now|intros ?; simpl].
      apply hoare_print.
    + apply hoare_ret_inv.
Qed.

Lemma hoare_counted_cycle_body :
  hoare counted (cycle_body model scaler imputer) (fun _ => counted) counted.
Proof.
  unfold cycle_body, incr_cycle.
  eapply hoare_bind.
  { apply hoare_modify_inv. intros v H. by apply counted_counters. }
  intros ?. simpl.
  eapply hoare_bind; [|intros ?; simpl; apply hoare_sleep].
  eapply hoare_try_except with (H := counted);
    [apply hoare_counted_cycle_try| |done].
  intros e. unfold cycle_except.
  eapply hoare_bind; [apply hoare_print|intros ?; simpl].
  eapply hoare_bind.
  { eapply hoare_try_except with (H := counted);
      [apply hoare_counted_close|intros ?; apply hoare_ret_inv|done]. }
  intros ?. simpl.
  eapply hoare_try_except with (H := counted);
    [|intros ?; apply hoare_print|done].
  eapply hoare_bind; [apply hoare_counted_get_connection|intros ?; simpl].
  apply hoare_print.
Qed.

Lemma hoare_counted_main fuel :
  hoare (fun v => staged_pending v) (main model scaler imputer fuel)
        (fun _ => counted) counted.
Proof.
  unfold main.
  eapply hoare_bind.
  { apply (hoare_modify _ _ (fun _ => counted)). intros v Hst.
    split; [done|]. simpl. unfold count_anomalies. lia. }
  intros ?. simpl.
  eapply hoare_bind.
  { instantiate (1 := fun _ => counted).
    induction fuel as [|fuel IH]; simpl; [apply hoare_ret_inv|].
    eapply hoare_bind; [apply hoare_get_running|intros running; simpl].
    destruct running; [|apply hoare_ret_inv].
    eapply hoare_bind; [apply hoare_counted_cycle_body|intros ?; simpl; exact IH]. }
  intros stopped. simpl. destruct stopped; [|apply hoare_ret_inv].
  eapply hoare_bind; [apply hoare_counted_close|intros ?; simpl].
  eapply hoare_bind; [apply hoare_get_vars_inv|intros ?; simpl].
  eapply hoare_bind; [apply hoare_print|intros ?; simpl].
  apply hoare_ret_inv.
Qed.

End Anomalies.

(** X15: the anomalies total is never ahead of the table.  Whatever calls
    raise and whatever signals arrive, the total of anomalies the engine
    holds, which its cycle lines and its summary print, is never more than
    the number of rows of the table flagged as anomalies; it can be less,
    when a batch was committed and the count that follows it failed. *)
Theorem anomalies_total_is_a_lower_bound model scaler imputer fuel w res w' :
  staged_pending (vars w) ->
  main model scaler imputer fuel w = (res, w') ->
  0 <= total_anomalies (vars w') <= count_anomalies (db (vars w')).
Proof.
  intros Hst Hrun.
  pose proof (hoare_counted_main model scaler imputer fuel w res w' Hst Hrun)
    as H.
  destruct res; apply H.
Qed.

(** *** Sample runs *)

Lemma outage_cycle_result :
  (cycle_body sample_model sample_scaler sample_imputer (start outage)).1
    = Ret tt.
Proof. vm_compute. reflexivity. Qed.

Lemma outage_loop_result :
  (scoring_loop sample_model sample_scaler sample_imputer 3 (start outage)).1
    = Ret false.
Proof. vm_compute. reflexivity. Qed.

Lemma stopped_result :
  (main sample_model sample_scaler sample_imputer 5 mid_cycle).1 = Ret true.
Proof. vm_compute. reflexivity. Qed.

Lemma sample_pending : select_pending sample_db <> [].
Proof. vm_compute. discriminate. Qed.

Lemma idle_db_scored k r : idle_db !! k = Some r -> is_anomaly r <> None.
Proof.
  unfold idle_db. intros H. apply lookup_singleton_Some in H as [_ <-].
  discriminate.
Qed.

Lemma batch_all_or_nothing_witness :
  Ret tt = Ret tt /\
  ((db (vars outage_cycle_end) = sample_db /\
    total_scored (vars outage_cycle_end) = total_scored (vars (start outage))) \/
   (db (vars outage_cycle_end) =
      scored sample_model sample_scaler sample_imputer sample_db /\
    (total_scored (vars outage_cycle_end) = total_scored (vars (start outage)) \/
     total_scored (vars outage_cycle_end) =
       total_scored (vars (start outage)) +
       Z.of_nat (length (select_pending sample_db))))).
Proof.
  exact (batch_all_or_nothing sample_model sample_scaler sample_imputer
           sample_db (start outage) (Ret tt) outage_cycle_end
           (conj eq_refl eq_refl) (run_eta _ _ outage_cycle_result)).
Defined.

Lemma outcomes_belong_to_their_rows_witness :
  (forall k, db (vars outage_end) !! k = None <->
             db (vars (start outage)) !! k = None) /\
  (forall k r r',
     db (vars (start outage)) !! k = Some r ->
     db (vars outage_end) !! k = Some r' ->
     sensors r' = sensors r /\
     (r' = r \/
      is_anomaly r = None /\
      is_anomaly r' =
        Some (score_sample sample_model sample_scaler sample_imputer
                (features r)).1 /\
      anomaly_score r' =
        Some (score_sample sample_model sample_scaler sample_imputer
                (features r)).2)).
Proof.
  exact (outcomes_belong_to_their_rows sample_model sample_scaler
           sample_imputer 3 (start outage) (Ret false) outage_end eq_refl
           (run_eta _ _ outage_main_result)).
Defined.

Lemma backlog_drained_witness :
  exists stopped w' j,
    scoring_loop sample_model sample_scaler sample_imputer 2 quiet_start
      = (Ret stopped, w') /\
    (j <= 2)%nat /\
    (stopped = false -> j = 2%nat) /\
    (script quiet_start = [] -> running quiet_start = true ->
     stopped = false) /\
    db (vars w') =
      Nat.iter j (scored sample_model sample_scaler sample_imputer) sample_db /\
    backlog (db (vars w')) = (backlog sample_db - j * BATCH_SIZE)%nat /\
    ((backlog sample_db <= j * BATCH_SIZE)%nat ->
     forall k r, db (vars w') !! k = Some r -> is_anomaly r <> None).
Proof.
  exact (backlog_drained sample_model sample_scaler sample_imputer 2
           sample_db quiet_start eq_refl (conj eq_refl eq_refl)).
Defined.

Lemma busy_cycle_line_witness :
  exists w',
    cycle_body sample_model sample_scaler sample_imputer quiet_start
      = (Ret tt, w') /\
    vars w' =
      Mem (scored sample_model sample_scaler sample_imputer sample_db)
          (Connection false []) (cycle (vars quiet_start) + 1)
          (total_scored (vars quiet_start) +
           Z.of_nat (length (select_pending sample_db)))
          (count_anomalies
             (scored sample_model sample_scaler sample_imputer sample_db)) /\
    printed w' =
      printed quiet_start ++
      [CycleLine (cycle (vars quiet_start) + 1)
         (Z.of_nat (length (select_pending sample_db)))
         (count_anomalies
            (scored sample_model sample_scaler sample_imputer sample_db))
         (total_scored (vars quiet_start) +
          Z.of_nat (length (select_pending sample_db)))] /\
    0 < Z.of_nat (length (select_pending sample_db)) <= Z.of_nat BATCH_SIZE.
Proof.
  exact (busy_cycle_line sample_model sample_scaler sample_imputer sample_db
           quiet_start eq_refl (conj eq_refl eq_refl) sample_pending).
Defined.

Lemma idle_cycle_waits_witness :
  exists w',
    cycle_body sample_model sample_scaler sample_imputer idle_start
      = (Ret tt, w') /\
    vars w' = incr_cycle (vars idle_start) /\
    printed w' =
      printed idle_start ++
      (if (cycle (vars idle_start) + 1) mod 10 =? 0
       then [Waiting (total_scored (vars idle_start))] else []).
Proof.
  exact (idle_cycle_waits sample_model sample_scaler sample_imputer idle_db
           idle_start eq_refl (conj eq_refl eq_refl) idle_db_scored).
Defined.

Lemma summary_adds_up_witness :
  exists lines,
    Forall loop_line lines /\
    total_scored (vars stopped_end) = scored_sum lines /\
    printed stopped_end =
      printed mid_cycle ++ lines ++
      [Stopped (scored_sum lines) (total_anomalies (vars stopped_end))] /\
    conn (vars stopped_end) = Connection true [].
Proof.
  exact (summary_adds_up sample_model sample_scaler sample_imputer 5
           mid_cycle (Ret true) stopped_end (run_eta _ _ stopped_result)).
Defined.

Lemma one_pause_per_cycle_witness :
  exists j, (j <= 3)%nat /\
    cycle (vars outage_loop_end) = cycle (vars (start outage)) + Z.of_nat j /\
    pauses outage_loop_end =
      pauses (start outage) ++ replicate j (Slept SCORING_INTERVAL).
Proof.
  exact (one_pause_per_cycle sample_model sample_scaler sample_imputer 3
           (start outage) (Ret false) outage_loop_end
           (run_eta _ _ outage_loop_result)).
Defined.

Lemma reconnect_recovers_witness :
  exists w1,
    cycle_body sample_model sample_scaler sample_imputer closed_start
      = (Ret tt, w1) /\
    db (vars w1) = db (vars closed_start) /\
    conn (vars w1) = Connection false [] /\
    effects w1 =
      effects closed_start ++
      [Line (ScoringError
               (OtherError "InterfaceError: connection already closed"));
       Called "conn.close"; Called "psycopg2.connect"; Line Reconnected;
       Slept SCORING_INTERVAL] /\
    exists w2,
      cycle_body sample_model sample_scaler sample_imputer w1 = (Ret tt, w2) /\
      db (vars w2) =
        scored sample_model sample_scaler sample_imputer
          (db (vars closed_start)).
Proof.
  exact (reconnect_recovers sample_model sample_scaler sample_imputer
           closed_start eq_refl eq_refl).
Defined.

Lemma anomalies_total_is_a_lower_bound_witness :
  0 <= total_anomalies (vars outage_end)
    <= count_anomalies (db (vars outage_end)).
Proof.
  exact (anomalies_total_is_a_lower_bound sample_model sample_scaler
           sample_imputer 3 (start outage) (Ret false) outage_end
           (Forall_nil_2 _) (run_eta _ _ outage_main_result)).
Defined.

End MLEngineRuns.

(** ** The seeding script *)

Module SeedFacts.
Import Seed.

(** *** The chunks *)

Section Chunks.
Context {A : Type}.
Implicit Types l df : list A.

Lemma range_from_0 k c :
  range 0 k c = (fun j => j * c)%nat <$> seq 0 ((k + c - 1) / c)%nat.
Proof. unfold range. by rewrite Nat.sub_0_r. Qed.

Lemma concat_chunks l c n :
  concat ((fun i => take c (drop i l)) <$> ((fun j => j * c)%nat <$> seq 0 n))
    = take (n * c) l.
Proof.
  induction n as [|n IH]; [done|].
  rewrite seq_S, !fmap_app, concat_app, IH. simpl.
  rewrite app_nil_r, take_take_drop. f_equal. lia.
Qed.

Lemma ceil_covers k c : (0 < c)%nat -> (k <= (k + c - 1) / c * c)%nat.
Proof.
  intros Hc. pose proof (Nat.div_mod_eq (k + c - 1) c) as Hd.
  pose proof (Nat.mod_upper_bound (k + c - 1) c) as Hm. nia.
Qed.

Lemma ceil_tight k c j :
  (0 < c)%nat -> (j < (k + c - 1) / c)%nat -> (j * c < k)%nat.
Proof.
  intros Hc Hj. pose proof (Nat.div_mod_eq (k + c - 1) c) as Hd.
  pose proof (Nat.mod_upper_bound (k + c - 1) c) as Hm. nia.
Qed.

Lemma chunk_size_pos : (0 < CHUNK_SIZE)%nat.
Proof. unfold CHUNK_SIZE. lia. Qed.

Lemma concat_chunks_take l k j :
  concat (chunk l <$> take j (range 0 k CHUNK_SIZE)) =
    take (Nat.min j ((k + CHUNK_SIZE - 1) / CHUNK_SIZE) * CHUNK_SIZE) l.
Proof.
  rewrite range_from_0, <- fmap_take, take_seq. apply concat_chunks.
Qed.

Lemma concat_all_chunks l k :
  (length l <= k)%nat ->
  concat (chunk l <$> range 0 k CHUNK_SIZE) = l.
Proof.
  intros Hl. rewrite range_from_0. unfold chunk. rewrite concat_chunks.
  apply take_ge. pose proof (ceil_covers k CHUNK_SIZE chunk_size_pos). lia.
Qed.

End Chunks.

#[local] Opaque CHUNK_SIZE.

(** X16: the chunks of the seeding loop.  For every data frame and split
    index, the slices the loop hands to [to_sql], taken in order, are the
    training rows, each once; together with the rows the replay loads they
    are the data frame.  There are [ceil(split_idx / CHUNK_SIZE)] of them,
    none when [split_idx] is 0, none larger than [CHUNK_SIZE], none empty
    (when the split index lies within the frame), and the progress of the
    last one is [split_idx] of [split_idx]. *)
Theorem chunks_partition {A} (df : list A) (k : nat) :
  let train_df := take k df in
  let starts := range 0 k CHUNK_SIZE in
  concat (chunk train_df <$> starts) = train_df /\
  concat (chunk train_df <$> starts) ++ drop k df = df /\
  length starts = ((k + CHUNK_SIZE - 1) / CHUNK_SIZE)%nat /\
  (k = 0%nat -> starts = []) /\
  Forall (fun i => (length (chunk train_df i) <= CHUNK_SIZE)%nat) starts /\
  ((k <= length df)%nat -> Forall (fun i => chunk train_df i <> []) starts) /\
  (forall i, last starts = Some i -> inserted i k = k).
Proof.
  intros train_df starts.
  assert (Hall : concat (chunk train_df <$> starts) = train_df).
  { apply concat_all_chunks. unfold train_df. rewrite length_take. lia. }
  split; [exact Hall|]. split; [rewrite Hall; apply take_drop|].
  unfold starts. rewrite range_from_0.
  split; [by rewrite length_fmap, length_seq|].
  split; [by intros ->|].
  split.
  { apply Forall_forall. intros i _. cbv beta. unfold chunk.
    rewrite length_take. lia. }
  split.
  { intros Hk. apply Forall_fmap, Forall_forall. intros j Hj.
    apply elem_of_seq in Hj as [_ Hj]. rewrite Nat.add_0_l in Hj.
    pose proof (ceil_tight k CHUNK_SIZE j chunk_size_pos Hj) as Hlt.
    intros Hnil. apply (f_equal length) in Hnil. unfold chunk in Hnil.
    rewrite length_take, length_drop in Hnil. unfold train_df in Hnil.
    rewrite length_take in Hnil. change (length []) with 0%nat in Hnil.
    pose proof chunk_size_pos. lia. }
  intros i Hlast.
  destruct ((k + CHUNK_SIZE - 1) / CHUNK_SIZE)%nat as [|n] eqn:Hn; [done|].
  rewrite seq_S, fmap_app in Hlast. simpl in Hlast.
  rewrite last_snoc in Hlast. injection Hlast as <-.
  pose proof (ceil_covers k CHUNK_SIZE chunk_size_pos) as Hc.
  rewrite Hn in Hc. unfold inserted. lia.
Qed.

(** *** Runs of the seeding script *)

Section Runs.
Context {A : Type}.
Implicit Types w : proc output (list A).

Lemma clear_outcome w r w' :
  finally (slot "pd.io.sql.text";;
           slot "conn.execute TRUNCATE";;
           slot "conn.commit";;
           modify (fun _ : list A => []))
          (slot "conn.close") w = (r, w') ->
  (vars w' = vars w \/ vars w' = []) /\
  (r = Ret tt \/ exists e, r = Throw (Error e)).
Proof.
  intros H. apply finally_inv in H as (r1 & w1 & r2 & Hb & Hc & Hr).
  assert (Hb' : (vars w1 = vars w \/ vars w1 = []) /\
                (r1 = Ret tt \/ exists e, r1 = Throw (Error e))).
  { apply bind_inv in Hb as [([] & w0 & H0 & Hb)|(e & H0 & ->)].
    2: { pose proof (result_slot _ _ _ _ H0) as [?|?]; [discriminate|].
         apply slot_inv in H0 as (Hv0 & _). rewrite Hv0. auto. }
    apply slot_inv in H0 as (Hv0 & _). rewrite <- Hv0.
    apply bind_inv in Hb as [([] & w2 & H1 & Hb)|(e & H1 & ->)].
    - apply slot_inv in H1 as (Hv1 & _).
      apply bind_inv in Hb as [([] & w3 & H2 & Hb)|(e & H2 & ->)].
      + inv_step Hb. auto.
      + pose proof (result_slot _ _ _ _ H2) as [?|?]; [discriminate|].
        apply slot_inv in H2 as (Hv2 & _). rewrite Hv2, Hv1. auto.
    - pose proof (result_slot _ _ _ _ H1) as [?|?]; [discriminate|].
      apply slot_inv in H1 as (Hv1 & _). rewrite Hv1. auto. }
  destruct Hb' as [Hv1 Hr1].
  pose proof (result_slot _ _ _ _ Hc) as Hr2.
  apply slot_inv in Hc as (Hv2 & _). rewrite Hv2. split; [done|].
  destruct r2 as [[]|x]; [by subst|]. subst r.
  destruct Hr2 as [?|[e ->]]; [discriminate|eauto].
Qed.

(** The check either lets the seeding go on, with the table as it was or
    emptied on a [y], or leaves the script with status 0, the table
    untouched. *)
Lemma check_existing_outcome response w r w' :
  check_existing response w = (r, w') ->
  (r = Ret tt /\
   (vars w' = vars w \/ vars w' = [] /\ response = "y" /\ vars w <> [])) \/
  (r = Throw (SystemExit 0) /\ vars w' = vars w /\ response <> "y" /\
   vars w <> []).
Proof.
  unfold check_existing. intros H.
  set (Good := fun (r : result unit) (w' : proc output (list A)) =>
    ((r = Ret tt \/ exists e, r = Throw (Error e)) /\
     (vars w' = vars w \/ vars w' = [] /\ response = "y" /\ vars w <> [])) \/
    (r = Throw (SystemExit 0) /\ vars w' = vars w /\ response <> "y" /\
     vars w <> [])).
  assert (Hbody : forall r1 w1,
    (slot "pd.read_sql COUNT";;
     v <- get_vars;
     let row_count := Z.of_nat (length v) in
     if 0 <? row_count
     then
      print (AlreadyHas row_count);;
      slot "input";;
      (if negb (response =? "y")%string
       then print Aborted;; sys_exit 0
       else ret tt);;
      slot "engine.connect";;
      finally
        (slot "pd.io.sql.text";;
         slot "conn.execute TRUNCATE";;
         slot "conn.commit";; modify (fun _ : list A => []))
        (slot "conn.close");;
      print Cleared
     else ret tt) w = (r1, w1) -> Good r1 w1).
  { intros r1 w1 Hb. unfold Good.
    apply bind_inv in Hb as [([] & w2 & H1 & Hb)|(e & H1 & ->)].
    2: { pose proof (result_slot _ _ _ _ H1) as [?|?]; [discriminate|].
         apply slot_inv in H1 as (Hv & _). left. auto. }
    apply slot_inv in H1 as (Hv2 & _).
    apply bind_inv in Hb as [(v & w3 & H2 & Hb)|(e & H2 & ->)]; [|inv_step H2].
    inv_step H2. simpl in Hb. rewrite Hv2 in Hb.
    destruct (0 <? Z.of_nat (length (vars w))) eqn:Hcnt; [|inv_step Hb; left; auto].
    assert (Hne : vars w <> []).
    { intros Hnil. rewrite Hnil in Hcnt. simpl in Hcnt. discriminate. }
    apply bind_inv in Hb as [([] & w3 & H3 & Hb)|(e & H3 & ->)]; [|inv_step H3].
    inv_step H3.
    apply bind_inv in Hb as [([] & w4 & H4 & Hb)|(e & H4 & ->)].
    2: { pose proof (result_slot _ _ _ _ H4) as [?|?]; [discriminate|].
         apply slot_inv in H4 as (Hv & _). left. simpl in Hv.
         rewrite Hv, Hv2. auto. }
    apply slot_inv in H4 as (Hv4 & _). simpl in Hv4.
    apply bind_inv in Hb as [([] & w5 & H5 & Hb)|(e & H5 & ->)].
    2: { destruct (response =? "y")%string eqn:Hy; simpl in H5; [inv_step H5|].
         apply String.eqb_neq in Hy.
         apply bind_inv in H5 as [([] & w6 & H6 & H5)|(e' & H6 & ?)];
           [|inv_step H6].
         inv_step H6. inv_step H5. right. simpl. rewrite Hv4, Hv2. auto. }
    assert (Hy : response = "y" /\ vars w5 = vars w).
    { destruct (response =? "y")%string eqn:Hy; simpl in H5.
      - apply String.eqb_eq in Hy. inv_step H5. by rewrite Hv4, Hv2.
      - apply bind_inv in H5 as [([] & w6 & H6 & H5)|(e' & H6 & ?)];
          [inv_step H5|inv_step H6]. }
    destruct Hy as [Hy Hv5]. clear H5.
    apply bind_inv in Hb as [([] & w6 & H6 & Hb)|(e & H6 & ->)].
    2: { pose proof (result_slot _ _ _ _ H6) as [?|?]; [discriminate|].
         apply slot_inv in H6 as (Hv & _). left. rewrite Hv, Hv5. auto. }
    apply slot_inv in H6 as (Hv6 & _).
    apply bind_inv in Hb as [([] & w7 & H7 & Hb)|(e & H7 & ->)].
    - apply clear_outcome in H7 as [Hv7 _]. inv_step Hb. left. simpl.
      split; [auto|]. rewrite Hv6, Hv5 in Hv7. destruct Hv7; auto.
    - apply clear_outcome in H7 as [Hv7 Hr7]. left.
      split; [destruct Hr7 as [?|?]; [discriminate|auto]|].
      rewrite Hv6, Hv5 in Hv7. destruct Hv7; auto. }
  apply try_except_inv in H as [[H Hne]|(e & w1 & H1 & H2)].
  - apply Hbody in H. destruct H as [[[->|[e ->]] Hv]|Hx].
    + left. auto.
    + by destruct (Hne e).
    + right. exact Hx.
  - apply Hbody in H1. inv_step H2. left. split; [done|].
    destruct H1 as [[_ Hv]|[? _]]; [done|discriminate].
Qed.

Lemma insert_chunks_outcome (train_df : list A) split_idx starts :
  forall w r w',
  insert_chunks train_df split_idx starts w = (r, w') ->
  exists j, (j <= length starts)%nat /\
    vars w' = vars w ++ concat (chunk train_df <$> take j starts) /\
    (r = Ret tt -> j = length starts) /\
    (r = Ret tt \/ exists e, r = Throw (Error e)).
Proof.
  induction starts as [|i rest IH]; intros w r w' H; simpl in H.
  - inv_step H. exists 0%nat. simpl. rewrite app_nil_r. auto.
  - apply bind_inv in H as [([] & w1 & H1 & H)|(e & H1 & ->)].
    2: { pose proof (result_slot _ _ _ _ H1) as [?|?]; [discriminate|].
         apply slot_inv in H1 as (Hv & _). exists 0%nat. simpl.
         rewrite app_nil_r. split; [lia|]. split; [done|].
         split; [discriminate|auto]. }
    apply slot_inv in H1 as (Hv1 & _).
    apply bind_inv in H as [([] & w2 & H2 & H)|(e & H2 & ->)]; [|inv_step H2].
    inv_step H2.
    apply bind_inv in H as [([] & w3 & H3 & H)|(e & H3 & ->)]; [|inv_step H3].
    inv_step H3.
    apply IH in H as (j & Hj & Hv & Hret & Hr). exists (S j). simpl in *.
    rewrite Hv, Hv1, <- app_assoc. split; [lia|]. split; [done|].
    split; [intros ?; f_equal; auto|done].
Qed.

End Runs.

(** X17: what seeding leaves in the table.  In a run that no signal
    interrupts, whatever calls raise, the script leaves the table as the
    rows it found (or no rows, which takes a [y] to the prompt) followed by
    a prefix of the training rows that ends at a chunk boundary; when it
    comes to its end the prefix is all the training rows.  It leaves with
    [sys.exit] only with status 0, on an answer other than [y] to the
    prompt, and has then changed nothing. *)
Theorem seeding_appends_whole_chunks {A} (df : list A) response k w r w' :
  no_signals (script w) = script w ->
  split_idx (length df) TRAIN_RATIO = Some k ->
  main df response w = (r, w') ->
  exists base j,
    (base = vars w \/ base = [] /\ response = "y" /\ vars w <> []) /\
    vars w' = base ++ take (j * CHUNK_SIZE) (take k df) /\
    match r with
    | Ret _ => vars w' = base ++ take k df
    | Throw (SystemExit c) =>
        c = 0 /\ response <> "y" /\ vars w <> [] /\ vars w' = vars w
    | Throw (Error _) => True
    end.
Proof.
  intros _ Hk H. unfold main in H. rewrite Hk in H.
  assert (Hzero : forall v : list A, v = v ++ take (0 * CHUNK_SIZE) (take k df)).
  { intros v. simpl. by rewrite take_0, app_nil_r. }
  apply bind_inv in H as [([] & w1 & H1 & H)|(e & H1 & ->)].
  2: { pose proof (result_slot _ _ _ _ H1) as [?|[e' [= ->]]]; [discriminate|].
       apply slot_inv in H1 as (Hv & _). exists (vars w), 0%nat.
       rewrite Hv. split; [auto|]. split; [apply Hzero|done]. }
  apply slot_inv in H1 as (Hv1 & _).
  apply bind_inv in H as [([] & w1' & H1' & H)|(e & H1' & ->)].
  2: { pose proof (result_slot _ _ _ _ H1') as [?|[e' [= ->]]]; [discriminate|].
       apply slot_inv in H1' as (Hv & _). exists (vars w), 0%nat.
       rewrite Hv, Hv1. split; [auto|]. split; [apply Hzero|done]. }
  apply slot_inv in H1' as (Hv1' & _). rewrite Hv1 in Hv1'.
  clear Hv1. rename Hv1' into Hv1. clear w1. rename w1' into w1.
  apply bind_inv in H as [([] & w2 & H2 & H)|(e & H2 & ->)].
  2: { apply check_existing_outcome in H2
         as [[? _]|([= ->] & Hv & Hy & Hne)]; [discriminate|].
       rewrite Hv1 in Hv, Hne. exists (vars w), 0%nat. rewrite Hv.
       split; [auto|]. split; [apply Hzero|done]. }
  apply check_existing_outcome in H2 as [[_ Hbase]|[? _]]; [|discriminate].
  rewrite Hv1 in Hbase.
  assert (Hb : vars w2 = vars w \/ vars w2 = [] /\ response = "y" /\ vars w <> []).
  { destruct Hbase as [->|(-> & ? & ?)]; auto. }
  clear Hbase.
  apply bind_inv in H as [([] & w3 & H3 & H)|(e & H3 & ->)]; [|inv_step H3].
  inv_step H3.
  apply bind_inv in H as [([] & w4 & H4 & H)|(e & H4 & ->)].
  2: { apply insert_chunks_outcome in H4 as (j & Hj & Hv & _ & Hr).
       simpl in Hv. rewrite concat_chunks_take in Hv.
       exists (vars w2), (Nat.min j ((k + CHUNK_SIZE - 1) / CHUNK_SIZE)).
       split; [destruct Hb as [->|(-> & ? & ?)]; auto|]. split; [done|].
       destruct Hr as [?|[e' [= ->]]]; [discriminate|done]. }
  apply insert_chunks_outcome in H4 as (j & Hj & Hv4 & Hret & _).
  simpl in Hv4. rewrite (Hret eq_refl), firstn_all in Hv4.
  assert (Hfull : vars w4 = vars w2 ++ take k df).
  { rewrite Hv4, concat_all_chunks; [done|]. rewrite length_take. lia. }
  assert (Hpre : vars w4 =
            vars w2 ++ take ((k + CHUNK_SIZE - 1) / CHUNK_SIZE * CHUNK_SIZE)
                            (take k df)).
  { rewrite Hfull. f_equal. symmetry. apply take_ge. rewrite length_take.
    pose proof (ceil_covers k CHUNK_SIZE chunk_size_pos). lia. }
  assert (Hend : forall w5 : proc output (list A), vars w5 = vars w4 ->
    exists base j,
      (base = vars w \/ base = [] /\ response = "y" /\ vars w <> []) /\
      vars w5 = base ++ take (j * CHUNK_SIZE) (take k df) /\
      vars w5 = base ++ take k df).
  { intros w5 Hv5. exists (vars w2), ((k + CHUNK_SIZE - 1) / CHUNK_SIZE)%nat.
    rewrite Hv5. split; [destruct Hb as [->|(-> & ? & ?)]; auto|]. auto. }
  clear Hret Hv4.
  apply bind_inv in H as [([] & w5 & H5 & H)|(e & H5 & ->)]; [|inv_step H5].
  inv_step H5.
  apply bind_inv in H as [([] & w6 & H6 & H)|(e & H6 & ->)].
  2: { pose proof (result_slot _ _ _ _ H6) as [?|[e' [= ->]]]; [discriminate|].
       apply slot_inv in H6 as (Hv & _). simpl in Hv.
       destruct (Hend w' Hv) as (base & j' & ? & ? & _). by exists base, j'. }
  apply slot_inv in H6 as (Hv6 & _). simpl in Hv6.
  apply bind_inv in H as [(v & w7 & H7 & H)|(e & H7 & ->)]; [|inv_step H7].
  inv_step H7.
  apply bind_inv in H as [([] & w8 & H8 & H)|(e & H8 & ->)]; [|inv_step H8].
  inv_step H8.
  pose proof (result_slot _ _ _ _ H) as Hr.
  apply slot_inv in H as (Hv & _). simpl in Hv. rewrite Hv6 in Hv.
  destruct (Hend w' Hv) as (base & j' & Hbase & Hpref & Hall).
  exists base, j'. split; [done|]. split; [done|].
  destruct Hr as [->|[e ->]]; done.
Qed.

(** *** Seeding when no call raises *)

Section SeedCalm.
Context {A : Type}.
Implicit Types w : proc output (list A).

Lemma total_printed_check_existing response :
  total_printed (fun (v : list A) _ => v = []) (check_existing response)
                (fun _ v _ => v = []).
Proof.
  unfold check_existing. apply total_printed_try_except.
  eapply total_printed_bind; [apply total_printed_slot|intros ?; cbv beta].
  eapply total_printed_bind; [apply total_printed_get_vars|intros v; cbv beta].
  apply total_printed_intro_pre. intros v1 l1 [-> ->]. cbv zeta.
  change (0 <? Z.of_nat (length (@nil A))) with false. cbv iota.
  apply total_printed_ret. by intros v l [-> _].
Qed.

Lemma total_printed_insert_chunks (train_df : list A) split_idx starts :
  forall base,
  total_printed (fun v _ => v = base)
    (insert_chunks train_df split_idx starts)
    (fun _ v _ => v = base ++ concat (chunk train_df <$> starts)).
Proof.
  induction starts as [|i rest IH]; intros base; cbn [insert_chunks].
  - apply total_printed_ret. intros v l ->. cbn. by rewrite app_nil_r.
  - eapply total_printed_bind; [apply total_printed_slot|intros ?; cbv beta].
    eapply total_printed_bind.
    { apply (total_printed_modify _ _
               (fun _ v _ => v = base ++ chunk train_df i)).
      by intros v l ->. }
    intros ?. cbv beta.
    eapply total_printed_bind.
    { apply (total_printed_print _ _
               (fun _ v _ => v = base ++ chunk train_df i)). done. }
    intros ?. cbv beta.
    eapply total_printed_conseq; [apply (IH (base ++ chunk train_df i))|done|].
    intros ? v l ->. rewrite fmap_cons, concat_cons. by rewrite <- app_assoc.
Qed.

End SeedCalm.

(** X18: seeding an empty table.  When no signal interrupts the run, no
    call raises and the table is empty, the script comes to its end
    whatever the answer to a prompt would be, the table then holds exactly
    the training rows, in their order, and the row count the script
    verifies and prints last is [split_idx]. *)
Theorem seeding_fills_table {A} (df : list A) response k w :
  no_signals (script w) = script w ->
  calm (script w) = true ->
  split_idx (length df) TRAIN_RATIO = Some k ->
  (k <= length df)%nat ->
  vars w = [] ->
  exists w',
    main df response w = (Ret tt, w') /\
    vars w' = take k df /\
    last (printed w') = Some (Verified (Z.of_nat k)).
Proof.
  intros _ Hc Hk Hle Hempty.
  assert (H : total_printed (fun v _ => v = []) (main df response)
                (fun _ v l => v = take k df /\
                              last l = Some (Verified (Z.of_nat k)))).
  { unfold main. rewrite Hk. cbv zeta.
    eapply total_printed_bind; [apply total_printed_slot|intros ?; cbv beta].
    eapply total_printed_bind; [apply total_printed_slot|intros ?; cbv beta].
    eapply total_printed_bind;
      [apply total_printed_check_existing|intros ?; cbv beta].
    eapply total_printed_bind.
    { apply (total_printed_print _ _ (fun _ (v : list A) _ => v = [])). done. }
    intros ?. cbv beta.
    eapply total_printed_bind;
      [apply total_printed_insert_chunks|intros ?; cbv beta].
    set (done_ := fun (v : list A) (_ : list output) => v = take k df).
    eapply total_printed_bind.
    { apply (total_printed_print _ _ (fun _ => done_)).
      intros v l ->. unfold done_. rewrite app_nil_l.
      apply concat_all_chunks. rewrite length_take. lia. }
    intros ?. cbv beta.
    eapply total_printed_bind; [apply total_printed_slot|intros ?; cbv beta].
    eapply total_printed_bind; [apply total_printed_get_vars|intros v; cbv beta].
    eapply total_printed_bind.
    { apply (total_printed_print _ _
               (fun _ v' l => v' = take k df /\
                              last l = Some (Verified (Z.of_nat k)))).
      intros v' l [-> Hv]. unfold done_ in Hv. rewrite last_snoc, Hv.
      split; [done|]. rewrite length_take. do 3 f_equal. lia. }
    intros ?. cbv beta. apply total_printed_slot. }
  destruct (H w Hc Hempty) as ([] & w' & Hrun & _ & Hv & Hl). eauto.
Qed.

(** X19: declining the prompt.  When no signal interrupts the run, no call
    raises, the table holds rows and the answer to the prompt is not [y],
    the script prints that it aborts and leaves with status 0 right after
    the prompt: it has made no call to clear the table or to insert a
    chunk, and the table is as it was. *)
Theorem declined_prompt_aborts {A} (df : list A) response k w :
  no_signals (script w) = script w ->
  calm (script w) = true ->
  split_idx (length df) TRAIN_RATIO = Some k ->
  vars w <> [] ->
  response <> "y" ->
  exists w',
    main df response w = (Throw (SystemExit 0), w') /\
    vars w' = vars w /\
    effects w' =
      effects w ++
      [Called "pd.to_datetime"; Called "create_engine";
       Called "pd.read_sql COUNT";
       Line (AlreadyHas (Z.of_nat (length (vars w)))); Called "input";
       Line Aborted].
Proof.
  intros _ Hc Hk Hne Hy.
  destruct (slot_calm "pd.to_datetime" w Hc)
    as (w0 & H0 & Hc0 & Hv0 & _ & He0 & _).
  destruct (slot_calm "create_engine" w0 Hc0)
    as (w1 & H1 & Hc1 & Hv1 & _ & He1 & _).
  rewrite Hv0 in Hv1. rewrite He0 in He1.
  destruct (slot_calm "pd.read_sql COUNT" w1 Hc1)
    as (w2 & H2 & Hc2 & Hv2 & _ & He2 & _).
  set (w3 := (print (AlreadyHas (Z.of_nat (length (vars w)))) w2).2).
  destruct (slot_calm "input" w3 Hc2) as (w4 & H4 & Hc4 & Hv4 & _ & He4 & _).
  exists (print Aborted w4).2.
  assert (Hcnt : (0 <? Z.of_nat (length (vars w))) = true).
  { apply Z.ltb_lt. destruct (vars w); [done|]. simpl length. lia. }
  assert (Hneq : negb (response =? "y")%string = true).
  { apply negb_true_iff. by apply String.eqb_neq. }
  split.
  { unfold main. rewrite Hk. cbv zeta.
    rewrite (bind_ret_run _ _ _ _ _ H0).
    rewrite (bind_ret_run _ _ _ _ _ H1).
    apply bind_throw_run. unfold check_existing. apply try_except_exit_run.
    rewrite (bind_ret_run _ _ _ _ _ H2).
    unfold bind at 1. unfold get_vars at 1. cbv zeta.
    rewrite Hv2, Hv1, Hcnt.
    unfold bind at 1. unfold print at 1. fold w3.
    change (Proc (running w2) (script w2) (wall w2) (ticks w2)
                 (out w2 ++ [Line (AlreadyHas (Z.of_nat (length (vars w))))])
                 (vars w2)) with w3.
    rewrite (bind_ret_run _ _ _ _ _ H4).
    apply bind_throw_run. rewrite Hneq. reflexivity. }
  split; [simpl; by rewrite Hv4, <- Hv1, <- Hv2|].
  rewrite effects_print_app, He4. unfold w3.
  rewrite effects_print_app, He2, He1, <- !app_assoc. done.
Qed.

(** X20: the count of rows the seeding script leaves for the replay is the
    number of rows the producer loads.  For every data frame of fewer than
    100000 rows both scripts compute a split index, and [remaining] is the
    length of the producer's replay set; the training rows and the replay
    rows add up to the data frame. *)
Theorem remaining_is_replayed {A} (df : list A) :
  Z.of_nat (length df) < 100000 ->
  exists k realtime_df,
    split_idx (length df) TRAIN_RATIO = Some k /\
    train_df df = Some (take k df) /\
    Realtime.load_realtime_data df TRAIN_RATIO = Some realtime_df /\
    remaining df = Some (Z.of_nat (length realtime_df)) /\
    (k + length realtime_df = length df)%nat.
Proof.
  intros Hlen.
  destruct (SplitFacts.split_checked_sound _ 0 (length df)
              SplitFacts.split_checked_100000) as (k & Hk & Hle & _); [lia|].
  exists k, (drop k df).
  unfold Realtime.load_realtime_data, remaining, train_df. rewrite Hk.
  cbn [mbind option_bind]. rewrite length_drop.
  repeat split; [f_equal; lia|lia].
Qed.

(** *** Sample runs *)

Lemma sample_split : split_idx (length sample_df) TRAIN_RATIO = Some 62%nat.
Proof. vm_compute. reflexivity. Qed.

Lemma sample_split_le : (62 <= length sample_df)%nat.
Proof. unfold sample_df. rewrite length_seq. lia. Qed.

Lemma fresh_result : (main sample_df "y" (start [] [])).1 = Ret tt.
Proof. vm_compute. reflexivity. Qed.

Lemma seeded_table : vars seeded_start <> [].
Proof. discriminate. Qed.

Lemma declined : "n" <> "y".
Proof. discriminate. Qed.

Lemma seeding_appends_whole_chunks_witness :
  exists base j,
    (base = vars (start [] []) \/
     base = [] /\ "y" = "y" /\ vars (start (A := nat) [] []) <> []) /\
    vars fresh_end = base ++ take (j * CHUNK_SIZE) (take 62 sample_df) /\
    vars fresh_end = base ++ take 62 sample_df.
Proof.
  exact (seeding_appends_whole_chunks sample_df "y" 62 (start [] []) (Ret tt)
           fresh_end eq_refl sample_split (run_eta _ _ fresh_result)).
Defined.

Lemma seeding_fills_table_witness :
  exists w',
    main sample_df "y" (start [] []) = (Ret tt, w') /\
    vars w' = take 62 sample_df /\
    last (printed w') = Some (Verified (Z.of_nat 62)).
Proof.
  exact (seeding_fills_table sample_df "y" 62 (start [] []) eq_refl eq_refl
           sample_split sample_split_le eq_refl).
Defined.

Lemma declined_prompt_aborts_witness :
  exists w',
    main sample_df "n" seeded_start = (Throw (SystemExit 0), w') /\
    vars w' = vars seeded_start /\
    effects w' =
      effects seeded_start ++
      [Called "pd.to_datetime"; Called "create_engine";
       Called "pd.read_sql COUNT";
       Line (AlreadyHas (Z.of_nat (length (vars seeded_start))));
       Called "input"; Line Aborted].
Proof.
  exact (declined_prompt_aborts sample_df "n" 62 seeded_start eq_refl eq_refl
           sample_split seeded_table declined).
Defined.

Lemma remaining_is_replayed_witness :
  exists k realtime_df,
    split_idx (length sample_df) TRAIN_RATIO = Some k /\
    train_df sample_df = Some (take k sample_df) /\
    Realtime.load_realtime_data sample_df TRAIN_RATIO = Some realtime_df /\
    remaining sample_df = Some (Z.of_nat (length realtime_df)) /\
    (k + length realtime_df = length sample_df)%nat.
Proof. exact (remaining_is_replayed sample_df eq_refl). Defined.

End SeedFacts.
